(** * Policy SQL dataset: role extraction, violation checking and rewriting

    A shallow embedding of [src/types.py], [src/violation_checker.py],
    [src/role_extractor.py] and [src/rewriter.py], and the properties of the
    specification that are stated about them.

    Conventions of the embedding:
    - a Python [int] is a [Z];
    - a Python [str] is the [string] of the bytes of its UTF-8 encoding, so
      an ASCII character is one element. Splitting, concatenation and
      equality are Python's on every str, and so are the patterns made of
      anchors and ASCII literals ([is_id_column], [POLICY_RULES]): under
      IGNORECASE an ASCII letter matches its two cases and the characters
      beyond ASCII that fold to it. The classes [\w], [\s] and [\b],
      [str.lower] and the case of a letter beyond ASCII are modelled on
      ASCII text only;
    - a [dict[str, PolicyType]] is a [gmap string PolicyType];
    - a Python exception is the [Raise] outcome of the [result] monad;
    - the positional lists of the Spider AST are records and tagged unions
      with the field names of the comments in [role_extractor.py]. *)

(** The later sections embed further functions of the repository that the
    first ones call or are called by: the column lookups of [src/types.py]
    and [src/spider_loader.py], [src/policy_assigner.py],
    [_extract_tables] of [src/negative_generator.py],
    [src/gold_generator.py] and the loop body of [process_split] in
    [src/main.py]. *)

From Stdlib Require Import ZArith Lia Ascii String.
From stdpp Require Import base option list strings gmap.

Local Open Scope string_scope.
Local Open Scope list_scope.
Local Open Scope Z_scope.

(** ** Exceptions *)

(** Python's [IndexError] and [KeyError], and [re.error], which [re.sub]
    raises for a replacement string that is no template. *)
Inductive exn := IndexError | KeyError | ReError.

Inductive result (A : Type) : Type :=
| Ok (a : A)
| Raise (e : exn).
Arguments Ok {A} a.
Arguments Raise {A} e.

#[global] Instance result_ret : MRet result := fun _ a => Ok a.
#[global] Instance result_bind : MBind result := fun _ _ f m =>
  match m with
  | Ok a => f a
  | Raise e => Raise e
  end.

(** ** Python built-ins used by the sources *)

(** [l[i]] for a list [l] and an integer [i]: negative indices count from
    the end, anything outside [-len(l) .. len(l)-1] raises [IndexError]. *)
Definition py_getitem {A} (l : list A) (i : Z) : result A :=
  let n := Z.of_nat (length l) in
  let j := if i <? 0 then n + i else i in
  if (j <? 0) || (n <=? j) then Raise IndexError
  else match l !! Z.to_nat j with
       | Some a => Ok a
       | None => Raise IndexError
       end.

(** [d[k]] for a dict written as an association list. *)
Fixpoint dict_getitem {K V} `{EqDecision K} (d : list (K * V)) (k : K) : result V :=
  match d with
  | [] => Raise KeyError
  | (k', v) :: d' => if decide (k = k') then Ok v else dict_getitem d' k
  end.

(** ** types.py *)

Inductive PolicyType := Public | JoinOnly | AggOnly | Hidden.
Inductive RoleType := SelectExpr | JoinCond | WherePred | AggArg.

#[global] Instance PolicyType_eq_dec : EqDecision PolicyType.
Proof. solve_decision. Defined.
#[global] Instance RoleType_eq_dec : EqDecision RoleType.
Proof. solve_decision. Defined.

(** The string behind each literal, as the f-strings of the rewriter print it. *)
Definition policy_str (p : PolicyType) : string :=
  match p with
  | Public => "Public" | JoinOnly => "JoinOnly"
  | AggOnly => "AggOnly" | Hidden => "Hidden"
  end.

Definition role_str (r : RoleType) : string :=
  match r with
  | SelectExpr => "SelectExpr" | JoinCond => "JoinCond"
  | WherePred => "WherePred" | AggArg => "AggArg"
  end.

Record ColumnRef := mkColumnRef {
  ref_table : string;
  ref_column : string;
  ref_role : RoleType;
  ref_agg_id : Z;   (* 0=none, 1=max, 2=min, 3=count, 4=sum, 5=avg *)
}.

Record Violation := mkViolation {
  v_column : string;   (* "table.column" format *)
  v_role : RoleType;
  v_policy : PolicyType;
  v_agg_id : Z;
}.

Record TableSchema := mkTableSchema {
  db_id : string;
  table_names : list string;
  column_names : list (Z * string);   (* (table_idx, column_name), -1 for "*" *)
  column_types : list string;
  primary_keys : list Z;
  foreign_keys : list (Z * Z);
}.

(** ** violation_checker.py *)

Definition PERMISSION_TABLE : list (PolicyType * list (RoleType * bool)) :=
  [ (Public,   [ (SelectExpr, true);  (JoinCond, true);
                 (WherePred, true);   (AggArg, true) ]);
    (JoinOnly, [ (SelectExpr, false); (JoinCond, true);
                 (WherePred, true);   (AggArg, false) ]);
    (AggOnly,  [ (SelectExpr, false); (JoinCond, false);
                 (WherePred, false);  (AggArg, true) ]);
    (Hidden,   [ (SelectExpr, false); (JoinCond, false);
                 (WherePred, false);  (AggArg, false) ]) ].

Definition AGGONLY_ALLOWED_AGGS : list Z := [3; 5].   (* count=3, avg=5 *)

Definition is_allowed (policy : PolicyType) (role : RoleType) (agg_id : Z)
  : result bool :=
  row ← dict_getitem PERMISSION_TABLE policy;
  base ← dict_getitem row role;
  if negb base then Ok false
  else if bool_decide (policy = AggOnly) && bool_decide (role = AggArg)
          && negb (bool_decide (agg_id ∈ AGGONLY_ALLOWED_AGGS))
       then Ok false
       else Ok true.

Definition col_key_of (ref : ColumnRef) : string :=
  ref_table ref +:+ "." +:+ ref_column ref.

Fixpoint check_violations (refs : list ColumnRef)
    (policies : gmap string PolicyType) : result (list Violation) :=
  match refs with
  | [] => Ok []
  | ref :: refs' =>
      let col_key := col_key_of ref in
      let policy := default Public (policies !! col_key) in
      allowed ← is_allowed policy (ref_role ref) (ref_agg_id ref);
      violations ← check_violations refs' policies;
      Ok (if negb allowed
          then mkViolation col_key (ref_role ref) policy (ref_agg_id ref)
               :: violations
          else violations)
  end.

(** The permission matrix of the specification, written as a function. *)
Definition permission_matrix (policy : PolicyType) (role : RoleType) : bool :=
  match policy, role with
  | Public, _ => true
  | JoinOnly, (JoinCond | WherePred) => true
  | JoinOnly, _ => false
  | AggOnly, AggArg => true
  | AggOnly, _ => false
  | Hidden, _ => false
  end.

Definition count_or_avg (agg_id : Z) : bool := (agg_id =? 3) || (agg_id =? 5).


(** ** role_extractor.py *)

(** *** The Spider AST

    [col_unit = (agg_id, col_id, isDistinct)];
    [val_unit = (unit_op, col_unit1, col_unit2)], either column unit may be
    [None];
    a right-hand value of a condition is [None], a nested query (a dict), a
    column unit (a list of length three) or a literal (number or string);
    a condition list alternates connector strings and condition tuples
    [(not_op, op_id, val_unit, val1, val2)];
    a table unit is [("table_unit", idx)] or [("sql", query)];
    a query has [select = (isDistinct, [(agg_id, val_unit), ...])],
    [from = {table_units, conds}], [where] and the optional set-operation
    branches [intersect], [union], [except], absent (or empty) when [None]. *)

Record col_unit := mkColUnit {
  cu_agg_id : Z;
  cu_col_id : Z;
  cu_isDistinct : bool;
}.

Record val_unit := mkValUnit {
  unit_op : Z;
  col_unit1 : option col_unit;
  col_unit2 : option col_unit;
}.

Inductive literal := LNum (n : Z) | LStr (s : string).

Inductive val_ (S : Type) : Type :=
| VNone
| VLit (l : literal)
| VColUnit (cu : col_unit)
| VSql (s : S).
Arguments VNone {S}.
Arguments VLit {S} l.
Arguments VColUnit {S} cu.
Arguments VSql {S} s.

Inductive cond_item_ (S : Type) : Type :=
| Connector (s : string)
| Cond (not_op : bool) (op_id : Z) (vu : val_unit) (val1 val2 : val_ S).
Arguments Connector {S} s.
Arguments Cond {S} not_op op_id vu val1 val2.

Inductive table_unit_ (S : Type) : Type :=
| TableUnit (idx : Z)
| SqlUnit (s : S).
Arguments TableUnit {S} idx.
Arguments SqlUnit {S} s.

Unset Elimination Schemes.
Inductive sql : Type := Sql {
  sql_select : bool * list (Z * val_unit);
  sql_from_table_units : list (table_unit_ sql);
  sql_from_conds : list (cond_item_ sql);
  sql_where : list (cond_item_ sql);
  sql_intersect : option sql;
  sql_union : option sql;
  sql_except : option sql;
}.
Set Elimination Schemes.

Abbreviation val := (val_ sql).
Abbreviation cond_item := (cond_item_ sql).
Abbreviation table_unit := (table_unit_ sql).

(** *** Loops

    [for x in xs: refs.extend(body(x))], where the body may raise. A body
    that appends at most one element returns a list of length at most one. *)
Section for_extend.
Context {A B : Type} (body : A → result (list B)).

Fixpoint for_extend (xs : list A) : result (list B) :=
  match xs with
  | [] => Ok []
  | x :: xs' =>
      r ← body x;
      rs ← for_extend xs';
      Ok (r ++ rs)
  end.
End for_extend.

(** Truth value of a Python string: non-empty. *)
Definition str_truthy (s : string) : bool :=
  match s with EmptyString => false | String _ _ => true end.

Definition _resolve_col_id (schema : TableSchema) (col_id : Z)
  : result (string * string) :=
  if col_id =? 0 then Ok (EmptyString, "*")
  else if col_id >=? Z.of_nat (length (column_names schema)) then Ok (EmptyString, EmptyString)
  else
    '(table_idx, col_name) ← py_getitem (column_names schema) col_id;
    if table_idx <? 0 then Ok (EmptyString, col_name)
    else
      table ← py_getitem (table_names schema) table_idx;
      Ok (table, col_name).

Definition _extract_from_val_unit (vu : val_unit) (schema : TableSchema)
    (outer_agg_id : Z) : result (list ColumnRef) :=
  for_extend (fun cu : option col_unit =>
    match cu with
    | None => Ok []
    | Some (mkColUnit agg_id col_id _) =>
        (* Skip col_id=0 ( * ) *)
        if col_id =? 0 then Ok []
        else
          let effective_agg := if negb (agg_id =? 0) then agg_id else outer_agg_id in
          let role := if negb (effective_agg =? 0) then AggArg else SelectExpr in
          '(table, column) ← _resolve_col_id schema col_id;
          if str_truthy table
          then Ok [mkColumnRef table column role effective_agg]
          else Ok []
    end) [col_unit1 vu; col_unit2 vu].

Definition _extract_from_select (select : bool * list (Z * val_unit))
    (schema : TableSchema) : result (list ColumnRef) :=
  let '(_, val_units) := select in
  for_extend (fun item : Z * val_unit =>
    let '(agg_id, vu) := item in
    _extract_from_val_unit vu schema agg_id) val_units.

Definition _extract_cols_from_val_unit (vu : val_unit) (schema : TableSchema)
    (role : RoleType) : result (list ColumnRef) :=
  for_extend (fun cu : option col_unit =>
    match cu with
    | None => Ok []
    | Some (mkColUnit agg_id col_id _) =>
        if col_id =? 0 then Ok []
        else
          '(table, column) ← _resolve_col_id schema col_id;
          if str_truthy table
          then Ok [mkColumnRef table column role agg_id]
          else Ok []
    end) [col_unit1 vu; col_unit2 vu].

(** [_extract_from_conds] and [extract_roles] call each other; the first
    takes the second as [extract_roles_rec] so that the recursion is on the
    query. [cond_value_refs] is the body of its loop [for val in [val1, val2]]. *)
Definition cond_value_refs {S : Type}
    (extract_roles_rec : S → TableSchema → result (list ColumnRef))
    (schema : TableSchema) (role : RoleType) (v : val_ S)
  : result (list ColumnRef) :=
  match v with
  | VNone => Ok []
  (* Subquery *)
  | VSql q => extract_roles_rec q schema
  (* Column reference: [agg_id, col_id, isDistinct] *)
  | VColUnit (mkColUnit agg_id col_id _) =>
      if negb (col_id =? 0) then   (* Skip "*" *)
        '(table, column) ← _resolve_col_id schema col_id;
        if str_truthy table
        then Ok [mkColumnRef table column role agg_id]
        else Ok []
      else Ok []
  | VLit _ => Ok []
  end.

Definition _extract_from_conds {S : Type}
    (extract_roles_rec : S → TableSchema → result (list ColumnRef))
    (conds : list (cond_item_ S)) (schema : TableSchema) (role : RoleType)
  : result (list ColumnRef) :=
  for_extend (fun item : cond_item_ S =>
    match item with
    (* Skip "and" / "or" connectors *)
    | Connector _ => Ok []
    | Cond _ _ vu val1 val2 =>
        (* Extract columns from val_unit (left side of comparison) *)
        left ← _extract_cols_from_val_unit vu schema role;
        (* Handle val1, val2 (right side of comparison) *)
        right ← for_extend (cond_value_refs extract_roles_rec schema role)
                  [val1; val2];
        Ok (left ++ right)
    end) conds.

Fixpoint extract_roles (q : sql) (schema : TableSchema) {struct q}
  : result (list ColumnRef) :=
  (* SELECT clause *)
  r_select ← _extract_from_select (sql_select q) schema;
  (* FROM clause JOIN conditions *)
  r_join ← match sql_from_conds q with
           | [] => Ok []
           | conds => _extract_from_conds extract_roles conds schema JoinCond
           end;
  (* WHERE clause *)
  r_where ← match sql_where q with
            | [] => Ok []
            | conds => _extract_from_conds extract_roles conds schema WherePred
            end;
  (* Subqueries in FROM *)
  r_from ← for_extend (fun tu : table_unit =>
             match tu with
             | SqlUnit q' => extract_roles q' schema
             | TableUnit _ => Ok []
             end) (sql_from_table_units q);
  (* INTERSECT/UNION/EXCEPT *)
  r_ops ← for_extend (fun op : option sql =>
             match op with
             | Some q' => extract_roles q' schema
             | None => Ok []
             end) [sql_intersect q; sql_union q; sql_except q];
  Ok (r_select ++ r_join ++ r_where ++ r_from ++ r_ops).

(** The test of the first loop of [has_select_star] on a SELECT item. *)
Definition is_select_star_item (item : Z * val_unit) : bool :=
  let '(agg_id, vu) := item in
  match col_unit1 vu with
  | Some (mkColUnit inner_agg_id col_id _) =>
      (* SELECT * (not COUNT( * )) *)
      (col_id =? 0) && (inner_agg_id =? 0) && (agg_id =? 0)
  | None => false
  end.

Fixpoint has_select_star (q : sql) : bool :=
  if existsb is_select_star_item (sql_select q).2 then true
  (* Check subqueries and set operations *)
  else if existsb (fun tu : table_unit =>
            match tu with
            | SqlUnit q' => has_select_star q'
            | TableUnit _ => false
            end) (sql_from_table_units q)
  then true
  else if existsb (fun op : option sql =>
            match op with
            | Some q' => has_select_star q'
            | None => false
            end) [sql_intersect q; sql_union q; sql_except q]
  then true
  else false.

(** ** The fragment of Python's [re] that rewriter.py uses

    Patterns are matched by backtracking in the order of Python's engine:
    the leftmost start position first, at each position the alternatives of
    [|] from left to right, a greedy repetition from the longest to the
    shortest, a lazy one from the shortest to the longest. The text is the
    list of the bytes of a str in UTF-8. On ASCII text the classes are
    Python's: [\w] is [[A-Za-z0-9_]], [\s] is the white space of
    [str.isspace], [str.lower] and IGNORECASE fold [A-Z]. Beyond ASCII only
    the folding of IGNORECASE onto ASCII letters is modelled: a byte above
    127 is no word character and no white space, and has no case. *)

Definition char_in (lo hi : nat) (c : ascii) : bool :=
  let n := nat_of_ascii c in (lo <=? n)%nat && (n <=? hi)%nat.

(** [\w] and [\s] within ASCII. *)
Definition is_word_char (c : ascii) : bool :=
  char_in 48 57 c || char_in 65 90 c || char_in 97 122 c || char_in 95 95 c.

Definition is_space_char (c : ascii) : bool :=
  char_in 9 13 c || char_in 28 32 c.

Definition lower_char (c : ascii) : ascii :=
  if char_in 65 90 c then ascii_of_nat (nat_of_ascii c + 32) else c.

(** [str.lower()] of an ASCII str. *)
Definition lower (s : string) : string :=
  string_of_list_ascii (map lower_char (list_ascii_of_string s)).

Inductive regex : Type :=
| Empty                                (* the empty pattern *)
| Chars (p : ascii → bool)             (* one character of a class *)
| Cat (r1 r2 : regex)                  (* r1 r2 *)
| Alt (r1 r2 : regex)                  (* r1|r2 *)
| Star (p : ascii → bool)              (* c*  for a class c, greedy *)
| LazyStar (p : ascii → bool)          (* c*? for a class c *)
| Group (n : nat) (r : regex)          (* capturing group number n *)
| WordBoundary                         (* \b *)
| Bol                                  (* ^ without MULTILINE *)
| Eol.                                 (* $ without MULTILINE *)

Definition Plus (p : ascii → bool) : regex := Cat (Chars p) (Star p).
Definition LazyPlus (p : ascii → bool) : regex := Cat (Chars p) (LazyStar p).
Definition Opt (r : regex) : regex := Alt r Empty.

(** A literal character under IGNORECASE, within ASCII. *)
Definition char_ci (c : ascii) : ascii → bool :=
  fun t => bool_decide (lower_char t = lower_char c).

Definition any_char : ascii → bool := fun _ => true.
Definition is_char (c : ascii) : ascii → bool := fun t => bool_decide (t = c).
Definition not_char (c : ascii) : ascii → bool :=
  fun t => negb (bool_decide (t = c)).

Definition byte (n : nat) : ascii := ascii_of_nat n.

(** Under IGNORECASE an ASCII letter also matches the characters beyond
    ASCII that fold to it: U+0130 and U+0131 for [i], U+017F for [s], U+212A
    for [k]; no other ASCII character has such a partner. Here they are in
    UTF-8. *)
Definition folds_beyond_ascii (c : ascii) : list (list ascii) :=
  if bool_decide (lower_char c = "i"%char)
  then [[byte 196; byte 176]; [byte 196; byte 177]]
  else if bool_decide (lower_char c = "s"%char) then [[byte 197; byte 191]]
  else if bool_decide (lower_char c = "k"%char)
  then [[byte 226; byte 132; byte 170]]
  else [].

(** The bytes [bs], one after the other. *)
Definition Bytes (bs : list ascii) : regex :=
  foldr (fun b r => Cat (Chars (is_char b)) r) Empty bs.

(** One literal character of a pattern under IGNORECASE. *)
Definition LitChar (c : ascii) : regex :=
  foldl (fun r bs => Alt r (Bytes bs)) (Chars (char_ci c)) (folds_beyond_ascii c).

(** A literal under IGNORECASE; [re.escape] makes every character of a
    name stand for itself. *)
Fixpoint Lit (cs : list ascii) : regex :=
  match cs with
  | [] => Empty
  | c :: cs' => Cat (LitChar c) (Lit cs')
  end.

Definition newline : ascii := "010"%char.

(** The spans of the capturing groups, most recent first. *)
Definition captures := list (nat * (nat * nat)).

Section matcher.
Context (s : list ascii) {R : Type}.

Definition word_at (i : nat) : bool :=
  match s !! i with Some c => is_word_char c | None => false end.

Definition at_boundary (i : nat) : bool :=
  xorb (match i with O => false | S i' => word_at i' end) (word_at i).

(** [$] matches at the end of the text and just before a newline that ends
    the text. *)
Definition at_end (i : nat) : bool :=
  bool_decide (i = length s)
  || (bool_decide (S i = length s) && bool_decide (s !! i = Some newline)).

(** [c*] from position [j], where [rest] is the text from [j] on. *)
Fixpoint star_greedy (p : ascii → bool) (k : nat → option R)
    (rest : list ascii) (j : nat) : option R :=
  match rest with
  | c :: rest' =>
      if p c then
        match star_greedy p k rest' (S j) with
        | Some x => Some x
        | None => k j
        end
      else k j
  | [] => k j
  end.

Fixpoint star_lazy (p : ascii → bool) (k : nat → option R)
    (rest : list ascii) (j : nat) : option R :=
  match k j with
  | Some x => Some x
  | None =>
      match rest with
      | c :: rest' => if p c then star_lazy p k rest' (S j) else None
      | [] => None
      end
  end.

(** [rmatch r i caps k]: match [r] at position [i], then continue with
    [k]; [None] makes the matcher backtrack. *)
Fixpoint rmatch (r : regex) (i : nat) (caps : captures)
    (k : nat → captures → option R) : option R :=
  match r with
  | Empty => k i caps
  | Chars p =>
      match s !! i with
      | Some c => if p c then k (S i) caps else None
      | None => None
      end
  | Cat r1 r2 => rmatch r1 i caps (fun j caps' => rmatch r2 j caps' k)
  | Alt r1 r2 =>
      match rmatch r1 i caps k with
      | Some x => Some x
      | None => rmatch r2 i caps k
      end
  | Star p => star_greedy p (fun j => k j caps) (drop i s) i
  | LazyStar p => star_lazy p (fun j => k j caps) (drop i s) i
  | Group n r' => rmatch r' i caps (fun j caps' => k j ((n, (i, j)) :: caps'))
  | WordBoundary => if at_boundary i then k i caps else None
  | Bol => match i with O => k i caps | S _ => None end
  | Eol => if at_end i then k i caps else None
  end.
End matcher.

(** A match object: the span of the whole match and of the groups. *)
Record re_match := mkMatch {
  m_start : nat;
  m_end : nat;
  m_groups : captures;
}.

Definition group_span (m : re_match) (n : nat) : option (nat * nat) :=
  snd <$> find (fun e => bool_decide (e.1 = n)) (m_groups m).

Definition slice (s : list ascii) (b e : nat) : list ascii :=
  take (e - b) (drop b s).

(** [m.group(n)], [m.start(n)], [m.end(n)] for a group that took part in
    the match. *)
Definition m_group (s : list ascii) (m : re_match) (n : nat) : list ascii :=
  match group_span m n with Some (b, e) => slice s b e | None => [] end.
Definition m_group_start (m : re_match) (n : nat) : nat :=
  match group_span m n with Some (b, _) => b | None => 0%nat end.
Definition m_group_end (m : re_match) (n : nat) : nat :=
  match group_span m n with Some (_, e) => e | None => 0%nat end.

(** One attempt at position [start]; with [must_advance] an empty match is
    rejected and the matcher backtracks. *)
Definition match_at (r : regex) (s : list ascii) (start : nat)
    (must_advance : bool) : option re_match :=
  rmatch s r start []
    (fun j caps =>
       if must_advance && bool_decide (j = start) then None
       else Some (mkMatch start j caps)).

(** The scan of [re.search]: [n] further start positions after [start]. *)
Fixpoint search_from (r : regex) (s : list ascii) (n : nat) (start : nat)
    (must_advance : bool) : option re_match :=
  match match_at r s start must_advance with
  | Some m => Some m
  | None =>
      match n with
      | O => None
      | S n' => search_from r s n' (S start) false
      end
  end.

Definition re_search (r : regex) (s : list ascii) : option re_match :=
  search_from r s (length s) 0 false.

(** [re.sub(pattern, repl, s)] for a callable [repl]: the non-overlapping
    matches from left to right; an empty match is allowed next to the
    previous match only if that one was not empty at the same place. *)
Fixpoint sub_loop (r : regex) (repl : re_match → list ascii) (s : list ascii)
    (fuel : nat) (pos : nat) (must_advance : bool) : list ascii :=
  match fuel with
  | O => drop pos s
  | S fuel' =>
      match search_from r s (length s - pos) pos must_advance with
      | None => drop pos s
      | Some m =>
          slice s pos (m_start m) ++ repl m
          ++ sub_loop r repl s fuel' (m_end m)
               (bool_decide (m_end m = m_start m))
      end
  end.

Definition re_sub (r : regex) (repl : re_match → list ascii) (s : list ascii)
  : list ascii :=
  sub_loop r repl s (2 * length s + 2) 0 false.

(** ** The replacement string of [re.sub]

    [re.sub(pattern, repl, s)] with a string [repl] reads [repl] as a
    template before it looks for a match: a backslash starts an escape,
    every other character stands for itself. This is [parse_template] of
    CPython 3.11 for a pattern without groups, as [\b{re.escape(name)}\b]
    is: the only group that a template can name is group 0, the whole
    match, and it can be named only as [\g<0>]. The number in [\g<...>] is
    read by [int], which also takes a sign, white space around and
    underscores between the digits (later versions of CPython take ASCII
    digits only); a name of ASCII characters is assumed there. *)

Definition backslash : ascii := "092"%char.

(** The tokens of the template: a backslash and the character after it
    are one token. *)
Inductive token :=
| Tok (c : ascii)
| Esc (c : ascii)
| Dangling.            (* a backslash that ends the template *)

Fixpoint tokenize (cs : list ascii) : list token :=
  match cs with
  | [] => []
  | c :: cs1 =>
      if bool_decide (c = backslash) then
        match cs1 with
        | [] => [Dangling]
        | c1 :: cs2 => Esc c1 :: tokenize cs2
        end
      else Tok c :: tokenize cs1
  end.

(** The tokenizer reads one token ahead: taking the token before a
    dangling backslash raises "bad escape (end of pattern)". *)
Definition dangling_next (ts : list token) : bool :=
  match ts with Dangling :: _ => true | _ => false end.

Inductive piece :=
| Literal (cs : list ascii)
| WholeMatch.                          (* group 0 *)

Definition is_digit (c : ascii) : bool := char_in 48 57 c.
Definition is_octdigit (c : ascii) : bool := char_in 48 55 c.
Definition is_ascii_letter (c : ascii) : bool :=
  char_in 65 90 c || char_in 97 122 c.
Definition digit_value (c : ascii) : nat := nat_of_ascii c - 48.

(** [chr(n)] for [n < 256], in UTF-8. *)
Definition chr (n : nat) : list ascii :=
  if (n <? 128)%nat then [byte n]
  else [byte (192 + n / 64); byte (128 + n mod 64)].

(** The escapes that stand for one character:
    [\a \b \f \n \r \t \v] and the backslash itself. *)
Definition ESCAPES : list (ascii * nat) :=
  [ ("a"%char, 7%nat); ("b"%char, 8%nat); ("f"%char, 12%nat);
    ("n"%char, 10%nat); ("r"%char, 13%nat); ("t"%char, 9%nat);
    ("v"%char, 11%nat); (backslash, 92%nat) ].

(** [name.isidentifier()] for an ASCII name. *)
Definition isidentifier (name : list ascii) : bool :=
  match name with
  | [] => false
  | c :: _ => negb (is_digit c) && forallb is_word_char name
  end.

(** [int(name) == 0]: white space around, one sign, and zeros that single
    underscores may separate. *)
Fixpoint zeros (after_zero : bool) (cs : list ascii) : bool :=
  match cs with
  | [] => after_zero
  | c :: cs1 =>
      if bool_decide (c = "0"%char) then zeros true cs1
      else if bool_decide (c = "_"%char) then after_zero && zeros false cs1
      else false
  end.

(** The white space that [int] skips. *)
Definition is_int_space (c : ascii) : bool := char_in 9 13 c || char_in 32 32 c.

Fixpoint lstrip (cs : list ascii) : list ascii :=
  match cs with
  | c :: cs1 => if is_int_space c then lstrip cs1 else cs
  | [] => []
  end.

Definition strip (cs : list ascii) : list ascii := rev (lstrip (rev (lstrip cs))).

Definition int_is_zero (name : list ascii) : bool :=
  match strip name with
  | c :: cs1 =>
      if bool_decide (c = "+"%char) || bool_decide (c = "-"%char)
      then zeros false cs1
      else zeros false (c :: cs1)
  | [] => false
  end.

(** The group that [\g<name>] names: an identifier is looked up in the
    named groups of the pattern, of which there are none; anything else has
    to be a number, and a number is a group of the pattern only if it
    is 0. *)
Definition group_of_name (name : list ascii) : result piece :=
  if isidentifier name then Raise IndexError      (* unknown group name *)
  else if int_is_zero name then Ok WholeMatch
  else Raise ReError.

(** Where the parser is: between escapes, or inside the name of [\g<...>]
    with the characters read so far, last first. *)
Inductive parse_mode := Normal | Name (acc : list ascii).

Fixpoint parse_template (m : parse_mode) (ts : list token) : result (list piece) :=
  match ts with
  | [] =>
      match m with
      | Normal => Ok []
      | Name _ => Raise ReError                   (* missing >, unterminated name *)
      end
  | t :: ts1 =>
  if dangling_next ts1 then Raise ReError
  else
  match m, t with
  | _, Dangling => Raise ReError
  | Name acc, Tok c =>
      if bool_decide (c = ">"%char) then
        match acc with
        | [] => Raise ReError                     (* missing group name *)
        | _ =>
            group ← group_of_name (rev acc);
            rest ← parse_template Normal ts1;
            Ok (group :: rest)
        end
      else parse_template (Name (c :: acc)) ts1
  | Name acc, Esc c => parse_template (Name (c :: backslash :: acc)) ts1
  | Normal, Tok c =>
      rest ← parse_template Normal ts1;
      Ok (Literal [c] :: rest)
  | Normal, Esc c =>
      if bool_decide (c = "g"%char) then
        match ts1 with
        | Tok lt :: ts2 =>
            if bool_decide (lt = "<"%char) then
              if dangling_next ts2 then Raise ReError
              else parse_template (Name []) ts2
            else Raise ReError                    (* missing < *)
        | _ => Raise ReError
        end
      else if bool_decide (c = "0"%char) then
        (* up to two more octal digits *)
        match ts1 with
        | Tok d1 :: ts2 =>
            if is_octdigit d1 then
              if dangling_next ts2 then Raise ReError
              else
                match ts2 with
                | Tok d2 :: ts3 =>
                    if is_octdigit d2 then
                      if dangling_next ts3 then Raise ReError
                      else
                        rest ← parse_template Normal ts3;
                        Ok (Literal (chr (8 * digit_value d1 + digit_value d2))
                            :: rest)
                    else
                      rest ← parse_template Normal ts2;
                      Ok (Literal (chr (digit_value d1)) :: rest)
                | _ =>
                    rest ← parse_template Normal ts2;
                    Ok (Literal (chr (digit_value d1)) :: rest)
                end
            else
              rest ← parse_template Normal ts1;
              Ok (Literal (chr 0) :: rest)
        | _ =>
            rest ← parse_template Normal ts1;
            Ok (Literal (chr 0) :: rest)
        end
      else if is_digit c then
        (* three octal digits are a character; anything else is a group
           with a number from 1 on, which the pattern does not have *)
        match ts1 with
        | Tok d1 :: Tok d2 :: ts3 =>
            if is_octdigit c && is_octdigit d1 && is_octdigit d2 then
              if dangling_next ts3 then Raise ReError
              else
                let value := (64 * digit_value c + 8 * digit_value d1
                              + digit_value d2)%nat in
                if (255 <? value)%nat then Raise ReError
                else
                  rest ← parse_template Normal ts3;
                  Ok (Literal (chr value) :: rest)
            else Raise ReError                    (* invalid group reference *)
        | _ => Raise ReError
        end
      else
        match List.find (fun e : ascii * nat => bool_decide (e.1 = c)) ESCAPES with
        | Some (_, n) =>
            rest ← parse_template Normal ts1;
            Ok (Literal (chr n) :: rest)
        | None =>
            if is_ascii_letter c then Raise ReError       (* bad escape *)
            else
              rest ← parse_template Normal ts1;
              Ok (Literal [backslash; c] :: rest)
        end
  end
  end.

(** [expand_template]: what a match is replaced by. *)
Definition expand_template (s : list ascii) (template : list piece)
    (m : re_match) : list ascii :=
  concat (map (fun p : piece =>
                 match p with
                 | Literal cs => cs
                 | WholeMatch => slice s (m_start m) (m_end m)
                 end) template).

(** ** rewriter.py *)

(** [s.split(sep)] for a one-character separator. *)
Fixpoint str_split (sep : ascii) (s : string) : list string :=
  match s with
  | EmptyString => [EmptyString]
  | String c s' =>
      if bool_decide (c = sep) then EmptyString :: str_split sep s'
      else match str_split sep s' with
           | part :: parts => String c part :: parts
           | [] => [String c EmptyString]
           end
  end.

(** [s.split(".")[0]] and [s.split(".")[-1]]; the list is never empty. *)
Definition split_first (s : string) : string := hd EmptyString (str_split "." s).
Definition split_last (s : string) : string := List.last (str_split "." s) EmptyString.

Definition chars (s : string) : list ascii := list_ascii_of_string s.
Definition str (cs : list ascii) : string := string_of_list_ascii cs.

Definition Seq (rs : list regex) : regex := foldr Cat Empty rs.

Record RewriteResult := mkRewriteResult {
  success : bool;
  rr_sql : option string;
  reason : option string;
}.

Definition Success (sql : string) : RewriteResult := mkRewriteResult true (Some sql) None.
Definition Refused (why : string) : RewriteResult := mkRewriteResult false None (Some why).

(** ID column patterns: [^id$], [_id$], [^id_], [_code$], [^stuid$], all
    with [re.I]. *)
Definition id_patterns : list regex :=
  [ Seq [Bol; Lit (chars "id"); Eol];
    Seq [Lit (chars "_id"); Eol];
    Seq [Bol; Lit (chars "id_")];
    Seq [Lit (chars "_code"); Eol];
    Seq [Bol; Lit (chars "stuid"); Eol] ].

Definition is_id_column (name : string) : bool :=
  existsb (fun p => bool_decide (is_Some (re_search p (chars name)))) id_patterns.

(** [enumerate(l)] *)
Definition enumerate {A} (l : list A) : list (Z * A) :=
  imap (fun i a => (Z.of_nat i, a)) l.

(** The key [(not x[0], x[1])] of a candidate [(is_pk, col_id, full_name)]
    and the order of Python tuples on it ([False < True]). *)
Definition candidate := (bool * Z * string)%type.

Definition candidate_key (x : candidate) : bool * Z := (negb x.1.1, x.1.2).

Definition key_le (k1 k2 : bool * Z) : bool :=
  match k1.1, k2.1 with
  | false, true => true
  | true, false => false
  | _, _ => k1.2 <=? k2.2
  end.

(** [list.sort(key=...)] is stable: an insertion sort that keeps equal keys
    in their order gives the same list. *)
Fixpoint insert_by_key (x : candidate) (l : list candidate) : list candidate :=
  match l with
  | [] => [x]
  | y :: l' =>
      if key_le (candidate_key x) (candidate_key y) then x :: y :: l'
      else y :: insert_by_key x l'
  end.

Definition sort_by_key (l : list candidate) : list candidate :=
  foldr insert_by_key [] l.

(** The body of the loop over [enumerate(schema.column_names)]: the
    candidate that the entry [(col_id, (table_idx, col_name))] appends, if
    any. *)
Definition id_candidate (table_lower : string) (schema : TableSchema)
    (policies : gmap string PolicyType) (entry : Z * (Z * string))
  : result (list candidate) :=
  let '(col_id, (table_idx, col_name)) := entry in
  if col_id =? 0 then Ok []                     (* Skip "*" *)
  else if table_idx <? 0 then Ok []
  else
    table ← py_getitem (table_names schema) table_idx;
    if negb (String.eqb (lower table) table_lower) then Ok []
    else
      let full_name := table +:+ "." +:+ col_name in
      (* Only Public columns can be used in SelectExpr *)
      if is_id_column col_name
         && bool_decide (policies !! full_name = Some Public)
      then
        let is_pk := bool_decide (col_id ∈ primary_keys schema) in
        Ok [(is_pk, col_id, full_name)]
      else Ok [].

(** The candidates, in the order in which the loop appends them. *)
Definition find_id_candidates (table_lower : string) (schema : TableSchema)
    (policies : gmap string PolicyType) : result (list candidate) :=
  for_extend (id_candidate table_lower schema policies)
    (enumerate (column_names schema)).

Definition _find_id_column (column : string) (schema : TableSchema)
    (policies : gmap string PolicyType) : result (option string) :=
  let table := split_first column in
  let table_lower := lower table in
  candidates ← find_id_candidates table_lower schema policies;
  match candidates with
  | [] => Ok None
  | _ =>
      (* Sort: PK first, then by col_id *)
      first ← py_getitem (sort_by_key candidates) 0;
      Ok (Some first.2)
  end.

(** [\b{re.escape(old_name)}\b] *)
Definition replace_pattern (old_name : string) : regex :=
  Seq [WordBoundary; Lit (chars old_name); WordBoundary].

Definition _replace_column (query old_col new_col : string) : result string :=
  let old_name := split_last old_col in
  let new_name := split_last new_col in
  (* Case-insensitive word boundary replacement *)
  template ← parse_template Normal (tokenize (chars new_name));
  Ok (str (re_sub (replace_pattern old_name)
             (expand_template (chars query) template) (chars query))).

(** [\bSELECT\b(.+?)\bFROM\b] with IGNORECASE and DOTALL *)
Definition select_pattern : regex :=
  Seq [WordBoundary; Lit (chars "SELECT"); WordBoundary;
       Group 1 (LazyPlus any_char);
       WordBoundary; Lit (chars "FROM"); WordBoundary].

(** [\b(AVG|COUNT|SUM|MAX|MIN)\s*\([^)]*\b{re.escape(col_name)}\b[^)]*\)] *)
Definition agg_pattern (col_name : string) : regex :=
  Seq [WordBoundary;
       Group 1 (Alt (Lit (chars "AVG")) (Alt (Lit (chars "COUNT"))
               (Alt (Lit (chars "SUM")) (Alt (Lit (chars "MAX"))
                                             (Lit (chars "MIN"))))));
       Star is_space_char; Chars (char_ci "("); Star (not_char ")");
       WordBoundary; Lit (chars col_name); WordBoundary;
       Star (not_char ")"); Chars (char_ci ")")].

(** [(\b(?:\w+\.)?)({re.escape(col_name)})\b] *)
Definition bare_pattern (col_name : string) : regex :=
  Seq [Group 1 (Cat WordBoundary
                  (Opt (Cat (Plus is_word_char) (Chars (char_ci ".")))));
       Group 2 (Lit (chars col_name));
       WordBoundary].

Definition _wrap_with_avg (query col_name : string) : string :=
  let q := chars query in
  match re_search select_pattern q with
  | None => query
  | Some select_match =>
      let select_part := m_group q select_match 1 in
      (* Check if col_name is already wrapped in an aggregate *)
      if bool_decide (is_Some (re_search (agg_pattern col_name) select_part))
      then query   (* Already aggregated *)
      else
        let replacer (m : re_match) : list ascii :=
          let prefix := m_group select_part m 1 in
          chars "AVG(" ++ prefix ++ chars col_name ++ chars ")" in
        let new_select := re_sub (bare_pattern col_name) replacer select_part in
        if bool_decide (new_select = select_part) then query   (* No replacement made *)
        else str (take (m_group_start select_match 1) q ++ new_select
                  ++ drop (m_group_end select_match 1) q)
  end.

Fixpoint _apply_rewrite_step (query : string) (violations : list Violation)
    (schema : TableSchema) (policies : gmap string PolicyType)
  : result (string * list Violation) :=
  match violations with
  | [] => Ok (query, [])
  | v :: violations' =>
      '(query', kept) ←
        match v_policy v with
        | Hidden =>
            (* R1: Replace Hidden column with Public *_id column *)
            replacement ← _find_id_column (v_column v) schema policies;
            match replacement with
            | Some new_col =>
                if str_truthy new_col then
                  query' ← _replace_column query (v_column v) new_col;
                  Ok (query', [])
                else Ok (query, [v])
            | None => Ok (query, [v])
            end
        | AggOnly =>
            (* R2: Wrap with AVG() *)
            let col_name := split_last (v_column v) in
            let new_query := _wrap_with_avg query col_name in
            if negb (String.eqb new_query query) then Ok (new_query, [])
            else Ok (query, [v])
        | _ => Ok (query, [])
        end;
      '(query'', remaining) ← _apply_rewrite_step query' violations' schema policies;
      Ok (query'', kept ++ remaining)
  end.

(** The loop [for _ in range(n)] of [rewrite] and what follows it. *)
Fixpoint rewrite_passes (n : nat) (current_query : string)
    (select_violations : list Violation) (schema : TableSchema)
    (policies : gmap string PolicyType) : result RewriteResult :=
  match n with
  | O => Ok (Refused "Rewrite limit exceeded")
  | S n' =>
      '(current_query', remaining) ←
        _apply_rewrite_step current_query select_violations schema policies;
      match remaining with
      | [] => Ok (Success current_query')
      | _ => rewrite_passes n' current_query' remaining schema policies
      end
  end.

Definition role_in (r : RoleType) (rs : list RoleType) : bool := bool_decide (r ∈ rs).
Definition policy_in (p : PolicyType) (ps : list PolicyType) : bool := bool_decide (p ∈ ps).

(** The tests of the four refusal loops of [rewrite]. *)
Definition predicate_on_forbidden (v : Violation) : bool :=
  role_in (v_role v) [WherePred; JoinCond] && policy_in (v_policy v) [Hidden; AggOnly].

Definition aggonly_bad_aggregate (v : Violation) : bool :=
  bool_decide (v_role v = AggArg) && bool_decide (v_policy v = AggOnly)
  && negb (bool_decide (v_agg_id v ∈ [3; 5])).

Definition aggregate_on_forbidden (v : Violation) : bool :=
  bool_decide (v_role v = AggArg) && policy_in (v_policy v) [Hidden; JoinOnly].

Definition joinonly_selected (v : Violation) : bool :=
  bool_decide (v_role v = SelectExpr) && bool_decide (v_policy v = JoinOnly).

Definition rewrite (query : string) (violations : list Violation)
    (schema : TableSchema) (policies : gmap string PolicyType)
  : result RewriteResult :=
  match violations with
  | [] => Ok (Success query)
  | _ =>
  (* R3: WHERE/JOIN with Hidden or AggOnly -> immediate REFUSE *)
  match find predicate_on_forbidden violations with
  | Some v =>
      Ok (Refused (policy_str (v_policy v) +:+ " column in "
                   +:+ role_str (v_role v) +:+ ": " +:+ v_column v))
  | None =>
  (* R4: AggArg with AggOnly column using non-AVG/COUNT -> REFUSE *)
  match find aggonly_bad_aggregate violations with
  | Some v =>
      Ok (Refused ("AggOnly column with non-AVG/COUNT agg: " +:+ v_column v))
  | None =>
  (* R4 also: AggArg with Hidden or JoinOnly -> REFUSE *)
  match find aggregate_on_forbidden violations with
  | Some v =>
      Ok (Refused (policy_str (v_policy v) +:+ " column in AggArg: " +:+ v_column v))
  | None =>
  (* JoinOnly in SelectExpr -> REFUSE (no useful rewrite possible) *)
  match find joinonly_selected violations with
  | Some v =>
      Ok (Refused ("JoinOnly column in SelectExpr: " +:+ v_column v))
  | None =>
  (* Only Hidden/AggOnly SelectExpr violations can be rewritten *)
  let select_violations := filter (λ v, v_role v = SelectExpr) violations in
  match select_violations with
  | [] => Ok (Success query)   (* Other violations that weren't handled above *)
  | _ =>
      (* Apply rewrites (max 2 steps) *)
      rewrite_passes 2 query select_violations schema policies
  end end end end end end.

(** ** Observers used to state the properties *)

(** The [return] statement at which [rewrite] leaves, in source order: the
    empty list (line 26), the four refusals (lines 31, 36, 43, 48), the
    success without SelectExpr violations (line 54), the rewrite loop
    (lines 58-66). *)
Inductive rewrite_exit :=
| ExitNoViolations
| ExitPredicate
| ExitBadAggregate
| ExitAggregate
| ExitJoinOnly
| ExitNothingToRewrite
| ExitPasses.

Definition rewrite_exit_of (violations : list Violation) : rewrite_exit :=
  match violations with
  | [] => ExitNoViolations
  | _ =>
  if find predicate_on_forbidden violations is Some _ then ExitPredicate
  else if find aggonly_bad_aggregate violations is Some _ then ExitBadAggregate
  else if find aggregate_on_forbidden violations is Some _ then ExitAggregate
  else if find joinonly_selected violations is Some _ then ExitJoinOnly
  else match filter (λ v, v_role v = SelectExpr) violations with
       | [] => ExitNothingToRewrite
       | _ => ExitPasses
       end
  end.

(** A violation that the permission model denies: what the checker reports. *)
Definition denied (v : Violation) : Prop :=
  match v_policy v, v_role v with
  | AggOnly, AggArg => count_or_avg (v_agg_id v) = false
  | policy, role => permission_matrix policy role = false
  end.

(** The number of calls of [_apply_rewrite_step] that the loop makes. *)
Fixpoint passes_performed (n : nat) (current_query : string)
    (select_violations : list Violation) (schema : TableSchema)
    (policies : gmap string PolicyType) : nat :=
  match n with
  | O => O
  | S n' =>
      match _apply_rewrite_step current_query select_violations schema policies with
      | Ok (current_query', (_ :: _) as remaining) =>
          S (passes_performed n' current_query' remaining schema policies)
      | _ => 1%nat
      end
  end.

(** The test of [_wrap_with_avg] for "already wrapped in an aggregate": the
    SELECT clause is found and the aggregate pattern matches in it. *)
Definition already_aggregated (query col_name : string) : bool :=
  match re_search select_pattern (chars query) with
  | Some select_match =>
      bool_decide (is_Some (re_search (agg_pattern col_name)
                              (m_group (chars query) select_match 1)))
  | None => false
  end.

(** A predicate on queries, lifted to the places where a query holds
    other queries. *)
Definition on_val (P : sql → Prop) (v : val) : Prop :=
  match v with VSql q => P q | _ => True end.

Definition on_cond (P : sql → Prop) (c : cond_item) : Prop :=
  match c with
  | Cond _ _ _ val1 val2 => on_val P val1 ∧ on_val P val2
  | Connector _ => True
  end.

Definition on_table_unit (P : sql → Prop) (tu : table_unit) : Prop :=
  match tu with SqlUnit q => P q | TableUnit _ => True end.

Definition on_branch (P : sql → Prop) (op : option sql) : Prop :=
  match op with Some q => P q | None => True end.

(** The detector of [has_select_star] looks at the query itself, at the
    subqueries of its FROM clause and at its set-operation branches. *)
Inductive detector_child (q : sql) : sql → Prop :=
| child_from q' : SqlUnit q' ∈ sql_from_table_units q → detector_child q q'
| child_intersect q' : sql_intersect q = Some q' → detector_child q q'
| child_union q' : sql_union q = Some q' → detector_child q q'
| child_except q' : sql_except q = Some q' → detector_child q q'.

(** A SELECT item [(agg_id, val_unit)] that is an unaggregated [*]. *)
Definition star_item (item : Z * val_unit) : Prop :=
  item.1 = 0 ∧
  ∃ cu, col_unit1 item.2 = Some cu ∧ cu_agg_id cu = 0 ∧ cu_col_id cu = 0.

(** The query without its wildcard column units: a [*] column unit of a
    value expression becomes [None], a [*] right-hand value becomes [None]. *)
Definition is_star (cu : col_unit) : bool := cu_col_id cu =? 0.

Definition without_star_cu (cu : option col_unit) : option col_unit :=
  match cu with
  | Some c => if is_star c then None else Some c
  | None => None
  end.

Definition without_star_vu (vu : val_unit) : val_unit :=
  mkValUnit (unit_op vu) (without_star_cu (col_unit1 vu))
    (without_star_cu (col_unit2 vu)).

Definition without_star_val {S} (rec : S → S) (v : val_ S) : val_ S :=
  match v with
  | VColUnit cu => if is_star cu then VNone else VColUnit cu
  | VSql q => VSql (rec q)
  | v' => v'
  end.

Definition without_star_cond {S} (rec : S → S) (c : cond_item_ S) : cond_item_ S :=
  match c with
  | Connector s => Connector s
  | Cond not_op op_id vu val1 val2 =>
      Cond not_op op_id (without_star_vu vu)
        (without_star_val rec val1) (without_star_val rec val2)
  end.

Fixpoint without_star (q : sql) : sql :=
  Sql ((sql_select q).1,
       map (fun item : Z * val_unit => (item.1, without_star_vu item.2))
         (sql_select q).2)
      (map (fun tu : table_unit =>
              match tu with
              | SqlUnit q' => SqlUnit (without_star q')
              | TableUnit i => TableUnit i
              end) (sql_from_table_units q))
      (map (without_star_cond without_star) (sql_from_conds q))
      (map (without_star_cond without_star) (sql_where q))
      (match sql_intersect q with Some q' => Some (without_star q') | None => None end)
      (match sql_union q with Some q' => Some (without_star q') | None => None end)
      (match sql_except q with Some q' => Some (without_star q') | None => None end).

(** The identifier naming convention in the words of the specification:
    exact [id], suffix [_id], prefix [id_], suffix [_code], exact [stuid],
    case-insensitive. *)
Definition lowered (name : string) : list ascii := map lower_char (chars name).

Definition id_like (name : string) : Prop :=
  lowered name = chars "id"
  ∨ chars "_id" `suffix_of` lowered name
  ∨ chars "id_" `prefix_of` lowered name
  ∨ chars "_code" `suffix_of` lowered name
  ∨ lowered name = chars "stuid".

(** A name that does not end with a newline character. *)
Definition one_line (name : string) : Prop := last (chars name) ≠ Some newline.

(** [str.isascii()] *)
Definition ascii_chars (cs : list ascii) : bool :=
  forallb (fun c => (nat_of_ascii c <? 128)%nat) cs.

Definition isascii (s : string) : bool := ascii_chars (chars s).

(** Every owning-table index of the schema is an index of [table_names]
    (or negative, for "no table"). *)
Definition schema_wf (schema : TableSchema) : Prop :=
  ∀ table_idx col_name, (table_idx, col_name) ∈ column_names schema →
    table_idx < Z.of_nat (length (table_names schema)).

Definition names_one_line (schema : TableSchema) : Prop :=
  ∀ table_idx col_name, (table_idx, col_name) ∈ column_names schema →
    one_line col_name.

(** The names of the tables and of the columns are ASCII. *)
Definition schema_ascii (schema : TableSchema) : Prop :=
  (∀ table, table ∈ table_names schema → isascii table = true)
  ∧ ∀ table_idx col_name, (table_idx, col_name) ∈ column_names schema →
      isascii col_name = true.

(** The column with the index [col_id] is a replacement candidate for
    [column], under the name [full_name]: it belongs to the table of
    [column] (names compared in lower case), its name is id-like and the
    policy map holds Public for it. *)
Definition is_candidate (column : string) (schema : TableSchema)
    (policies : gmap string PolicyType) (col_id : Z) (full_name : string) : Prop :=
  ∃ table_idx col_name table,
    0 < col_id
    ∧ column_names schema !! Z.to_nat col_id = Some (table_idx, col_name)
    ∧ 0 ≤ table_idx
    ∧ table_names schema !! Z.to_nat table_idx = Some table
    ∧ lower table = lower (split_first column)
    ∧ id_like col_name
    ∧ policies !! (table +:+ "." +:+ col_name) = Some Public
    ∧ full_name = table +:+ "." +:+ col_name.

(** ** Scenario data

    The schema of the scenarios of the specification, [Student(id PK, name,
    email)] and [Employee(emp_id, salary)], and policy maps over it. *)
Definition school_schema : TableSchema :=
  mkTableSchema "school" ["Student"; "Employee"]
    [(-1, "*"); (0, "id"); (0, "name"); (0, "email"); (1, "emp_id"); (1, "salary")]
    ["text"; "number"; "text"; "text"; "number"; "number"]
    [1] [].

Definition school_policies : gmap string PolicyType :=
  <["Student.email" := Hidden]> (<["Student.id" := Public]>
    (<["Employee.salary" := AggOnly]> ∅)).

(** Only the Hidden column has an entry; every other column is Public by
    absence. *)
Definition email_only_policies : gmap string PolicyType :=
  <["Student.email" := Hidden]> ∅.

Definition email_selected : Violation :=
  mkViolation "Student.email" SelectExpr Hidden 0.
Definition email_in_where : Violation :=
  mkViolation "Student.email" WherePred Hidden 0.
Definition salary_selected : Violation :=
  mkViolation "Employee.salary" SelectExpr AggOnly 0.

(** [SELECT salary, salary FROM Employee], the text that the first AggOnly
    wrap makes of it, and the Spider AST of both: the SELECT items are
    [(agg_id, val_unit)] on column 5, [Employee.salary], with [agg_id] 0 for
    the bare column and 5 for [AVG]. *)
Definition salary_repeated : string := "SELECT salary, salary FROM Employee".
Definition salary_repeated_wrapped : string :=
  "SELECT AVG(salary), AVG(salary) FROM Employee".

Definition salary_item (agg_id : Z) : Z * val_unit :=
  (agg_id, mkValUnit 0 (Some (mkColUnit 0 5 false)) None).

Definition salary_repeated_sql (agg_id : Z) : sql :=
  Sql (false, [salary_item agg_id; salary_item agg_id])
      [TableUnit 1] [] [] None None None.

(** [Product(name, price)] and [Offer(product, price)] with both prices
    AggOnly, and a join that selects the two prices: the text, the text
    after the first AggOnly wrap, and the Spider AST of both ([agg_id] 0 for
    the bare columns, 5 for [AVG]). *)
Definition shop_schema : TableSchema :=
  mkTableSchema "shop" ["Product"; "Offer"]
    [(-1, "*"); (0, "name"); (0, "price"); (1, "product"); (1, "price")]
    ["text"; "text"; "number"; "text"; "number"]
    [] [].

Definition shop_policies : gmap string PolicyType :=
  <["Product.price" := AggOnly]> (<["Offer.price" := AggOnly]> ∅).

Definition product_price_selected : Violation :=
  mkViolation "Product.price" SelectExpr AggOnly 0.
Definition offer_price_selected : Violation :=
  mkViolation "Offer.price" SelectExpr AggOnly 0.

Definition price_join : string :=
  "SELECT T1.price, T2.price FROM Product AS T1 JOIN Offer AS T2 ON T1.name = T2.product".
Definition price_join_wrapped : string :=
  "SELECT AVG(T1.price), AVG(T2.price) FROM Product AS T1 JOIN Offer AS T2 ON T1.name = T2.product".

Definition price_join_sql (agg_id : Z) : sql :=
  Sql (false, [(agg_id, mkValUnit 0 (Some (mkColUnit 0 2 false)) None);
               (agg_id, mkValUnit 0 (Some (mkColUnit 0 4 false)) None)])
      [TableUnit 0; TableUnit 1]
      [Cond false 2 (mkValUnit 0 (Some (mkColUnit 0 1 false)) None)
         (VColUnit (mkColUnit 0 3 false)) VNone]
      [] None None None.

(** [SELECT name FROM Student WHERE c = 1], where [c] is the column unit
    with the index [col_id]. *)
Definition where_query (col_id : Z) : sql :=
  Sql (false, [(0, mkValUnit 0 (Some (mkColUnit 0 2 false)) None)])
      [TableUnit 0] []
      [Cond false 2 (mkValUnit 0 (Some (mkColUnit 0 col_id false)) None)
         (VLit (LNum 1)) VNone]
      None None None.

(** [SELECT COUNT( * ) FROM Student] and [SELECT * FROM Student]. *)
Definition count_star_query : sql :=
  Sql (false, [(3, mkValUnit 0 (Some (mkColUnit 0 0 false)) None)])
      [TableUnit 0] [] [] None None None.

Definition select_star_query : sql :=
  Sql (false, [(0, mkValUnit 0 (Some (mkColUnit 0 0 false)) None)])
      [TableUnit 0] [] [] None None None.

(** Three names beyond ASCII, in UTF-8: [id] with U+0131 for its first
    letter, [x_id] with U+0130 for the [i], [stuid] with U+017F for the [s]. *)
Definition dotless_id : string := str [byte 196; byte 177; "d"%char].
Definition dotted_x_id : string :=
  str [ "x"%char; "_"%char; byte 196; byte 176; "d"%char ].
Definition long_s_stuid : string :=
  str [ byte 197; byte 191; "t"%char; "u"%char; "i"%char; "d"%char ].

(** [Enrollment(student_id, course_code, id PK, email)]: three id-like
    columns, the primary key being the last of them. *)
Definition enrollment_schema : TableSchema :=
  mkTableSchema "college" ["Enrollment"]
    [(-1, "*"); (0, "student_id"); (0, "course_code"); (0, "id"); (0, "email")]
    ["text"; "number"; "text"; "number"; "text"]
    [3] [].

(** Every id-like column has the entry Public. *)
Definition enrollment_policies : gmap string PolicyType :=
  <["Enrollment.email" := Hidden]> (<["Enrollment.student_id" := Public]>
    (<["Enrollment.course_code" := Public]> (<["Enrollment.id" := Public]> ∅))).

(** The same map without the entry of the primary key, which is Public by
    absence. *)
Definition enrollment_policies_without_id : gmap string PolicyType :=
  <["Enrollment.email" := Hidden]> (<["Enrollment.student_id" := Public]>
    (<["Enrollment.course_code" := Public]> ∅)).

(** ** types.py and spider_loader.py: column lookup *)

(** [TableSchema.resolve_column] *)
Definition resolve_column (schema : TableSchema) (col_id : Z) : result string :=
  if col_id =? 0 then Ok "*"
  else
    '(table_idx, col_name) ← py_getitem (column_names schema) col_id;
    if table_idx <? 0 then Ok col_name
    else
      table_name ← py_getitem (table_names schema) table_idx;
      Ok (table_name +:+ "." +:+ col_name).

Definition get_column_by_id (schema : TableSchema) (col_id : Z)
  : result (string * string) :=
  if col_id =? 0 then Ok ("*", "*")
  else
    '(table_idx, col_name) ← py_getitem (column_names schema) col_id;
    if table_idx <? 0 then Ok (EmptyString, col_name)
    else
      table ← py_getitem (table_names schema) table_idx;
      Ok (table, col_name).

(** ** policy_assigner.py *)

(** A pattern that is searched anywhere in the name, and one that has to
    match the whole name, both with [re.I]. *)
Definition contains_pattern (word : string) : regex := Seq [Lit (chars word)].
Definition exact_pattern (word : string) : regex := Seq [Bol; Lit (chars word); Eol].

(** Format: (priority, pattern, policy) *)
Definition POLICY_RULES : list (nat * regex * PolicyType) :=
  [ (* Priority 1: ID columns -> JoinOnly *)
    (1%nat, Seq [Bol; Lit (chars "id"); Eol], JoinOnly);
    (1%nat, Seq [Lit (chars "_id"); Eol], JoinOnly);
    (1%nat, Seq [Bol; Lit (chars "id_")], JoinOnly);
    (1%nat, Seq [Lit (chars "_code"); Eol], JoinOnly);
    (1%nat, Seq [Bol; Lit (chars "stuid"); Eol], JoinOnly);
    (* Priority 2: PII -> Hidden (contains patterns) *)
    (2%nat, contains_pattern "email", Hidden);
    (2%nat, contains_pattern "phone", Hidden);
    (2%nat, contains_pattern "address", Hidden);
    (2%nat, contains_pattern "gender", Hidden);
    (2%nat, contains_pattern "nationality", Hidden);
    (2%nat, contains_pattern "birth", Hidden);
    (2%nat, contains_pattern "ssn", Hidden);
    (2%nat, contains_pattern "password", Hidden);
    (* Priority 2: PII -> Hidden (exact match patterns) *)
    (2%nat, exact_pattern "sex", Hidden);
    (2%nat, exact_pattern "weight", Hidden);
    (2%nat, exact_pattern "height", Hidden);
    (2%nat, exact_pattern "age", Hidden);
    (* Priority 3: Financial/Score -> AggOnly (contains patterns) *)
    (3%nat, contains_pattern "salary", AggOnly);
    (3%nat, contains_pattern "income", AggOnly);
    (3%nat, contains_pattern "price", AggOnly);
    (3%nat, contains_pattern "amount", AggOnly);
    (3%nat, contains_pattern "cost", AggOnly);
    (3%nat, contains_pattern "budget", AggOnly);
    (3%nat, contains_pattern "balance", AggOnly);
    (3%nat, contains_pattern "revenue", AggOnly);
    (3%nat, contains_pattern "profit", AggOnly);
    (3%nat, contains_pattern "score", AggOnly);
    (3%nat, contains_pattern "rating", AggOnly);
    (* Priority 3: Financial/Score -> AggOnly (exact match patterns) *)
    (3%nat, exact_pattern "total", AggOnly) ].

Definition rule_matches (column_name : string) (rule : nat * regex * PolicyType) : bool :=
  bool_decide (is_Some (re_search rule.1.2 (chars column_name))).

Definition assign_policy (column_name : string) : PolicyType :=
  match find (rule_matches column_name) POLICY_RULES with
  | Some (_, _, policy) => policy
  | None => Public
  end.

(** [range(start, stop)] *)
Definition py_range (start stop : Z) : list Z := seqZ start (stop - start).

(** The loop of [assign_policies_for_db] over the remaining column ids,
    with the dictionary built so far. *)
Fixpoint assign_policies_loop (col_ids : list Z) (schema : TableSchema)
    (policies : gmap string PolicyType) : result (gmap string PolicyType) :=
  match col_ids with
  | [] => Ok policies
  | col_id :: col_ids' =>
      '(table_idx, col_name) ← py_getitem (column_names schema) col_id;
      if table_idx <? 0 then assign_policies_loop col_ids' schema policies
      else
        table_name ← py_getitem (table_names schema) table_idx;
        let full_name := table_name +:+ "." +:+ col_name in
        assign_policies_loop col_ids' schema
          (<[full_name := assign_policy col_name]> policies)
  end.

Definition assign_policies_for_db (schema : TableSchema)
  : result (gmap string PolicyType) :=
  (* Skip col_id=0 ( * ) *)
  assign_policies_loop (py_range 1 (Z.of_nat (length (column_names schema))))
    schema ∅.

(** An entry of the overrides file, with the keys that [apply_overrides]
    reads. *)
Record Override := mkOverride {
  ov_db_id : string;
  ov_table : string;
  ov_column : string;
  ov_final_policy : PolicyType;
}.

Fixpoint apply_overrides (policies : gmap string PolicyType)
    (overrides : list Override) (db : string) : gmap string PolicyType :=
  match overrides with
  | [] => policies
  | ov :: overrides' =>
      if String.eqb (ov_db_id ov) db then
        let key := ov_table ov +:+ "." +:+ ov_column ov in
        if bool_decide (is_Some (policies !! key))
        then apply_overrides (<[key := ov_final_policy ov]> policies) overrides' db
        else apply_overrides policies overrides' db
      else apply_overrides policies overrides' db
  end.

(** ** negative_generator.py: the tables of a query *)

Fixpoint _extract_tables (q : sql) (schema : TableSchema) : result (list string) :=
  for_extend (fun tu : table_unit =>
    match tu with
    | TableUnit table_idx =>
        if (0 <=? table_idx) && (table_idx <? Z.of_nat (length (table_names schema)))
        then table ← py_getitem (table_names schema) table_idx; Ok [table]
        else Ok []
    | SqlUnit q' =>
        (* Subquery - recursively extract tables *)
        _extract_tables q' schema
    end) (sql_from_table_units q).

(** ** gold_generator.py and main.py *)

Inductive GoldLabelType := SQL | REFUSE.

Record GoldLabel := mkGoldLabel {
  gl_type : GoldLabelType;
  gl_sql : option string;
}.

Record SpiderExample := mkSpiderExample {
  ex_db_id : string;
  ex_question : string;
  ex_query : string;
  ex_sql : sql;   (* Parsed AST from Spider *)
}.

Definition generate_gold_label (example : SpiderExample)
    (violations : list Violation) (rewrite_result : option RewriteResult)
  : GoldLabel :=
  (* SELECT * check (except COUNT( * ) etc.) *)
  if has_select_star (ex_sql example) then mkGoldLabel REFUSE None
  else
    (* No violations -> original SQL *)
    match violations with
    | [] => mkGoldLabel SQL (Some (ex_query example))
    | _ =>
        match rewrite_result with
        (* Rewrite succeeded -> rewritten SQL *)
        | Some r =>
            if success r then mkGoldLabel SQL (rr_sql r)
            else mkGoldLabel REFUSE None
        (* Rewrite failed or not attempted -> REFUSE *)
        | None => mkGoldLabel REFUSE None
        end
    end.

(** The body of the loop of [process_split] for one example, up to the
    gold label: the violations and the label that go into the record. The
    negative examples and the formatting of the record are left out. *)
Definition process_example (example : SpiderExample)
    (schemas : gmap string TableSchema)
    (all_policies : gmap string (gmap string PolicyType))
  : result (list Violation * GoldLabel) :=
  schema ← match schemas !! ex_db_id example with
           | Some schema => Ok schema
           | None => Raise KeyError
           end;
  let policies := default ∅ (all_policies !! ex_db_id example) in
  (* Extract column references and their roles *)
  refs ← extract_roles (ex_sql example) schema;
  (* Check for violations *)
  violations ← check_violations refs policies;
  (* Attempt rewrite if violations exist *)
  rewrite_result ← match violations with
                   | [] => Ok None
                   | _ => r ← rewrite (ex_query example) violations schema policies;
                          Ok (Some r)
                   end;
  (* Generate gold label *)
  Ok (violations, generate_gold_label example violations rewrite_result).

(** ** Observers for the further properties *)

(** What every extracted reference satisfies: its table name is not empty,
    it names a column that [_resolve_col_id] finds in the schema, and its
    role agrees with its aggregate where the role comes from the SELECT
    clause. *)
Definition ref_well_formed (schema : TableSchema) (ref : ColumnRef) : Prop :=
  ref_table ref ≠ EmptyString
  ∧ (∃ col_id, col_id ≠ 0
       ∧ _resolve_col_id schema col_id = Ok (ref_table ref, ref_column ref))
  ∧ (ref_role ref = SelectExpr → ref_agg_id ref = 0)
  ∧ (ref_role ref = AggArg → ref_agg_id ref ≠ 0).

(** The column ids of all column units of a query, nested queries
    included. *)
Definition col_unit_ids (cu : option col_unit) : list Z :=
  match cu with Some c => [cu_col_id c] | None => [] end.

Definition val_unit_col_ids (vu : val_unit) : list Z :=
  col_unit_ids (col_unit1 vu) ++ col_unit_ids (col_unit2 vu).

Definition val_col_ids {S} (rec : S → list Z) (v : val_ S) : list Z :=
  match v with
  | VColUnit cu => [cu_col_id cu]
  | VSql q => rec q
  | _ => []
  end.

Definition cond_col_ids {S} (rec : S → list Z) (c : cond_item_ S) : list Z :=
  match c with
  | Cond _ _ vu val1 val2 =>
      val_unit_col_ids vu ++ val_col_ids rec val1 ++ val_col_ids rec val2
  | Connector _ => []
  end.

Fixpoint sql_col_ids (q : sql) : list Z :=
  flat_map (fun item : Z * val_unit => val_unit_col_ids item.2) (sql_select q).2
  ++ flat_map (cond_col_ids sql_col_ids) (sql_from_conds q)
  ++ flat_map (cond_col_ids sql_col_ids) (sql_where q)
  ++ flat_map (fun tu : table_unit =>
       match tu with SqlUnit q' => sql_col_ids q' | TableUnit _ => [] end)
       (sql_from_table_units q)
  ++ flat_map (fun op : option sql =>
       match op with Some q' => sql_col_ids q' | None => [] end)
       [sql_intersect q; sql_union q; sql_except q].

(** A column id that Python can use as an index of [schema.column_names],
    from the front or from the end, or that is beyond the end. *)
Definition index_not_below (schema : TableSchema) (col_id : Z) : Prop :=
  - Z.of_nat (length (column_names schema)) ≤ col_id.

(** The violation that the checker reports for a reference. *)
Definition violation_of (policies : gmap string PolicyType) (ref : ColumnRef)
  : Violation :=
  mkViolation (col_key_of ref) (ref_role ref)
    (default Public (policies !! col_key_of ref)) (ref_agg_id ref).

(** A violation that no rewrite rule handles: one of the four refusal
    tests of [rewrite] holds for it. *)
Definition unfixable (v : Violation) : bool :=
  predicate_on_forbidden v || aggonly_bad_aggregate v
  || aggregate_on_forbidden v || joinonly_selected v.

Definition dot : ascii := "."%char.

(** What [assign_policies_for_db] gives for the schema of the scenarios. *)
Definition school_generated_policies : gmap string PolicyType :=
  <["Student.id" := JoinOnly]> (<["Student.name" := Public]>
    (<["Student.email" := Hidden]> (<["Employee.emp_id" := JoinOnly]>
      (<["Employee.salary" := AggOnly]> ∅)))).

(** No table name of the schema contains a dot, so that a key
    [table.column] names one table and one column. *)
Definition table_names_dot_free (schema : TableSchema) : Prop :=
  Forall (λ table, dot ∉ chars table) (table_names schema).

Definition school_example (query : string) (q : sql) : SpiderExample :=
  mkSpiderExample "school" "question" query q.

Definition school_schemas : gmap string TableSchema :=
  <["school" := school_schema]> ∅.

(** The key that an override names. *)
Definition override_key (ov : Override) : string :=
  ov_table ov +:+ "." +:+ ov_column ov.

(** A violation that the rewrite rules R1 and R2 address: a SelectExpr
    violation on a Hidden or AggOnly column. *)
Definition rewritable (v : Violation) : Prop :=
  v_role v = SelectExpr ∧ (v_policy v = Hidden ∨ v_policy v = AggOnly).

(** * Properties *)

(** ** The error monad *)

Lemma bind_Ok {A B} (f : A → result B) (a : A) : (Ok a ≫= f) = f a.
Proof. reflexivity. Qed.

Lemma bind_Raise {A B} (f : A → result B) (e : exn) : (Raise e ≫= f) = Raise e.
Proof. reflexivity. Qed.

Lemma for_extend_app {A B} (body : A → result (list B)) (xs ys : list A) :
  for_extend body (xs ++ ys) =
  (r ← for_extend body xs; rs ← for_extend body ys; Ok (r ++ rs)).
Proof.
  induction xs as [|x xs IH]; cbn.
  - destruct (for_extend body ys); reflexivity.
  - destruct (body x) as [r|e]; cbn; [|reflexivity].
    rewrite IH. destruct (for_extend body xs) as [r'|e]; cbn; [|reflexivity].
    destruct (for_extend body ys) as [r''|e]; cbn; [|reflexivity].
    by rewrite app_assoc.
Qed.

Lemma for_extend_ext {A B} (f g : A → result (list B)) (xs : list A) :
  Forall (λ x, f x = g x) xs → for_extend f xs = for_extend g xs.
Proof.
  induction 1 as [|x xs Hx _ IH]; cbn; [reflexivity|]. by rewrite Hx, IH.
Qed.

(** ** violation_checker.py *)

Lemma allowed_aggs_count_or_avg agg_id :
  bool_decide (agg_id ∈ AGGONLY_ALLOWED_AGGS) = count_or_avg agg_id.
Proof.
  unfold AGGONLY_ALLOWED_AGGS, count_or_avg.
  destruct (Z.eqb_spec agg_id 3) as [->|H3]; [reflexivity|].
  destruct (Z.eqb_spec agg_id 5) as [->|H5]; [reflexivity|].
  apply bool_decide_eq_false. rewrite !elem_of_cons, elem_of_nil. tauto.
Qed.

Lemma is_allowed_eq (policy : PolicyType) (role : RoleType) (agg_id : Z) :
  is_allowed policy role agg_id =
  Ok (match policy, role with
      | AggOnly, AggArg => count_or_avg agg_id
      | _, _ => permission_matrix policy role
      end).
Proof.
  unfold is_allowed.
  destruct policy, role; cbn -[bool_decide AGGONLY_ALLOWED_AGGS]; try reflexivity.
  rewrite allowed_aggs_count_or_avg. destruct (count_or_avg agg_id); reflexivity.
Qed.

(** C5. [is_allowed] is total on the finite enumerations: for every policy,
    role and aggregate id it returns a boolean (never a [KeyError]), and that
    boolean is the entry of the base permission matrix, except that
    (AggOnly, AggArg) is allowed exactly when the aggregate is count (3) or
    avg (5). *)
Theorem is_allowed_total_matrix (policy : PolicyType) (role : RoleType) (agg_id : Z) :
  is_allowed policy role agg_id =
  Ok (match policy, role with
      | AggOnly, AggArg => count_or_avg agg_id
      | _, _ => permission_matrix policy role
      end)
  ∧ permission_matrix Public role = true
  ∧ (permission_matrix JoinOnly role = true ↔ role = JoinCond ∨ role = WherePred)
  ∧ (permission_matrix AggOnly role = true ↔ role = AggArg)
  ∧ permission_matrix Hidden role = false
  ∧ (count_or_avg agg_id = true ↔ agg_id = 3 ∨ agg_id = 5).
Proof.
  split; [apply is_allowed_eq|].
  split; [reflexivity|].
  split; [destruct role; cbn; intuition congruence|].
  split; [destruct role; cbn; intuition congruence|].
  split; [reflexivity|].
  unfold count_or_avg. lia.
Qed.

(** A reference is reported exactly when [is_allowed] denies it, with the
    policy that the map resolves for its key. *)
Lemma check_violations_cons ref refs policies :
  check_violations (ref :: refs) policies =
  (violations ← check_violations refs policies;
   let policy := default Public (policies !! col_key_of ref) in
   Ok (if match policy, ref_role ref with
          | AggOnly, AggArg => count_or_avg (ref_agg_id ref)
          | _, _ => permission_matrix policy (ref_role ref)
          end
       then violations
       else mkViolation (col_key_of ref) (ref_role ref) policy (ref_agg_id ref)
            :: violations)).
Proof.
  cbn [check_violations]. rewrite is_allowed_eq. cbn.
  destruct (check_violations refs policies) as [vs|e]; cbn; [|reflexivity].
  by destruct (default Public _), (ref_role ref); cbn;
    try destruct (count_or_avg _).
Qed.

Lemma check_violations_total refs policies :
  ∃ violations, check_violations refs policies = Ok violations.
Proof.
  induction refs as [|ref refs [vs IH]]; [by eexists|].
  rewrite check_violations_cons, IH. cbn. by eexists.
Qed.

Lemma check_violations_denied refs policies violations :
  check_violations refs policies = Ok violations → Forall denied violations.
Proof.
  revert violations. induction refs as [|ref refs IH]; intros vs.
  - intros [= <-]. constructor.
  - rewrite check_violations_cons.
    destruct (check_violations refs policies) as [vs'|e]; cbn; [|done].
    specialize (IH _ eq_refl).
    destruct (match default Public (policies !! col_key_of ref), ref_role ref with
              | AggOnly, AggArg => count_or_avg (ref_agg_id ref)
              | _, _ => permission_matrix _ (ref_role ref)
              end) eqn:Hallowed; intros [= <-]; [done|].
    constructor; [|done]. unfold denied; cbn.
    by destruct (default Public _), (ref_role ref).
Qed.

(** ** rewriter.py: the tiers of [rewrite] *)

Lemma find_is_Some {A} (f : A → bool) (l : list A) (x : A) :
  x ∈ l → f x = true → is_Some (find f l).
Proof.
  intros Hin Hf. destruct (find f l) eqn:Hfind; [by eexists|].
  apply list_elem_of_In in Hin.
  pose proof (find_none f l Hfind x Hin). congruence.
Qed.

(** [rewrite] returns at the statement that [rewrite_exit_of] names. *)
Lemma rewrite_by_exit query violations schema policies :
  match rewrite_exit_of violations with
  | ExitNoViolations | ExitNothingToRewrite =>
      rewrite query violations schema policies = Ok (Success query)
  | ExitPredicate | ExitBadAggregate | ExitAggregate | ExitJoinOnly =>
      ∃ why, rewrite query violations schema policies = Ok (Refused why)
  | ExitPasses =>
      rewrite query violations schema policies =
      rewrite_passes 2 query (filter (λ v, v_role v = SelectExpr) violations)
        schema policies
  end.
Proof.
  unfold rewrite_exit_of, rewrite.
  destruct violations as [|v0 vs]; [reflexivity|].
  repeat (match goal with
          | |- context [find ?f ?l] => destruct (find f l); [by eexists|]
          end).
  by destruct (filter _ _).
Qed.

Lemma exit_no_violations violations :
  rewrite_exit_of violations = ExitNoViolations → violations = [].
Proof.
  unfold rewrite_exit_of. destruct violations as [|v vs]; [done|].
  repeat (match goal with
          | |- context [find ?f ?l] => destruct (find f l); [done|]
          end).
  by destruct (filter _ _).
Qed.

Lemma exit_passes violations :
  rewrite_exit_of violations = ExitPasses →
  filter (λ v, v_role v = SelectExpr) violations ≠ [].
Proof.
  unfold rewrite_exit_of. destruct violations as [|v vs]; [done|].
  repeat (match goal with
          | |- context [find ?f ?l] => destruct (find f l); [done|]
          end).
  by destruct (filter _ _).
Qed.

(** C6. With an empty violation list [rewrite] returns [Success] with the
    input text, unchanged. *)
Theorem rewrite_no_violations (query : string) (schema : TableSchema)
    (policies : gmap string PolicyType) :
  rewrite query [] schema policies = Ok (Success query)
  ∧ rr_sql (Success query) = Some query.
Proof. split; reflexivity. Qed.

(** C3. If the violation list holds a violation with role WherePred or
    JoinCond and policy Hidden or AggOnly, [rewrite] returns [Refused],
    whatever the other violations, the query text, the schema and the policy
    map are. *)
Theorem rewrite_refuses_forbidden_predicate (query : string)
    (violations : list Violation) (schema : TableSchema)
    (policies : gmap string PolicyType) (v : Violation) :
  v ∈ violations →
  v_role v = WherePred ∨ v_role v = JoinCond →
  v_policy v = Hidden ∨ v_policy v = AggOnly →
  ∃ why, rewrite query violations schema policies = Ok (Refused why)
         ∧ success (Refused why) = false.
Proof.
  intros Hin Hrole Hpolicy.
  assert (Hv : predicate_on_forbidden v = true).
  { unfold predicate_on_forbidden, role_in, policy_in.
    apply andb_true_iff; split; apply bool_decide_eq_true;
      rewrite !elem_of_cons; tauto. }
  destruct (find_is_Some _ _ _ Hin Hv) as [w Hw].
  unfold rewrite. rewrite Hw.
  destruct violations; [by apply elem_of_nil in Hin|].
  by eexists.
Qed.

(** C4. When [rewrite] reaches its loop, it calls [_apply_rewrite_step] at
    most twice, each time on what the previous pass left unresolved: if a
    pass leaves nothing, the result is [Success] with the text as mutated so
    far; if the second pass still leaves something, the result is [Refused]
    with the reason "Rewrite limit exceeded". *)
Theorem rewrite_at_most_two_passes (query : string) (violations : list Violation)
    (schema : TableSchema) (policies : gmap string PolicyType) :
  rewrite_exit_of violations = ExitPasses →
  let select_violations := filter (λ v, v_role v = SelectExpr) violations in
  (passes_performed 2 query select_violations schema policies ≤ 2)%nat ∧
  match _apply_rewrite_step query select_violations schema policies with
  | Raise e => rewrite query violations schema policies = Raise e
  | Ok (query1, []) =>
      rewrite query violations schema policies = Ok (Success query1)
  | Ok (query1, (_ :: _) as remaining1) =>
      match _apply_rewrite_step query1 remaining1 schema policies with
      | Raise e => rewrite query violations schema policies = Raise e
      | Ok (query2, []) =>
          rewrite query violations schema policies = Ok (Success query2)
      | Ok (_, _ :: _) =>
          rewrite query violations schema policies =
          Ok (Refused "Rewrite limit exceeded")
      end
  end.
Proof.
  intros Hexit select_violations.
  pose proof (rewrite_by_exit query violations schema policies) as Hrw.
  rewrite Hexit in Hrw. fold select_violations in Hrw. rewrite Hrw. clear Hrw.
  split.
  - cbn [passes_performed].
    destruct (_apply_rewrite_step query select_violations schema policies)
      as [[query1 [|v1 remaining1]]|e]; [lia| |lia].
    destruct (_apply_rewrite_step query1 (v1 :: remaining1) schema policies)
      as [[query2 [|v2 remaining2]]|e]; lia.
  - cbn [rewrite_passes].
    destruct (_apply_rewrite_step query select_violations schema policies)
      as [[query1 [|v1 remaining1]]|e]; cbn -[_apply_rewrite_step];
      [reflexivity| |reflexivity].
    destruct (_apply_rewrite_step query1 (v1 :: remaining1) schema policies)
      as [[query2 [|v2 remaining2]]|e]; cbn -[_apply_rewrite_step]; reflexivity.
Qed.

Lemma rewrite_at_most_two_passes_witness :
  rewrite "SELECT email FROM Student" [email_selected] school_schema
    email_only_policies = Ok (Refused "Rewrite limit exceeded").
Proof.
  pose proof (rewrite_at_most_two_passes "SELECT email FROM Student"
                [email_selected] school_schema email_only_policies eq_refl)
    as [_ H].
  vm_compute in H. vm_compute. exact H.
Defined.

Lemma rewrite_refuses_forbidden_predicate_witness :
  ∃ why, rewrite "SELECT name FROM Student WHERE email = 'x'"
           [email_selected; email_in_where] school_schema school_policies
         = Ok (Refused why)
         ∧ success (Refused why) = false.
Proof.
  apply (rewrite_refuses_forbidden_predicate _ _ _ _ email_in_where).
  - apply list_elem_of_further, list_elem_of_here.
  - left; reflexivity.
  - left; reflexivity.
Defined.

(** C10. [check_violations] always returns a list; every violation in it
    with role WherePred or JoinCond has policy Hidden or AggOnly, and every
    one with role AggArg has policy Hidden or JoinOnly, or policy AggOnly
    with an aggregate other than count (3) and avg (5). Hence [rewrite] never
    leaves such a list through its success "without SelectExpr violations"
    (line 54): a non-empty list of the checker that has no SelectExpr
    violation is refused. *)
Theorem checker_output_never_unhandled (refs : list ColumnRef)
    (policies : gmap string PolicyType) :
  ∃ violations,
    check_violations refs policies = Ok violations
    ∧ (∀ v, v ∈ violations →
         (v_role v = WherePred ∨ v_role v = JoinCond →
          v_policy v = Hidden ∨ v_policy v = AggOnly)
         ∧ (v_role v = AggArg →
            v_policy v = Hidden ∨ v_policy v = JoinOnly
            ∨ (v_policy v = AggOnly ∧ v_agg_id v ≠ 3 ∧ v_agg_id v ≠ 5)))
    ∧ rewrite_exit_of violations ≠ ExitNothingToRewrite
    ∧ (∀ query schema,
         violations ≠ [] →
         filter (λ v, v_role v = SelectExpr) violations = [] →
         ∃ why, rewrite query violations schema policies = Ok (Refused why)).
Proof.
  destruct (check_violations_total refs policies) as [violations Hcheck].
  exists violations. split; [done|].
  cut ((∀ v, v ∈ violations →
         (v_role v = WherePred ∨ v_role v = JoinCond →
          v_policy v = Hidden ∨ v_policy v = AggOnly)
         ∧ (v_role v = AggArg →
            v_policy v = Hidden ∨ v_policy v = JoinOnly
            ∨ (v_policy v = AggOnly ∧ v_agg_id v ≠ 3 ∧ v_agg_id v ≠ 5)))
       ∧ rewrite_exit_of violations ≠ ExitNothingToRewrite).
  { intros [Hshape Hexit]. split; [done|]. split; [done|].
    intros query schema Hne Hnosel.
    pose proof (rewrite_by_exit query violations schema policies) as Hrw.
    destruct (rewrite_exit_of violations) eqn:Hcase; try done.
    - by apply exit_no_violations in Hcase.
    - by apply exit_passes in Hcase. }
  pose proof (check_violations_denied _ _ _ Hcheck) as Hdenied.
  rewrite Forall_forall in Hdenied.
  assert (Hshape : ∀ v, v ∈ violations →
     (v_role v = WherePred ∨ v_role v = JoinCond →
      v_policy v = Hidden ∨ v_policy v = AggOnly)
     ∧ (v_role v = AggArg →
        v_policy v = Hidden ∨ v_policy v = JoinOnly
        ∨ (v_policy v = AggOnly ∧ v_agg_id v ≠ 3 ∧ v_agg_id v ≠ 5))).
  { intros v Hv. specialize (Hdenied v Hv). unfold denied, count_or_avg in Hdenied.
    destruct (v_policy v), (v_role v); cbn in Hdenied;
      (split; intros Hrole; try discriminate; try (destruct Hrole; discriminate);
       auto).
    right; right. split; [done|]. lia. }
  split; [exact Hshape|].
  unfold rewrite_exit_of.
  destruct violations as [|v vs] eqn:Hvs; [done|]. rewrite <- Hvs in *.
  assert (Hv : v ∈ violations) by (rewrite Hvs; apply list_elem_of_here).
  destruct (find predicate_on_forbidden violations) eqn:H1; [done|].
  destruct (find aggonly_bad_aggregate violations) eqn:H2; [done|].
  destruct (find aggregate_on_forbidden violations) eqn:H3; [done|].
  destruct (find joinonly_selected violations) eqn:H4; [done|].
  destruct (filter _ violations) eqn:Hfilter; [|done].
  exfalso.
  assert (Hin : In v violations) by (by apply list_elem_of_In).
  pose proof (find_none _ _ H1 v Hin) as N1.
  pose proof (find_none _ _ H2 v Hin) as N2.
  pose proof (find_none _ _ H3 v Hin) as N3.
  destruct (Hshape v Hv) as [Spred Sagg].
  unfold predicate_on_forbidden, aggonly_bad_aggregate, aggregate_on_forbidden,
    role_in, policy_in in N1, N2, N3.
  destruct (v_role v) eqn:Hrole.
  - assert (Hsel : v ∈ filter (λ v, v_role v = SelectExpr) violations)
      by (by apply list_elem_of_filter).
    rewrite Hfilter in Hsel. by apply elem_of_nil in Hsel.
  - destruct (Spred (or_intror eq_refl)) as [Hp|Hp]; rewrite Hp in N1; done.
  - destruct (Spred (or_introl eq_refl)) as [Hp|Hp]; rewrite Hp in N1; done.
  - destruct (Sagg eq_refl) as [Hp|[Hp|(Hp & A3 & A5)]].
    + rewrite Hp in N3; done.
    + rewrite Hp in N3; done.
    + assert (Hagg : bool_decide (v_agg_id v ∈ [3; 5]) = false).
      { apply bool_decide_eq_false. rewrite !elem_of_cons, elem_of_nil. tauto. }
      rewrite Hp, Hagg in N2. done.
Qed.

(** ** rewriter.py: the AggOnly step *)

Lemma wrap_with_avg_already_aggregated query col_name :
  already_aggregated query col_name = true → _wrap_with_avg query col_name = query.
Proof.
  unfold already_aggregated, _wrap_with_avg.
  destruct (re_search select_pattern (chars query)) as [select_match|]; [|done].
  by intros ->.
Qed.

Lemma apply_rewrite_step_cons_unchanged query v violations schema policies :
  v_policy v = AggOnly →
  _wrap_with_avg query (split_last (v_column v)) = query →
  _apply_rewrite_step query (v :: violations) schema policies =
  ('(query', remaining) ← _apply_rewrite_step query violations schema policies;
   Ok (query', v :: remaining)).
Proof.
  intros Hpolicy Hwrap. cbn [_apply_rewrite_step].
  rewrite Hpolicy, Hwrap, String.eqb_refl. cbn.
  by destruct (_apply_rewrite_step query violations schema policies) as [[??]|].
Qed.

(** The two returns of [_wrap_with_avg] that leave the text as it is,
    "Already aggregated" and "No replacement made", give the same value, and
    [_apply_rewrite_step] keeps the violation after either. *)
Lemma apply_rewrite_step_already_aggregated query v violations schema policies :
  v_policy v = AggOnly →
  already_aggregated query (split_last (v_column v)) = true →
  _apply_rewrite_step query (v :: violations) schema policies =
  ('(query', remaining) ← _apply_rewrite_step query violations schema policies;
   Ok (query', v :: remaining)).
Proof.
  intros Hpolicy Hagg. apply apply_rewrite_step_cons_unchanged; [done|].
  by apply wrap_with_avg_already_aggregated.
Qed.

(** C1, at the failing input. For [SELECT salary, salary FROM Employee] the
    checker reports the SelectExpr violation on the AggOnly column
    [Employee.salary] twice. The wrap for the first violation rewrites both
    occurrences, and the text it gives, [SELECT AVG(salary), AVG(salary) FROM
    Employee], has no violation. The second violation then finds its column
    inside an aggregate call of the SELECT clause; it is not dropped but kept
    in the remaining set, in the second pass as well, and [rewrite] refuses
    with "Rewrite limit exceeded". With the violation reported once the same
    text is returned as a success. *)
Theorem rewrite_refuses_text_made_compliant :
  (refs ← extract_roles (salary_repeated_sql 0) school_schema;
   check_violations refs school_policies)
  = Ok [salary_selected; salary_selected]
  ∧ _apply_rewrite_step salary_repeated [salary_selected; salary_selected]
      school_schema school_policies
    = Ok (salary_repeated_wrapped, [salary_selected])
  ∧ (refs ← extract_roles (salary_repeated_sql 5) school_schema;
     check_violations refs school_policies) = Ok []
  ∧ already_aggregated salary_repeated_wrapped
      (split_last (v_column salary_selected)) = true
  ∧ _apply_rewrite_step salary_repeated_wrapped [salary_selected]
      school_schema school_policies
    = Ok (salary_repeated_wrapped, [salary_selected])
  ∧ rewrite salary_repeated [salary_selected; salary_selected]
      school_schema school_policies
    = Ok (Refused "Rewrite limit exceeded")
  ∧ rewrite salary_repeated [salary_selected] school_schema school_policies
    = Ok (Success salary_repeated_wrapped).
Proof. repeat split; vm_compute; reflexivity. Qed.

(** The same with two different violations, on two columns of a join that
    have the same name: the wrap for [Product.price] also wraps [T2.price],
    the violation on [Offer.price] is kept, and the query is refused
    although the text of the first pass has no violation. *)
Lemma rewrite_refuses_join_made_compliant :
  (refs ← extract_roles (price_join_sql 0) shop_schema;
   check_violations refs shop_policies)
  = Ok [product_price_selected; offer_price_selected]
  ∧ _apply_rewrite_step price_join [product_price_selected; offer_price_selected]
      shop_schema shop_policies
    = Ok (price_join_wrapped, [offer_price_selected])
  ∧ (refs ← extract_roles (price_join_sql 5) shop_schema;
     check_violations refs shop_policies) = Ok []
  ∧ rewrite price_join [product_price_selected; offer_price_selected]
      shop_schema shop_policies
    = Ok (Refused "Rewrite limit exceeded").
Proof. repeat split; vm_compute; reflexivity. Qed.

(** ** rewriter.py: the replacement string *)

Lemma tokenize_plain (cs : list ascii) :
  backslash ∉ cs → tokenize cs = map Tok cs.
Proof.
  induction cs as [|c cs IH]; [done|].
  rewrite not_elem_of_cons. intros [Hc Hcs]. cbn [tokenize map].
  rewrite bool_decide_eq_false_2 by done. by rewrite IH.
Qed.

Lemma parse_template_plain (cs : list ascii) :
  parse_template Normal (map Tok cs) = Ok (map (λ c, Literal [c]) cs).
Proof.
  induction cs as [|c cs IH]; [done|].
  cbn [map parse_template]. rewrite IH.
  by destruct cs.
Qed.

Lemma expand_template_plain (s cs : list ascii) (m : re_match) :
  expand_template s (map (λ c, Literal [c]) cs) m = cs.
Proof.
  unfold expand_template. induction cs as [|c cs IH]; [done|].
  cbn [map concat app]. by rewrite IH.
Qed.

Lemma sub_loop_ext r repl1 repl2 s fuel pos must_advance :
  (∀ m, repl1 m = repl2 m) →
  sub_loop r repl1 s fuel pos must_advance = sub_loop r repl2 s fuel pos must_advance.
Proof.
  intros Hrepl. revert pos must_advance.
  induction fuel as [|fuel IH]; intros pos must_advance; [done|].
  cbn [sub_loop]. destruct (search_from r s _ pos must_advance) as [m|]; [|done].
  by rewrite Hrepl, IH.
Qed.

(** A new name without a backslash stands for itself: [_replace_column]
    does not raise and puts the name in the place of every match. *)
Lemma replace_column_plain_name query old_col new_col :
  backslash ∉ chars (split_last new_col) →
  _replace_column query old_col new_col =
  Ok (str (re_sub (replace_pattern (split_last old_col))
             (λ _, chars (split_last new_col)) (chars query))).
Proof.
  intros Hplain. unfold _replace_column.
  rewrite (tokenize_plain _ Hplain), parse_template_plain.
  cbn [mbind result_bind]. do 2 f_equal. unfold re_sub.
  apply sub_loop_ext. intros m. apply expand_template_plain.
Qed.

(** ** The default policy *)

(** In the checker a key without an entry is Public: a reference to it is
    never reported. *)
Lemma check_violations_absent_key ref refs policies :
  policies !! col_key_of ref = None →
  check_violations (ref :: refs) policies = check_violations refs policies.
Proof.
  intros Habsent. rewrite check_violations_cons, Habsent. cbn.
  by destruct (check_violations refs policies).
Qed.

(** C2, at the failing input. With the policy map [{Student.email: Hidden}]
    the checker treats [Student.id] as Public (a reference to it is no
    violation), but the replacement search for [Student.email] does not
    accept it: [_find_id_column] returns [None], and the query is refused.
    With the explicit entry [Student.id: Public] the same search returns
    [Student.id]. *)
Theorem find_id_column_ignores_absent_policy :
  email_only_policies !! "Student.id" = None
  ∧ check_violations [mkColumnRef "Student" "id" SelectExpr 0] email_only_policies
    = Ok []
  ∧ _find_id_column "Student.email" school_schema email_only_policies = Ok None
  ∧ _find_id_column "Student.email" school_schema school_policies
    = Ok (Some "Student.id")
  ∧ rewrite "SELECT email FROM Student" [email_selected] school_schema
      email_only_policies = Ok (Refused "Rewrite limit exceeded")
  ∧ rewrite "SELECT email FROM Student" [email_selected] school_schema
      school_policies = Ok (Success "SELECT id FROM Student").
Proof. repeat split; vm_compute; reflexivity. Qed.

(** ** role_extractor.py: column indices that do not resolve *)

Lemma resolve_col_id_too_large schema col_id :
  Z.of_nat (length (column_names schema)) ≤ col_id →
  _resolve_col_id schema col_id = Ok (EmptyString, if col_id =? 0 then "*" else EmptyString).
Proof.
  intros Hlen. unfold _resolve_col_id.
  destruct (col_id =? 0); [reflexivity|].
  destruct (Z.geb_spec col_id (Z.of_nat (length (column_names schema)))); [done|lia].
Qed.

Lemma resolve_col_id_no_table schema col_id table_idx col_name :
  0 < col_id →
  column_names schema !! Z.to_nat col_id = Some (table_idx, col_name) →
  table_idx < 0 →
  _resolve_col_id schema col_id = Ok (EmptyString, col_name).
Proof.
  intros Hpos Hcol Hneg. unfold _resolve_col_id, py_getitem.
  apply lookup_lt_Some in Hcol as Hlt.
  destruct (Z.eqb_spec col_id 0); [lia|].
  destruct (Z.geb_spec col_id (Z.of_nat (length (column_names schema)))); [lia|].
  destruct (Z.ltb_spec col_id 0); [lia|].
  destruct (Z.ltb_spec col_id 0); [lia|].
  destruct (Z.leb_spec (Z.of_nat (length (column_names schema))) col_id); [lia|].
  cbn. rewrite Hcol. cbn.
  destruct (Z.ltb_spec table_idx 0); [done|lia].
Qed.

(** C9, at the failing input. The schema has six column entries. The index
    6 is beyond the end and is dropped, but the negative index -7 makes
    [schema.column_names[col_id]] raise [IndexError], and the negative index
    -1 is resolved from the end of the list to [Employee.salary], for which
    a reference is produced. *)
Theorem resolve_col_id_negative_index :
  length (column_names school_schema) = 6%nat
  ∧ extract_roles (where_query 6) school_schema
    = Ok [mkColumnRef "Student" "name" SelectExpr 0]
  ∧ _resolve_col_id school_schema (-7) = Raise IndexError
  ∧ extract_roles (where_query (-7)) school_schema = Raise IndexError
  ∧ _resolve_col_id school_schema (-1) = Ok ("Employee", "salary")
  ∧ extract_roles (where_query (-1)) school_schema
    = Ok [mkColumnRef "Student" "name" SelectExpr 0;
          mkColumnRef "Employee" "salary" WherePred 0].
Proof. repeat split; vm_compute; reflexivity. Qed.

(** ** role_extractor.py: the wildcard *)

(** Induction on queries, with the hypothesis for every nested query. *)
Lemma sql_ind (P : sql → Prop) :
  (∀ select table_units from_conds where_ intersect union except,
     Forall (on_table_unit P) table_units →
     Forall (on_cond P) from_conds →
     Forall (on_cond P) where_ →
     on_branch P intersect → on_branch P union → on_branch P except →
     P (Sql select table_units from_conds where_ intersect union except)) →
  ∀ q, P q.
Proof.
  intros step. fix IH 1.
  assert (Hval : ∀ v, on_val P v) by (intros [| | |q']; cbn; auto).
  assert (Hconds : ∀ conds, Forall (on_cond P) conds).
  { intros conds. induction conds as [|[c|n o vu v1 v2] conds IHc];
      constructor; cbn; auto. }
  intros [sel table_units from_conds where_ intersect union except].
  apply step; try apply Hconds.
  - induction table_units as [|[idx|q'] tus IHt]; constructor; cbn; auto.
  - destruct intersect; cbn; auto.
  - destruct union; cbn; auto.
  - destruct except; cbn; auto.
Qed.

Lemma for_extend_map {A A' B} (body : A' → result (list B)) (f : A → A') xs :
  for_extend body (map f xs) = for_extend (λ x, body (f x)) xs.
Proof. induction xs as [|x xs IH]; cbn; [reflexivity|]. by rewrite IH. Qed.

Lemma extract_from_val_unit_without_star vu schema outer_agg_id :
  _extract_from_val_unit (without_star_vu vu) schema outer_agg_id
  = _extract_from_val_unit vu schema outer_agg_id.
Proof.
  unfold _extract_from_val_unit, without_star_vu, without_star_cu, is_star.
  destruct vu as [op [[a1 c1 d1]|] [[a2 c2 d2]|]]; cbn;
    repeat (match goal with
            | |- context [?c =? 0] => destruct (c =? 0) eqn:?; cbn
            end); try reflexivity; congruence.
Qed.

Lemma extract_cols_from_val_unit_without_star vu schema role :
  _extract_cols_from_val_unit (without_star_vu vu) schema role
  = _extract_cols_from_val_unit vu schema role.
Proof.
  unfold _extract_cols_from_val_unit, without_star_vu, without_star_cu, is_star.
  destruct vu as [op [[a1 c1 d1]|] [[a2 c2 d2]|]]; cbn;
    repeat (match goal with
            | |- context [?c =? 0] => destruct (c =? 0) eqn:?; cbn
            end); try reflexivity; congruence.
Qed.

Lemma extract_from_select_without_star (sel : bool * list (Z * val_unit)) schema :
  _extract_from_select
    (sel.1, map (λ item : Z * val_unit, (item.1, without_star_vu item.2)) sel.2)
    schema
  = _extract_from_select sel schema.
Proof.
  destruct sel as [distinct items]. unfold _extract_from_select. cbn [fst snd].
  rewrite for_extend_map. apply for_extend_ext, Forall_forall.
  intros [agg_id vu] _. apply extract_from_val_unit_without_star.
Qed.

Lemma cond_value_refs_without_star schema role (v : val) :
  on_val (λ q, ∀ schema,
            extract_roles (without_star q) schema = extract_roles q schema) v →
  cond_value_refs extract_roles schema role (without_star_val without_star v)
  = cond_value_refs extract_roles schema role v.
Proof.
  destruct v as [|l|[a c d]|q]; cbn [without_star_val on_val]; try reflexivity.
  - intros _. unfold is_star; cbn. destruct (c =? 0) eqn:Hc; cbn; [reflexivity|].
    by rewrite Hc.
  - intros Hq. apply Hq.
Qed.

Lemma extract_from_conds_without_star conds schema role :
  Forall (on_cond (λ q, ∀ schema,
            extract_roles (without_star q) schema = extract_roles q schema)) conds →
  _extract_from_conds extract_roles (map (without_star_cond without_star) conds)
    schema role
  = _extract_from_conds extract_roles conds schema role.
Proof.
  intros Hconds. unfold _extract_from_conds. rewrite for_extend_map.
  apply for_extend_ext. eapply Forall_impl; [exact Hconds|].
  intros [c|not_op op_id vu val1 val2]; cbn [on_cond without_star_cond];
    [reflexivity|].
  intros [H1 H2]. rewrite extract_cols_from_val_unit_without_star.
  cbn [for_extend].
  by rewrite (cond_value_refs_without_star _ _ _ H1),
    (cond_value_refs_without_star _ _ _ H2).
Qed.

Lemma extract_roles_without_star q :
  ∀ schema, extract_roles (without_star q) schema = extract_roles q schema.
Proof.
  induction q as [sel tus fc wh i u e Htus Hfc Hwh Hi Hu He] using sql_ind.
  intros schema.
  cbn [extract_roles without_star sql_select sql_from_table_units sql_from_conds
       sql_where sql_intersect sql_union sql_except].
  rewrite extract_from_select_without_star.
  assert (Hconds : ∀ conds role,
    Forall (on_cond (λ q, ∀ schema,
              extract_roles (without_star q) schema = extract_roles q schema))
      conds →
    match map (without_star_cond without_star) conds with
    | [] => Ok []
    | c :: l => _extract_from_conds extract_roles (c :: l) schema role
    end = match conds with
          | [] => Ok []
          | c :: l => _extract_from_conds extract_roles (c :: l) schema role
          end).
  { intros [|c l] role Hall; [reflexivity|].
    by rewrite <- (extract_from_conds_without_star (c :: l)). }
  pose proof (Hconds fc JoinCond Hfc) as Hjoin.
  pose proof (Hconds wh WherePred Hwh) as Hwhere.
  rewrite Hjoin, Hwhere. clear Hconds Hjoin Hwhere.
  rewrite for_extend_map.
  rewrite (for_extend_ext
             (λ x : table_unit,
                match match x with
                      | SqlUnit q' => SqlUnit (without_star q')
                      | TableUnit idx => TableUnit idx
                      end with
                | SqlUnit q' => extract_roles q' schema
                | TableUnit _ => Ok []
                end)
             (λ tu : table_unit,
                match tu with
                | SqlUnit q' => extract_roles q' schema
                | TableUnit _ => Ok []
                end) tus).
  2: { eapply Forall_impl; [exact Htus|]. intros [idx|q'] Hq; cbn in *; auto. }
  destruct i as [qi|], u as [qu|], e as [qe|]; cbn [on_branch] in *;
    cbn [for_extend]; rewrite ?Hi, ?Hu, ?He; reflexivity.
Qed.

Lemma is_select_star_item_spec item :
  is_select_star_item item = true ↔ star_item item.
Proof.
  destruct item as [agg_id [op [[inner c d]|] cu2]];
    unfold is_select_star_item, star_item; cbn.
  - rewrite !andb_true_iff, !Z.eqb_eq. split.
    + intros [[-> ->] ->]. split; [done|]. by eexists (mkColUnit 0 0 d).
    + intros [-> (cu & [= <-] & Ha & Hc)]. cbn in *. by subst.
  - split; [done|]. by intros [_ (cu & ? & _)].
Qed.

Lemma has_select_star_unfold q :
  has_select_star q =
  existsb is_select_star_item (sql_select q).2
  || existsb (λ tu : table_unit,
        match tu with
        | SqlUnit q' => has_select_star q'
        | TableUnit _ => false
        end) (sql_from_table_units q)
  || existsb (λ op : option sql,
        match op with
        | Some q' => has_select_star q'
        | None => false
        end) [sql_intersect q; sql_union q; sql_except q].
Proof.
  destruct q as [sel tus fc wh i u e].
  cbn [has_select_star sql_select sql_from_table_units sql_intersect sql_union
       sql_except].
  destruct (existsb is_select_star_item sel.2); [reflexivity|].
  destruct (existsb _ tus); [reflexivity|].
  by destruct (existsb _ [i; u; e]).
Qed.

Lemma has_select_star_child q q' :
  detector_child q q' → has_select_star q' = true → has_select_star q = true.
Proof.
  intros Hchild Hstar. rewrite has_select_star_unfold.
  destruct Hchild as [q' Hfrom|q' Hop|q' Hop|q' Hop].
  - apply orb_true_iff; left. apply orb_true_iff; right.
    apply existsb_exists. exists (SqlUnit q').
    split; [by apply list_elem_of_In|done].
  - apply orb_true_iff; right. cbn. by rewrite Hop, Hstar.
  - apply orb_true_iff; right. cbn. rewrite Hop, Hstar. apply orb_true_iff.
    right. reflexivity.
  - apply orb_true_iff; right. cbn. rewrite Hop, Hstar.
    by rewrite !orb_true_r.
Qed.

Lemma has_select_star_reaches q :
  has_select_star q = true ↔
  ∃ q', rtc detector_child q q'
        ∧ ∃ item, item ∈ (sql_select q').2 ∧ star_item item.
Proof.
  split.
  - induction q as [sel tus fc wh i u e Htus _ _ Hi Hu He] using sql_ind.
    rewrite has_select_star_unfold.
    cbn [sql_select sql_from_table_units sql_intersect sql_union sql_except].
    rewrite !orb_true_iff. intros [[Hsel|Hfrom]|Hops].
    + apply existsb_exists in Hsel as (item & Hin & Hitem).
      exists (Sql sel tus fc wh i u e). split; [apply rtc_refl|].
      exists item. split; [by apply list_elem_of_In|].
      by apply is_select_star_item_spec.
    + apply existsb_exists in Hfrom as ([idx|q1] & Hin & Hstar); [done|].
      apply list_elem_of_In in Hin.
      rewrite Forall_forall in Htus.
      destruct (Htus _ Hin Hstar) as (q' & Hreach & Hitem).
      exists q'. split; [|done].
      eapply rtc_l; [|exact Hreach]. by apply child_from.
    + cbn in Hops. rewrite !orb_true_iff in Hops.
      destruct Hops as [Hop|[Hop|[Hop|Hop]]]; [| | |done].
      * destruct i as [q1|]; [|done].
        destruct (Hi Hop) as (q' & Hreach & Hitem). exists q'. split; [|done].
        eapply rtc_l; [|exact Hreach]. by apply child_intersect.
      * destruct u as [q1|]; [|done].
        destruct (Hu Hop) as (q' & Hreach & Hitem). exists q'. split; [|done].
        eapply rtc_l; [|exact Hreach]. by apply child_union.
      * destruct e as [q1|]; [|done].
        destruct (He Hop) as (q' & Hreach & Hitem). exists q'. split; [|done].
        eapply rtc_l; [|exact Hreach]. by apply child_except.
  - intros (q' & Hreach & item & Hin & Hitem).
    induction Hreach as [q|q q1 q' Hchild _ IH].
    + rewrite has_select_star_unfold. apply orb_true_iff; left.
      apply orb_true_iff; left. apply existsb_exists. exists item.
      split; [by apply list_elem_of_In|by apply is_select_star_item_spec].
    + eapply has_select_star_child; [exact Hchild|]. by apply IH.
Qed.

(** C8. A column unit with the wildcard index 0 contributes nothing to the
    extracted stream: the query without its wildcard units has the same
    references, hence the same violations. The wildcard detector answers
    true exactly when the query, or a query reached from it through
    FROM-clause subqueries and INTERSECT/UNION/EXCEPT branches, has a SELECT
    item with outer aggregate 0 whose first column unit has aggregate 0 and
    the wildcard index; for [SELECT COUNT( * )] it answers false, for
    [SELECT *] true. *)
Theorem wildcard_excluded_and_detected (q : sql) (schema : TableSchema)
    (policies : gmap string PolicyType) :
  extract_roles (without_star q) schema = extract_roles q schema
  ∧ (refs ← extract_roles (without_star q) schema; check_violations refs policies)
    = (refs ← extract_roles q schema; check_violations refs policies)
  ∧ (has_select_star q = true ↔
     ∃ q', rtc detector_child q q'
           ∧ ∃ item, item ∈ (sql_select q').2 ∧ star_item item)
  ∧ extract_roles count_star_query schema = Ok []
  ∧ has_select_star count_star_query = false
  ∧ has_select_star select_star_query = true.
Proof.
  split; [apply extract_roles_without_star|].
  split; [by rewrite extract_roles_without_star|].
  split; [apply has_select_star_reaches|].
  repeat split; reflexivity.
Qed.

(** ** The matcher on literals and anchors, on ASCII text *)

Lemma ascii_chars_lookup (s : list ascii) (i : nat) (t : ascii) :
  ascii_chars s = true → s !! i = Some t → (nat_of_ascii t < 128)%nat.
Proof.
  unfold ascii_chars. rewrite forallb_forall. intros Hs Hi.
  apply Nat.ltb_lt, Hs, list_elem_of_In. by eapply list_elem_of_lookup_2.
Qed.

(** A character beyond ASCII is not found in ASCII text. *)
Lemma rmatch_Bytes_beyond_ascii {R} (s : list ascii) (b : ascii) (bs : list ascii)
    (i : nat) (caps : captures) (k : nat → captures → option R) :
  ascii_chars s = true → (128 ≤ nat_of_ascii b)%nat →
  rmatch s (Bytes (b :: bs)) i caps k = None.
Proof.
  intros Hs Hb. cbn [Bytes foldr rmatch].
  destruct (s !! i) as [t|] eqn:Hi; [|done].
  unfold is_char. rewrite bool_decide_eq_false_2; [done|].
  intros ->. pose proof (ascii_chars_lookup _ _ _ Hs Hi). lia.
Qed.

Lemma rmatch_LitChar {R} (s : list ascii) (c : ascii) (i : nat) (caps : captures)
    (k : nat → captures → option R) :
  ascii_chars s = true →
  rmatch s (LitChar c) i caps k = rmatch s (Chars (char_ci c)) i caps k.
Proof.
  intros Hs. unfold LitChar, folds_beyond_ascii.
  repeat case_bool_decide; cbn [foldl]; cbn [rmatch];
    rewrite ?(rmatch_Bytes_beyond_ascii s _ _ i caps k Hs) by (vm_compute; lia);
    by repeat case_match.
Qed.

Lemma rmatch_Lit {R} (s cs : list ascii) (i : nat) (caps : captures)
    (k : nat → captures → option R) :
  ascii_chars s = true →
  rmatch s (Lit cs) i caps k =
  if bool_decide (map lower_char (take (length cs) (drop i s)) = map lower_char cs)
  then k (i + length cs)%nat caps else None.
Proof.
  intros Hs. revert i. induction cs as [|c cs IH]; intros i.
  - cbn. by rewrite Nat.add_0_r.
  - cbn [Lit rmatch length]. rewrite (rmatch_LitChar _ _ _ _ _ Hs). cbn [rmatch].
    destruct (s !! i) as [t|] eqn:Hi.
    + rewrite (drop_S _ _ _ Hi). cbn [take map]. rewrite IH.
      unfold char_ci. replace (i + S (length cs))%nat with (S i + length cs)%nat by lia.
      destruct (decide (lower_char t = lower_char c)) as [Ht|Ht].
      * rewrite (bool_decide_eq_true_2 _ Ht), Ht.
        destruct (decide (map lower_char (take (length cs) (drop (S i) s))
                          = map lower_char cs)) as [Hr|Hr].
        -- rewrite !bool_decide_eq_true_2; [done|by rewrite Hr|done].
        -- rewrite !bool_decide_eq_false_2; [done|congruence|done].
      * rewrite (bool_decide_eq_false_2 _ Ht).
        rewrite bool_decide_eq_false_2; [done|congruence].
    + rewrite drop_ge by (by apply lookup_ge_None). cbn.
      by rewrite bool_decide_eq_false_2.
Qed.

Lemma search_from_is_Some r s n start :
  is_Some (search_from r s n start false) ↔
  ∃ j, (start ≤ j ≤ start + n)%nat ∧ is_Some (match_at r s j false).
Proof.
  revert start. induction n as [|n IH]; intros start; cbn [search_from].
  - destruct (match_at r s start false) as [m|] eqn:Hm.
    + split; [|by eexists]. intros _. exists start. rewrite Hm. split; [lia|by eexists].
    + split; [by intros [??]|]. intros (j & Hj & Hs).
      replace j with start in Hs by lia. rewrite Hm in Hs. by destruct Hs.
  - destruct (match_at r s start false) as [m|] eqn:Hm.
    + split; [|by eexists]. intros _. exists start. rewrite Hm. split; [lia|by eexists].
    + rewrite IH. split.
      * intros (j & Hj & Hs). exists j. split; [lia|done].
      * intros (j & Hj & Hs). exists j. split; [|done].
        destruct (decide (j = start)) as [->|]; [|lia].
        rewrite Hm in Hs. by destruct Hs.
Qed.

Lemma re_search_is_Some r s :
  is_Some (re_search r s) ↔
  ∃ j, (j ≤ length s)%nat ∧ is_Some (match_at r s j false).
Proof.
  unfold re_search. rewrite search_from_is_Some.
  split; intros (j & Hj & Hs); exists j; (split; [lia|done]).
Qed.

Lemma at_end_one_line s i :
  last s ≠ Some newline → at_end s i = true ↔ i = length s.
Proof.
  intros Hlast. unfold at_end. rewrite orb_true_iff, andb_true_iff.
  rewrite !bool_decide_eq_true. split; [|by left].
  intros [->|[Hlen Hnl]]; [done|]. exfalso. apply Hlast.
  rewrite last_lookup. rewrite <- Hlen. exact Hnl.
Qed.

Lemma match_at_exact cs s j :
  ascii_chars s = true →
  is_Some (match_at (Seq [Bol; Lit cs; Eol]) s j false) ↔
  j = 0%nat ∧ map lower_char (take (length cs) s) = map lower_char cs
  ∧ at_end s (length cs) = true.
Proof.
  intros Hs. unfold match_at, Seq. cbn [foldr rmatch].
  destruct j as [|j]; [|split; [by intros [??]|by intros [? _]]].
  rewrite (rmatch_Lit _ _ _ _ _ Hs), drop_0. cbn [rmatch Nat.add andb].
  destruct (decide (map lower_char (take (length cs) s) = map lower_char cs))
    as [Hlit|Hlit].
  - rewrite (bool_decide_eq_true_2 _ Hlit).
    destruct (at_end s (length cs)); [|split; [by intros [??]|by intros (_&_&?)]].
    split; [done|by eexists].
  - rewrite (bool_decide_eq_false_2 _ Hlit).
    split; [by intros [??]|by intros (_&?&_)].
Qed.

Lemma match_at_suffix cs s j :
  ascii_chars s = true →
  is_Some (match_at (Seq [Lit cs; Eol]) s j false) ↔
  map lower_char (take (length cs) (drop j s)) = map lower_char cs
  ∧ at_end s (j + length cs) = true.
Proof.
  intros Hs. unfold match_at, Seq. cbn [foldr rmatch].
  rewrite (rmatch_Lit _ _ _ _ _ Hs). cbn [rmatch andb].
  destruct (decide (map lower_char (take (length cs) (drop j s)) = map lower_char cs))
    as [Hlit|Hlit].
  - rewrite (bool_decide_eq_true_2 _ Hlit).
    destruct (at_end s (j + length cs)); [|split; [by intros [??]|by intros (_&?)]].
    split; [done|by eexists].
  - rewrite (bool_decide_eq_false_2 _ Hlit).
    split; [by intros [??]|by intros (?&_)].
Qed.

Lemma match_at_prefix cs s j :
  ascii_chars s = true →
  is_Some (match_at (Seq [Bol; Lit cs]) s j false) ↔
  j = 0%nat ∧ map lower_char (take (length cs) s) = map lower_char cs.
Proof.
  intros Hs. unfold match_at, Seq. cbn [foldr rmatch].
  destruct j as [|j]; [|split; [by intros [??]|by intros [? _]]].
  rewrite (rmatch_Lit _ _ _ _ _ Hs), drop_0. cbn [rmatch andb].
  destruct (decide (map lower_char (take (length cs) s) = map lower_char cs))
    as [Hlit|Hlit].
  - rewrite (bool_decide_eq_true_2 _ Hlit). split; [done|by eexists].
  - rewrite (bool_decide_eq_false_2 _ Hlit).
    split; [by intros [??]|by intros (_&?)].
Qed.

(** On an ASCII name that does not end with a newline, [^cs$], [cs$] and
    [^cs] under [re.I] are equality, suffix and prefix of the lower-case
    name. *)
Lemma search_exact cs s :
  ascii_chars s = true → last s ≠ Some newline →
  is_Some (re_search (Seq [Bol; Lit cs; Eol]) s) ↔
  map lower_char s = map lower_char cs.
Proof.
  intros Hs Hlast. rewrite re_search_is_Some. split.
  - intros (j & _ & Hm). apply (match_at_exact _ _ _ Hs) in Hm as (_ & Hlit & Hend).
    apply (at_end_one_line _ _ Hlast) in Hend.
    by rewrite Hend, firstn_all in Hlit.
  - intros Heq. exists 0%nat. split; [lia|]. apply (match_at_exact _ _ _ Hs).
    assert (Hlen : length cs = length s).
    { apply (f_equal length) in Heq. by rewrite !length_map in Heq. }
    split; [done|]. rewrite Hlen, firstn_all. split; [done|].
    by apply at_end_one_line.
Qed.

Lemma search_suffix cs s :
  ascii_chars s = true → last s ≠ Some newline →
  is_Some (re_search (Seq [Lit cs; Eol]) s) ↔
  map lower_char cs `suffix_of` map lower_char s.
Proof.
  intros Hs Hlast. rewrite re_search_is_Some. split.
  - intros (j & Hj & Hm). apply (match_at_suffix _ _ _ Hs) in Hm as (Hlit & Hend).
    apply (at_end_one_line _ _ Hlast) in Hend.
    rewrite take_ge in Hlit by (rewrite length_drop; lia).
    exists (map lower_char (take j s)).
    by rewrite <- Hlit, <- map_app, take_drop.
  - intros [k Hk]. exists (length k).
    assert (Hlen : length s = (length k + length cs)%nat).
    { apply (f_equal length) in Hk. by rewrite length_app, !length_map in Hk. }
    split; [lia|]. apply (match_at_suffix _ _ _ Hs).
    split; [|by apply at_end_one_line].
    rewrite take_ge by (rewrite length_drop; lia).
    rewrite <- skipn_map, Hk. by rewrite drop_app_length.
Qed.

Lemma search_prefix cs s :
  ascii_chars s = true →
  is_Some (re_search (Seq [Bol; Lit cs]) s) ↔
  map lower_char cs `prefix_of` map lower_char s.
Proof.
  intros Hs. rewrite re_search_is_Some. split.
  - intros (j & _ & Hm). apply (match_at_prefix _ _ _ Hs) in Hm as (_ & Hlit).
    exists (map lower_char (drop (length cs) s)).
    by rewrite <- Hlit, <- map_app, take_drop.
  - intros [k Hk]. exists 0%nat. split; [lia|]. apply (match_at_prefix _ _ _ Hs).
    split; [done|]. rewrite <- firstn_map, Hk.
    rewrite <- (length_map lower_char cs). by rewrite take_app_length.
Qed.

(** The five patterns in the words of the naming convention. A name has to
    be ASCII for this: beyond ASCII the patterns accept names whose
    lower-case form has none of the five shapes (see
    [id_patterns_beyond_ascii]). *)
Lemma is_id_column_id_like name :
  isascii name = true → one_line name → is_id_column name = true ↔ id_like name.
Proof.
  intros Hascii Hline. unfold is_id_column, id_patterns, id_like, lowered.
  cbn [existsb]. rewrite !orb_true_iff, !bool_decide_eq_true.
  rewrite !(search_exact _ _ Hascii Hline), !(search_suffix _ _ Hascii Hline),
    (search_prefix _ _ Hascii).
  change (map lower_char (chars "id")) with (chars "id").
  change (map lower_char (chars "_id")) with (chars "_id").
  change (map lower_char (chars "id_")) with (chars "id_").
  change (map lower_char (chars "_code")) with (chars "_code").
  change (map lower_char (chars "stuid")) with (chars "stuid").
  intuition discriminate.
Qed.

(** Beyond ASCII the equivalence fails: the patterns accept the three names
    below, as [re.I] folds U+0131 and U+0130 onto [i] and U+017F onto [s],
    while [str.lower] leaves U+0131 and U+017F as they are and turns U+0130
    into [i] followed by U+0307. *)
Lemma id_patterns_beyond_ascii :
  Forall (λ name, is_id_column name = true ∧ ¬ id_like name ∧ isascii name = false)
    [dotless_id; dotted_x_id; long_s_stuid].
Proof.
  repeat apply Forall_cons_2; [..|apply Forall_nil_2];
    (split; [vm_compute; reflexivity|]);
    (split; [|vm_compute; reflexivity]);
    unfold id_like; apply (bool_decide_eq_false_1 _); vm_compute; reflexivity.
Qed.

(** ** The replacement search *)

Lemma for_extend_elem_of {A B} (body : A → result (list B)) (xs : list A) :
  (∀ x, x ∈ xs → ∃ l, body x = Ok l) →
  ∃ ys, for_extend body xs = Ok ys
        ∧ ∀ y, y ∈ ys ↔ ∃ x l, x ∈ xs ∧ body x = Ok l ∧ y ∈ l.
Proof.
  induction xs as [|x xs IH]; intros Hbody.
  - exists []. split; [done|]. intros y. split.
    + by intros ?%elem_of_nil.
    + by intros (x & l & ?%elem_of_nil & _).
  - destruct (Hbody x) as [l Hl]; [apply list_elem_of_here|].
    destruct IH as (ys & Hys & Hin).
    { intros x' Hx'. apply Hbody. by apply list_elem_of_further. }
    exists (l ++ ys). cbn [for_extend]. rewrite Hl, Hys. split; [done|].
    intros y. rewrite elem_of_app, Hin. split.
    + intros [Hy|(x' & l' & Hx' & Hl' & Hy)].
      * exists x, l. split; [apply list_elem_of_here|done].
      * exists x', l'. split; [by apply list_elem_of_further|done].
    + intros (x' & l' & Hx' & Hl' & Hy).
      apply elem_of_cons in Hx' as [->|Hx'].
      * left. congruence.
      * right. by exists x', l'.
Qed.

Lemma elem_of_enumerate {A} (l : list A) (i : Z) (a : A) :
  (i, a) ∈ enumerate l ↔ 0 ≤ i ∧ l !! Z.to_nat i = Some a.
Proof.
  unfold enumerate. rewrite elem_of_lookup_imap. split.
  - intros (n & a' & [= -> ->] & Hn). split; [lia|]. by rewrite Nat2Z.id.
  - intros [Hi Ha]. exists (Z.to_nat i), a. split; [|done].
    by rewrite Z2Nat.id.
Qed.

Lemma py_getitem_in_range {A} (l : list A) (i : Z) :
  0 ≤ i < Z.of_nat (length l) →
  ∃ a, l !! Z.to_nat i = Some a ∧ py_getitem l i = Ok a.
Proof.
  intros Hi. unfold py_getitem.
  destruct (Z.ltb_spec i 0); [lia|].
  destruct (Z.ltb_spec i 0); [lia|].
  destruct (Z.leb_spec (Z.of_nat (length l)) i); [lia|]. cbn.
  destruct (lookup_lt_is_Some_2 l (Z.to_nat i)) as [a Ha]; [lia|].
  exists a. by rewrite Ha.
Qed.

(** What one column entry contributes, when its table index is in range. *)
Lemma id_candidate_spec column schema policies col_id table_idx col_name :
  0 ≤ col_id →
  column_names schema !! Z.to_nat col_id = Some (table_idx, col_name) →
  table_idx < Z.of_nat (length (table_names schema)) →
  isascii col_name = true → one_line col_name →
  ∃ l, id_candidate (lower (split_first column)) schema policies
         (col_id, (table_idx, col_name)) = Ok l
       ∧ ∀ is_pk i full_name,
           (is_pk, i, full_name) ∈ l ↔
           i = col_id ∧ is_pk = bool_decide (col_id ∈ primary_keys schema)
           ∧ is_candidate column schema policies col_id full_name.
Proof.
  intros Hpos Hcol Hwf Hascii Hline. unfold id_candidate.
  assert (Hdet : ∀ full_name,
    is_candidate column schema policies col_id full_name →
    ∃ table, table_names schema !! Z.to_nat table_idx = Some table
             ∧ 0 < col_id ∧ 0 ≤ table_idx
             ∧ lower table = lower (split_first column)
             ∧ id_like col_name
             ∧ policies !! (table +:+ "." +:+ col_name) = Some Public
             ∧ full_name = table +:+ "." +:+ col_name).
  { intros full_name (t & n & table & H0 & Hc & Ht & Htab & Hlow & Hid & Hpol & Hfull).
    rewrite Hcol in Hc. injection Hc as <- <-. by exists table. }
  destruct (Z.eqb_spec col_id 0) as [->|Hnz].
  { exists []. split; [done|]. intros pk i f. split.
    - by intros ?%elem_of_nil.
    - intros (_ & _ & Hf). apply Hdet in Hf as (? & _ & ? & _). lia. }
  destruct (Z.ltb_spec table_idx 0) as [Hneg|Hnonneg].
  { exists []. split; [done|]. intros pk i f. split.
    - by intros ?%elem_of_nil.
    - intros (_ & _ & Hf). apply Hdet in Hf as (? & _ & _ & ? & _). lia. }
  destruct (py_getitem_in_range (table_names schema) table_idx) as (table & Htab & ->);
    [lia|]. cbn [mbind result_bind].
  destruct (String.eqb_spec (lower table) (lower (split_first column))) as [Hlow|Hlow];
    cbn [negb].
  2: { exists []. split; [done|]. intros pk i f. split.
       - by intros ?%elem_of_nil.
       - intros (_ & _ & Hf). apply Hdet in Hf as (t' & Ht' & _ & _ & ? & _).
         rewrite Htab in Ht'. by injection Ht' as <-. }
  destruct (is_id_column col_name) eqn:Hid; cbn [andb].
  2: { exists []. split; [done|]. intros pk i f. split.
       - by intros ?%elem_of_nil.
       - intros (_ & _ & Hf). apply Hdet in Hf as (_ & _ & _ & _ & _ & Hlike & _).
         apply (is_id_column_id_like _ Hascii Hline) in Hlike. congruence. }
  destruct (decide (policies !! (table +:+ "." +:+ col_name) = Some Public))
    as [Hpol|Hpol].
  2: { rewrite (bool_decide_eq_false_2 _ Hpol).
       exists []. split; [done|]. intros pk i f. split.
       - by intros ?%elem_of_nil.
       - intros (_ & _ & Hf). apply Hdet in Hf as (t' & Ht' & _ & _ & _ & _ & Hp & _).
         rewrite Htab in Ht'. injection Ht' as <-. done. }
  rewrite (bool_decide_eq_true_2 _ Hpol).
  eexists. split; [done|]. intros pk i f. rewrite list_elem_of_singleton. split.
  - intros [= -> -> ->]. split; [done|]. split; [done|].
    exists table_idx, col_name, table.
    repeat split; try done; try lia.
    by apply (is_id_column_id_like _ Hascii Hline).
  - intros (-> & -> & Hf). apply Hdet in Hf as (t' & Ht' & _ & _ & _ & _ & _ & ->).
    rewrite Htab in Ht'. by injection Ht' as <-.
Qed.

Lemma key_le_refl k : key_le k k = true.
Proof. destruct k as [[] z]; cbn; lia. Qed.

Lemma key_le_trans k1 k2 k3 :
  key_le k1 k2 = true → key_le k2 k3 = true → key_le k1 k3 = true.
Proof. destruct k1 as [[] ?], k2 as [[] ?], k3 as [[] ?]; cbn; lia. Qed.

Lemma key_le_total k1 k2 : key_le k1 k2 = false → key_le k2 k1 = true.
Proof. destruct k1 as [[] ?], k2 as [[] ?]; cbn; lia. Qed.

Lemma elem_of_insert_by_key x y l : x ∈ insert_by_key y l ↔ x = y ∨ x ∈ l.
Proof.
  induction l as [|z l IH]; cbn [insert_by_key].
  - rewrite list_elem_of_singleton, elem_of_nil. tauto.
  - destruct (key_le (candidate_key y) (candidate_key z)).
    + by rewrite elem_of_cons.
    + rewrite !elem_of_cons, IH. tauto.
Qed.

Lemma elem_of_sort_by_key x l : x ∈ sort_by_key l ↔ x ∈ l.
Proof.
  induction l as [|y l IH]; [done|].
  cbn [sort_by_key foldr]. fold (sort_by_key l).
  rewrite elem_of_insert_by_key, IH, elem_of_cons. tauto.
Qed.

(** The first element of the sorted list has the least key. *)
Lemma sort_by_key_head l c rest :
  sort_by_key l = c :: rest →
  ∀ x, x ∈ l → key_le (candidate_key c) (candidate_key x) = true.
Proof.
  revert c rest. induction l as [|y l IH]; intros c rest; [done|].
  cbn [sort_by_key foldr]. fold (sort_by_key l).
  destruct (sort_by_key l) as [|c' rest'] eqn:Hsorted.
  - cbn. intros [= <- <-] x Hx.
    apply elem_of_cons in Hx as [->|Hx]; [apply key_le_refl|].
    apply elem_of_sort_by_key in Hx. rewrite Hsorted in Hx.
    by apply elem_of_nil in Hx.
  - specialize (IH c' rest' eq_refl). cbn [insert_by_key].
    destruct (key_le (candidate_key y) (candidate_key c')) eqn:Hle.
    + intros [= <- <-] x Hx.
      apply elem_of_cons in Hx as [->|Hx]; [apply key_le_refl|].
      eapply key_le_trans; [exact Hle|by apply IH].
    + intros [= <- <-] x Hx.
      apply elem_of_cons in Hx as [->|Hx]; [by apply key_le_total|by apply IH].
Qed.

Lemma find_id_candidates_spec column schema policies :
  schema_wf schema → names_one_line schema → schema_ascii schema →
  ∃ candidates,
    find_id_candidates (lower (split_first column)) schema policies = Ok candidates
    ∧ ∀ is_pk i full_name,
        (is_pk, i, full_name) ∈ candidates ↔
        is_pk = bool_decide (i ∈ primary_keys schema)
        ∧ is_candidate column schema policies i full_name.
Proof.
  intros Hwf Hline [_ Hascii]. unfold find_id_candidates.
  destruct (for_extend_elem_of
              (id_candidate (lower (split_first column)) schema policies)
              (enumerate (column_names schema))) as (candidates & Hok & Hin).
  { intros [col_id [table_idx col_name]] [Hpos Hcol]%elem_of_enumerate.
    pose proof (list_elem_of_lookup_2 _ _ _ Hcol) as Helem.
    destruct (id_candidate_spec column schema policies col_id table_idx col_name)
      as (l & Hl & _); eauto. }
  exists candidates. split; [done|]. intros is_pk i full_name. rewrite Hin. split.
  - intros ([col_id [table_idx col_name]] & l & [Hpos Hcol]%elem_of_enumerate & Hl & Hy).
    pose proof (list_elem_of_lookup_2 _ _ _ Hcol) as Helem.
    destruct (id_candidate_spec column schema policies col_id table_idx col_name)
      as (l' & Hl' & Hspec); eauto.
    rewrite Hl in Hl'. injection Hl' as <-.
    apply Hspec in Hy as (-> & -> & Hcand). done.
  - intros [-> Hcand].
    pose proof Hcand as (table_idx & col_name & table & Hpos & Hcol & _).
    pose proof (list_elem_of_lookup_2 _ _ _ Hcol) as Helem.
    destruct (id_candidate_spec column schema policies i table_idx col_name)
      as (l & Hl & Hspec); eauto; [lia|].
    exists (i, (table_idx, col_name)), l. split.
    + apply elem_of_enumerate. split; [lia|done].
    + split; [done|]. by apply Hspec.
Qed.

Lemma py_getitem_head {A} (x : A) (l : list A) : py_getitem (x :: l) 0 = Ok x.
Proof.
  unfold py_getitem. cbn [Z.ltb Z.compare length].
  destruct (Z.leb_spec (Z.of_nat (S (length l))) 0); [lia|]. reflexivity.
Qed.

(** The sorted list is empty exactly when the candidate list is, so the
    answer is read off the sorted list. *)
Lemma find_id_column_sorted column schema policies :
  _find_id_column column schema policies =
  (candidates ← find_id_candidates (lower (split_first column)) schema policies;
   match sort_by_key candidates with
   | [] => Ok None
   | first :: _ => Ok (Some first.2)
   end).
Proof.
  unfold _find_id_column.
  destruct (find_id_candidates _ schema policies) as [[|c0 cs]|e];
    cbn [mbind result_bind]; [reflexivity| |reflexivity].
  destruct (sort_by_key (c0 :: cs)) as [|first rest] eqn:Hsorted.
  - assert (Hc0 : c0 ∈ sort_by_key (c0 :: cs))
      by (apply elem_of_sort_by_key, list_elem_of_here).
    rewrite Hsorted in Hc0. by apply elem_of_nil in Hc0.
  - by rewrite py_getitem_head.
Qed.

(** The replacement search on a schema whose table indices are in range and
    whose names are ASCII, the column names not ending with a newline: the
    columns considered are exactly those of the same table with an id-like
    name and the policy entry Public; the one returned is a primary key if
    some candidate is, and has the least column index among the candidates
    of its kind. On ASCII names [lower] is [str.lower] and the five patterns
    are the naming convention. *)
Lemma find_id_column_selects column schema policies :
  schema_wf schema → names_one_line schema →
  schema_ascii schema → isascii column = true →
  match _find_id_column column schema policies with
  | Ok None => ∀ i full_name, ¬ is_candidate column schema policies i full_name
  | Ok (Some replacement) =>
      ∃ i, is_candidate column schema policies i replacement
           ∧ ∀ j full_name, is_candidate column schema policies j full_name →
               (j ∈ primary_keys schema → i ∈ primary_keys schema)
               ∧ ((j ∈ primary_keys schema ↔ i ∈ primary_keys schema) → i ≤ j)
  | Raise _ => False
  end.
Proof.
  intros Hwf Hline Hascii _. rewrite find_id_column_sorted.
  destruct (find_id_candidates_spec column schema policies Hwf Hline Hascii)
    as (candidates & -> & Hin).
  cbn [mbind result_bind].
  destruct (sort_by_key candidates) as [|[[is_pk i] replacement] rest] eqn:Hsorted.
  { intros i full_name Hcand.
    assert (Hi : (bool_decide (i ∈ primary_keys schema), i, full_name)
                 ∈ sort_by_key candidates)
      by (by apply elem_of_sort_by_key, Hin).
    rewrite Hsorted in Hi. by apply elem_of_nil in Hi. }
  assert (Hfirst : (is_pk, i, replacement) ∈ candidates).
  { apply elem_of_sort_by_key. rewrite Hsorted. apply list_elem_of_here. }
  apply Hin in Hfirst as [-> Hcand].
  cbn [snd]. exists i. split; [done|]. intros j full_name Hj.
  assert (Hle := sort_by_key_head _ _ _ Hsorted
                   (bool_decide (j ∈ primary_keys schema), j, full_name)).
  rewrite Hin in Hle. specialize (Hle (conj eq_refl Hj)).
  unfold candidate_key, key_le in Hle. cbn [fst snd] in Hle.
  destruct (decide (i ∈ primary_keys schema)) as [Hi|Hi],
           (decide (j ∈ primary_keys schema)) as [Hj'|Hj'].
  - rewrite !bool_decide_eq_true_2 in Hle by done. cbn [negb] in Hle.
    split; [done|lia].
  - split; [done|tauto].
  - rewrite (bool_decide_eq_false_2 _ Hi), (bool_decide_eq_true_2 _ Hj') in Hle.
    done.
  - rewrite !bool_decide_eq_false_2 in Hle by done. cbn [negb] in Hle.
    split; [done|lia].
Qed.


(** C7, at the failing input. In [Enrollment(student_id, course_code, id PK,
    email)] with the entry Public for the three id-like columns, the search
    for a replacement of [Enrollment.email] returns the primary key
    [Enrollment.id], although two candidates have a smaller index. Without
    the entry of [Enrollment.id] that column is still Public for the checker
    (a reference to it is no violation), but the search no longer considers
    it and returns [Enrollment.student_id], which is not a primary key. *)
Theorem find_id_column_skips_default_public_key :
  _find_id_column "Enrollment.email" enrollment_schema enrollment_policies
  = Ok (Some "Enrollment.id")
  ∧ enrollment_policies_without_id !! "Enrollment.id" = None
  ∧ check_violations [mkColumnRef "Enrollment" "id" SelectExpr 0]
      enrollment_policies_without_id = Ok []
  ∧ 3 ∈ primary_keys enrollment_schema
  ∧ _find_id_column "Enrollment.email" enrollment_schema
      enrollment_policies_without_id = Ok (Some "Enrollment.student_id").
Proof.
  split; [vm_compute; reflexivity|].
  split; [vm_compute; reflexivity|].
  split; [vm_compute; reflexivity|].
  split; [apply list_elem_of_here|].
  vm_compute; reflexivity.
Qed.

(** ** The scenarios of the specification *)

Example scenario_hidden_select :
  check_violations [mkColumnRef "Student" "email" SelectExpr 0] school_policies
  = Ok [email_selected]
  ∧ rewrite "SELECT email FROM Student" [email_selected] school_schema school_policies
    = Ok (Success "SELECT id FROM Student").
Proof. split; vm_compute; reflexivity. Qed.

Example scenario_hidden_where :
  check_violations [mkColumnRef "Student" "name" SelectExpr 0;
                    mkColumnRef "Student" "email" WherePred 0] email_only_policies
  = Ok [email_in_where]
  ∧ rewrite "SELECT name FROM Student WHERE email = 'x'" [email_in_where]
      school_schema email_only_policies
    = Ok (Refused "Hidden column in WherePred: Student.email").
Proof. split; vm_compute; reflexivity. Qed.

Example scenario_aggonly_max :
  check_violations [mkColumnRef "Employee" "salary" AggArg 1] school_policies
  = Ok [mkViolation "Employee.salary" AggArg AggOnly 1]
  ∧ rewrite "SELECT MAX(salary) FROM Employee"
      [mkViolation "Employee.salary" AggArg AggOnly 1] school_schema school_policies
    = Ok (Refused "AggOnly column with non-AVG/COUNT agg: Employee.salary").
Proof. split; vm_compute; reflexivity. Qed.

Example scenario_aggonly_select :
  check_violations [mkColumnRef "Employee" "salary" SelectExpr 0] school_policies
  = Ok [salary_selected]
  ∧ rewrite "SELECT salary FROM Employee" [salary_selected] school_schema
      school_policies
    = Ok (Success "SELECT AVG(salary) FROM Employee").
Proof. split; vm_compute; reflexivity. Qed.

(** * Further properties of the code *)

(** ** The error monad, continued *)

Lemma bind_Ok_inv {A B} (m : result A) (f : A → result B) (b : B) :
  (m ≫= f) = Ok b → ∃ a, m = Ok a ∧ f a = Ok b.
Proof. destruct m as [a|e]; cbn; [by exists a|done]. Qed.

Lemma for_extend_Ok_elem {A B} (body : A → result (list B)) (xs : list A) ys :
  for_extend body xs = Ok ys →
  ∀ y, y ∈ ys ↔ ∃ x l, x ∈ xs ∧ body x = Ok l ∧ y ∈ l.
Proof.
  revert ys. induction xs as [|x xs IH]; intros ys; cbn [for_extend].
  - intros [= <-] y. split.
    + by intros ?%elem_of_nil.
    + by intros (x & l & ?%elem_of_nil & _).
  - intros (l & Hl & Hrest)%bind_Ok_inv.
    apply bind_Ok_inv in Hrest as (ys' & Hys' & [= <-]).
    intros y. rewrite elem_of_app, (IH _ Hys'). split.
    + intros [Hy|(x' & l' & Hx' & Hl' & Hy)].
      * exists x, l. split; [apply list_elem_of_here|done].
      * exists x', l'. split; [by apply list_elem_of_further|done].
    + intros (x' & l' & Hx' & Hl' & Hy).
      apply elem_of_cons in Hx' as [->|Hx'].
      * left. congruence.
      * right. by exists x', l'.
Qed.

Lemma for_extend_Forall {A B} (P : B → Prop) (body : A → result (list B)) xs ys :
  (∀ x l, x ∈ xs → body x = Ok l → Forall P l) →
  for_extend body xs = Ok ys → Forall P ys.
Proof.
  intros Hbody Hys. apply Forall_forall. intros y Hy.
  apply (for_extend_Ok_elem _ _ _ Hys) in Hy as (x & l & Hx & Hl & Hy).
  pose proof (Hbody x l Hx Hl) as Hall. rewrite Forall_forall in Hall. by apply Hall.
Qed.

Lemma for_extend_total {A B} (body : A → result (list B)) xs :
  (∀ x, x ∈ xs → ∃ l, body x = Ok l) → ∃ ys, for_extend body xs = Ok ys.
Proof.
  intros Hbody. destruct (for_extend_elem_of body xs Hbody) as (ys & Hys & _).
  by exists ys.
Qed.

(** ** violation_checker.py, continued *)

(** X1. The checker works reference by reference: the violations of a
    concatenated reference list are the violations of the first part followed
    by those of the second, in order and with their multiplicity. *)
Theorem check_violations_app (refs1 refs2 : list ColumnRef)
    (policies : gmap string PolicyType) :
  ∃ violations1 violations2,
    check_violations refs1 policies = Ok violations1
    ∧ check_violations refs2 policies = Ok violations2
    ∧ check_violations (refs1 ++ refs2) policies = Ok (violations1 ++ violations2).
Proof.
  destruct (check_violations_total refs2 policies) as [violations2 H2].
  induction refs1 as [|ref refs1 (violations1 & violations2' & H1 & H2' & H12)].
  - exists [], violations2. by rewrite H2.
  - rewrite H2 in H2'. injection H2' as <-.
    cbn [app]. rewrite !check_violations_cons, H1, H12. cbn.
    destruct (match default Public (policies !! col_key_of ref), ref_role ref with
              | AggOnly, AggArg => count_or_avg (ref_agg_id ref)
              | _, _ => permission_matrix _ (ref_role ref)
              end); eauto.
Qed.

Lemma check_violations_elem refs policies violations :
  check_violations refs policies = Ok violations →
  ∀ v, v ∈ violations →
    denied v ∧ ∃ ref, ref ∈ refs ∧ v = violation_of policies ref.
Proof.
  revert violations. induction refs as [|ref refs IH]; intros violations.
  - intros [= <-] v Hv. by apply elem_of_nil in Hv.
  - intros Hcheck v Hv.
    pose proof (check_violations_denied _ _ _ Hcheck) as Hdenied.
    rewrite Forall_forall in Hdenied. split; [by apply Hdenied|].
    rewrite check_violations_cons in Hcheck.
    destruct (check_violations refs policies) as [violations'|e]; [|done].
    cbn in Hcheck. specialize (IH _ eq_refl).
    destruct (match default Public (policies !! col_key_of ref), ref_role ref with
              | AggOnly, AggArg => count_or_avg (ref_agg_id ref)
              | _, _ => permission_matrix _ (ref_role ref)
              end); injection Hcheck as <-.
    + destruct (IH v Hv) as (_ & ref' & Href' & ->).
      exists ref'. split; [by apply list_elem_of_further|done].
    + apply elem_of_cons in Hv as [->|Hv].
      * exists ref. split; [apply list_elem_of_here|done].
      * destruct (IH v Hv) as (_ & ref' & Href' & ->).
        exists ref'. split; [by apply list_elem_of_further|done].
Qed.

Lemma check_violations_entry refs policies violations v :
  check_violations refs policies = Ok violations →
  v ∈ violations →
  policies !! v_column v = Some (v_policy v)
  ∧ v_policy v ≠ Public
  ∧ ∃ ref, ref ∈ refs ∧ v_column v = col_key_of ref
           ∧ v_role v = ref_role ref ∧ v_agg_id v = ref_agg_id ref.
Proof.
  intros Hcheck Hv.
  destruct (check_violations_elem _ _ _ Hcheck v Hv) as (Hdenied & ref & Href & ->).
  unfold denied, violation_of in *. cbn in *.
  assert (Hnot : default Public (policies !! col_key_of ref) ≠ Public).
  { intros Heq. rewrite Heq in Hdenied. by destruct (ref_role ref). }
  split.
  - destruct (policies !! col_key_of ref) as [policy|]; [done|]. by cbn in Hnot.
  - split; [done|]. by exists ref.
Qed.

(** X2. Every violation that the checker reports is about a column with an
    explicit entry in the policy map, that entry is the policy of the
    violation and is not Public, and the violation carries the key, role and
    aggregate of one of the references. *)
Theorem check_violations_explicit_entry (refs : list ColumnRef)
    (policies : gmap string PolicyType) (violations : list Violation)
    (v : Violation) :
  check_violations refs policies = Ok violations →
  v ∈ violations →
  policies !! v_column v = Some (v_policy v)
  ∧ v_policy v ≠ Public
  ∧ ∃ ref, ref ∈ refs ∧ v_column v = col_key_of ref
           ∧ v_role v = ref_role ref ∧ v_agg_id v = ref_agg_id ref.
Proof. apply check_violations_entry. Qed.

Lemma check_violations_explicit_entry_witness :
  school_policies !! v_column email_selected = Some (v_policy email_selected)
  ∧ v_policy email_selected ≠ Public
  ∧ ∃ ref, ref ∈ [mkColumnRef "Student" "email" SelectExpr 0]
           ∧ v_column email_selected = col_key_of ref
           ∧ v_role email_selected = ref_role ref
           ∧ v_agg_id email_selected = ref_agg_id ref.
Proof.
  apply (check_violations_explicit_entry
           [mkColumnRef "Student" "email" SelectExpr 0] school_policies
           [email_selected] email_selected).
  - vm_compute. reflexivity.
  - apply list_elem_of_here.
Defined.

(** X3. A policy map in which no entry differs from Public, the empty map
    of a database without policy file among them, yields no violation for
    any reference list. *)
Theorem check_violations_all_public (refs : list ColumnRef)
    (policies : gmap string PolicyType) :
  (∀ key policy, policies !! key = Some policy → policy = Public) →
  check_violations refs policies = Ok [].
Proof.
  intros Hpublic.
  destruct (check_violations_total refs policies) as [violations Hcheck].
  rewrite Hcheck. f_equal. destruct violations as [|v violations]; [done|].
  destruct (check_violations_entry _ _ _ v Hcheck) as (Hentry & Hnot & _);
    [apply list_elem_of_here|].
  by apply Hpublic in Hentry.
Qed.

Lemma check_violations_all_public_witness :
  check_violations [mkColumnRef "Student" "email" SelectExpr 0;
                    mkColumnRef "Employee" "salary" WherePred 1] ∅ = Ok [].
Proof.
  apply check_violations_all_public. intros key policy Hlookup.
  rewrite lookup_empty in Hlookup. discriminate Hlookup.
Defined.

(** ** role_extractor.py, continued *)

Lemma str_truthy_nonempty s : str_truthy s = true → s ≠ EmptyString.
Proof. by destruct s. Qed.

Lemma conds_or_nothing {S} (f : S → TableSchema → result (list ColumnRef))
    (conds : list (cond_item_ S)) schema role :
  match conds with
  | [] => Ok []
  | c :: l => _extract_from_conds f (c :: l) schema role
  end = _extract_from_conds f conds schema role.
Proof. by destruct conds. Qed.

(** One resolved column unit: the reference it gives, if any. *)
Lemma resolved_ref_well_formed schema col_id role agg_id refs :
  col_id ≠ 0 →
  (role = SelectExpr → agg_id = 0) → (role = AggArg → agg_id ≠ 0) →
  ('(table, column) ← _resolve_col_id schema col_id;
   if str_truthy table then Ok [mkColumnRef table column role agg_id] else Ok [])
  = Ok refs →
  Forall (ref_well_formed schema) refs.
Proof.
  intros Hnz Hsel Hagg ([table column] & Hres & Hrefs)%bind_Ok_inv.
  destruct (str_truthy table) eqn:Htable; injection Hrefs as <-; [|constructor].
  constructor; [|constructor]. unfold ref_well_formed; cbn.
  split; [by apply str_truthy_nonempty|]. split; [by exists col_id|]. done.
Qed.

Lemma extract_from_val_unit_well_formed vu schema outer_agg_id refs :
  _extract_from_val_unit vu schema outer_agg_id = Ok refs →
  Forall (ref_well_formed schema) refs.
Proof.
  unfold _extract_from_val_unit. apply for_extend_Forall.
  intros [[agg_id col_id d]|] l _; [|by intros [= <-]].
  destruct (Z.eqb_spec col_id 0) as [|Hnz]; [by intros [= <-]|].
  cbv zeta.
  generalize (if negb (agg_id =? 0) then agg_id else outer_agg_id).
  intros effective_agg.
  apply resolved_ref_well_formed; [done| |];
    destruct (Z.eqb_spec effective_agg 0); cbn [negb]; done.
Qed.

Lemma extract_cols_from_val_unit_well_formed vu schema role refs :
  role = JoinCond ∨ role = WherePred →
  _extract_cols_from_val_unit vu schema role = Ok refs →
  Forall (ref_well_formed schema) refs.
Proof.
  intros Hrole. unfold _extract_cols_from_val_unit. apply for_extend_Forall.
  intros [[agg_id col_id d]|] l _; [|by intros [= <-]].
  destruct (Z.eqb_spec col_id 0) as [|Hnz]; [by intros [= <-]|].
  apply resolved_ref_well_formed; [done| |]; by destruct Hrole as [-> | ->].
Qed.

Lemma extract_from_conds_well_formed conds schema role refs :
  role = JoinCond ∨ role = WherePred →
  Forall (on_cond (λ q, ∀ schema refs,
            extract_roles q schema = Ok refs →
            Forall (ref_well_formed schema) refs)) conds →
  _extract_from_conds extract_roles conds schema role = Ok refs →
  Forall (ref_well_formed schema) refs.
Proof.
  intros Hrole Hconds. unfold _extract_from_conds. apply for_extend_Forall.
  intros [c|not_op op_id vu val1 val2] l Hin; [by intros [= <-]|].
  rewrite Forall_forall in Hconds. specialize (Hconds _ Hin) as [H1 H2].
  intros (left & Hleft & Hrest)%bind_Ok_inv.
  apply bind_Ok_inv in Hrest as (right & Hright & [= <-]).
  apply Forall_app. split.
  - by eapply extract_cols_from_val_unit_well_formed.
  - revert Hright. apply for_extend_Forall.
    intros v l' Hv. 
    assert (Hval : on_val (λ q, ∀ schema refs,
              extract_roles q schema = Ok refs →
              Forall (ref_well_formed schema) refs) v).
    { apply elem_of_cons in Hv as [->|Hv]; [done|].
      apply elem_of_cons in Hv as [->|Hv]; [done|]. by apply elem_of_nil in Hv. }
    destruct v as [|lit|[agg_id col_id d]|q']; cbn [cond_value_refs on_val] in *.
    + by intros [= <-].
    + by intros [= <-].
    + destruct (Z.eqb_spec col_id 0) as [|Hnz]; cbn [negb]; [by intros [= <-]|].
      apply resolved_ref_well_formed; [done| |]; by destruct Hrole as [-> | ->].
    + apply Hval.
Qed.

Lemma extract_roles_well_formed q :
  ∀ schema refs, extract_roles q schema = Ok refs →
                 Forall (ref_well_formed schema) refs.
Proof.
  induction q as [sel tus fc wh i u e Htus Hfc Hwh Hi Hu He] using sql_ind.
  intros schema refs.
  cbn [extract_roles sql_select sql_from_table_units sql_from_conds
       sql_where sql_intersect sql_union sql_except].
  rewrite !conds_or_nothing.
  intros (r_select & Hselect & Hrest)%bind_Ok_inv.
  apply bind_Ok_inv in Hrest as (r_join & Hjoin & Hrest).
  apply bind_Ok_inv in Hrest as (r_where & Hwhere & Hrest).
  apply bind_Ok_inv in Hrest as (r_from & Hfrom & Hrest).
  apply bind_Ok_inv in Hrest as (r_ops & Hops & [= <-]).
  repeat (apply Forall_app; split).
  - destruct sel as [distinct items]. revert Hselect. unfold _extract_from_select.
    apply for_extend_Forall. intros [agg_id vu] l _.
    apply extract_from_val_unit_well_formed.
  - eapply extract_from_conds_well_formed; [by left|exact Hfc|exact Hjoin].
  - eapply extract_from_conds_well_formed; [by right|exact Hwh|exact Hwhere].
  - revert Hfrom. apply for_extend_Forall. intros [idx|q'] l Hin; [by intros [= <-]|].
    rewrite Forall_forall in Htus. apply (Htus _ Hin).
  - revert Hops. apply for_extend_Forall. intros [q'|] l Hin; [|by intros [= <-]].
    apply elem_of_cons in Hin as [Heq|Hin]; [subst i; apply Hi|].
    apply elem_of_cons in Hin as [Heq|Hin]; [subst u; apply Hu|].
    apply elem_of_cons in Hin as [Heq|Hin]; [subst e; apply He|].
    by apply elem_of_nil in Hin.
Qed.

(** X4. Every reference that [extract_roles] returns has a non-empty table
    name and names a column that [_resolve_col_id] finds in the schema under
    a non-zero column id; a reference with role SelectExpr has aggregate 0
    and one with role AggArg has a non-zero aggregate. *)
Theorem extract_roles_refs_well_formed (q : sql) (schema : TableSchema)
    (refs : list ColumnRef) (ref : ColumnRef) :
  extract_roles q schema = Ok refs →
  ref ∈ refs →
  ref_well_formed schema ref.
Proof.
  intros Hextract Href.
  pose proof (extract_roles_well_formed q schema refs Hextract) as Hall.
  rewrite Forall_forall in Hall. by apply Hall.
Qed.

Lemma extract_roles_refs_well_formed_witness :
  ref_well_formed school_schema (mkColumnRef "Student" "name" SelectExpr 0).
Proof.
  apply (extract_roles_refs_well_formed (where_query 6) school_schema
           [mkColumnRef "Student" "name" SelectExpr 0]).
  - vm_compute. reflexivity.
  - apply list_elem_of_here.
Defined.

Lemma py_getitem_total {A} (l : list A) (i : Z) :
  - Z.of_nat (length l) ≤ i < Z.of_nat (length l) →
  ∃ a, py_getitem l i = Ok a ∧ a ∈ l.
Proof.
  intros Hi. unfold py_getitem.
  set (j := if i <? 0 then Z.of_nat (length l) + i else i).
  assert (Hj : 0 ≤ j < Z.of_nat (length l)).
  { unfold j. destruct (Z.ltb_spec i 0); lia. }
  destruct (Z.ltb_spec j 0); [lia|].
  destruct (Z.leb_spec (Z.of_nat (length l)) j); [lia|]. cbn.
  destruct (lookup_lt_is_Some_2 l (Z.to_nat j)) as [a Ha]; [lia|].
  exists a. rewrite Ha. split; [done|]. by eapply list_elem_of_lookup_2.
Qed.

Lemma resolve_col_id_total schema col_id :
  schema_wf schema → index_not_below schema col_id →
  ∃ r, _resolve_col_id schema col_id = Ok r.
Proof.
  intros Hwf Hlow. unfold _resolve_col_id.
  destruct (col_id =? 0); [by eexists|].
  destruct (Z.geb_spec col_id (Z.of_nat (length (column_names schema))));
    [by eexists|].
  destruct (py_getitem_total (column_names schema) col_id)
    as ([table_idx col_name] & -> & Hin); [unfold index_not_below in Hlow; lia|].
  cbn. destruct (Z.ltb_spec table_idx 0); [by eexists|].
  destruct (py_getitem_total (table_names schema) table_idx) as (table & -> & _).
  { specialize (Hwf _ _ Hin). lia. }
  by eexists.
Qed.

Lemma resolved_ref_total schema col_id role agg_id :
  schema_wf schema → index_not_below schema col_id →
  ∃ refs,
    ('(table, column) ← _resolve_col_id schema col_id;
     if str_truthy table then Ok [mkColumnRef table column role agg_id] else Ok [])
    = Ok refs.
Proof.
  intros Hwf Hlow.
  destruct (resolve_col_id_total schema col_id Hwf Hlow) as ([table column] & ->).
  cbn. destruct (str_truthy table); by eexists.
Qed.

Lemma extract_from_val_unit_total vu schema outer_agg_id :
  schema_wf schema → Forall (index_not_below schema) (val_unit_col_ids vu) →
  ∃ refs, _extract_from_val_unit vu schema outer_agg_id = Ok refs.
Proof.
  intros Hwf Hids. unfold _extract_from_val_unit. apply for_extend_total.
  unfold val_unit_col_ids in Hids. apply Forall_app in Hids as [H1 H2].
  intros cu Hcu.
  assert (Hcu' : Forall (index_not_below schema) (col_unit_ids cu)).
  { apply elem_of_cons in Hcu as [->|Hcu]; [done|].
    apply elem_of_cons in Hcu as [->|Hcu]; [done|]. by apply elem_of_nil in Hcu. }
  destruct cu as [[agg_id col_id d]|]; [|by eexists].
  destruct (col_id =? 0); [by eexists|]. cbv zeta.
  apply resolved_ref_total; [done|]. by apply Forall_inv in Hcu'.
Qed.

Lemma extract_cols_from_val_unit_total vu schema role :
  schema_wf schema → Forall (index_not_below schema) (val_unit_col_ids vu) →
  ∃ refs, _extract_cols_from_val_unit vu schema role = Ok refs.
Proof.
  intros Hwf Hids. unfold _extract_cols_from_val_unit. apply for_extend_total.
  unfold val_unit_col_ids in Hids. apply Forall_app in Hids as [H1 H2].
  intros cu Hcu.
  assert (Hcu' : Forall (index_not_below schema) (col_unit_ids cu)).
  { apply elem_of_cons in Hcu as [->|Hcu]; [done|].
    apply elem_of_cons in Hcu as [->|Hcu]; [done|]. by apply elem_of_nil in Hcu. }
  destruct cu as [[agg_id col_id d]|]; [|by eexists].
  destruct (col_id =? 0); [by eexists|].
  apply resolved_ref_total; [done|]. by apply Forall_inv in Hcu'.
Qed.

Lemma extract_from_conds_total conds schema role :
  schema_wf schema →
  Forall (on_cond (λ q, ∀ schema, schema_wf schema →
            Forall (index_not_below schema) (sql_col_ids q) →
            ∃ refs, extract_roles q schema = Ok refs)) conds →
  Forall (index_not_below schema) (flat_map (cond_col_ids sql_col_ids) conds) →
  ∃ refs, _extract_from_conds extract_roles conds schema role = Ok refs.
Proof.
  intros Hwf Hconds Hids. unfold _extract_from_conds. apply for_extend_total.
  rewrite Forall_flat_map in Hids. rewrite Forall_forall in Hconds, Hids.
  intros [c|not_op op_id vu val1 val2] Hin; [by eexists|].
  specialize (Hconds _ Hin) as [H1 H2]. specialize (Hids _ Hin).
  cbn [cond_col_ids] in Hids.
  apply Forall_app in Hids as [Hvu Hvals]. apply Forall_app in Hvals as [Hv1 Hv2].
  destruct (extract_cols_from_val_unit_total vu schema role Hwf Hvu) as [left ->].
  cbn [mbind result_bind].
  assert (Hval : ∀ v : val,
    on_val (λ q, ∀ schema, schema_wf schema →
              Forall (index_not_below schema) (sql_col_ids q) →
              ∃ refs, extract_roles q schema = Ok refs) v →
    Forall (index_not_below schema) (val_col_ids sql_col_ids v) →
    ∃ l, cond_value_refs extract_roles schema role v = Ok l).
  { intros [|lit|[agg_id col_id d]|q'] Hq Hv; cbn [cond_value_refs val_col_ids on_val] in *.
    - by eexists.
    - by eexists.
    - destruct (col_id =? 0); cbn [negb]; [by eexists|].
      apply resolved_ref_total; [done|]. by apply Forall_inv in Hv.
    - by apply Hq. }
  destruct (Hval _ H1 Hv1) as [l1 Hl1], (Hval _ H2 Hv2) as [l2 Hl2].
  cbn [for_extend]. rewrite Hl1, Hl2. by eexists.
Qed.

Lemma extract_roles_total q :
  ∀ schema, schema_wf schema →
    Forall (index_not_below schema) (sql_col_ids q) →
    ∃ refs, extract_roles q schema = Ok refs.
Proof.
  induction q as [sel tus fc wh i u e Htus Hfc Hwh Hi Hu He] using sql_ind.
  intros schema Hwf.
  cbn [extract_roles sql_col_ids sql_select sql_from_table_units sql_from_conds
       sql_where sql_intersect sql_union sql_except].
  rewrite !conds_or_nothing. rewrite !Forall_app.
  intros (Hsel & Hjoin & Hwhere & Hfrom & Hops).
  assert (Eselect : ∃ r, _extract_from_select sel schema = Ok r).
  { destruct sel as [distinct items]. unfold _extract_from_select.
    apply for_extend_total. intros [agg_id vu] Hin.
    apply extract_from_val_unit_total; [done|].
    cbn [snd] in Hsel. rewrite Forall_flat_map, Forall_forall in Hsel.
    apply (Hsel (agg_id, vu) Hin). }
  destruct Eselect as [r_select ->].
  destruct (extract_from_conds_total fc schema JoinCond Hwf Hfc Hjoin) as [r_join ->].
  destruct (extract_from_conds_total wh schema WherePred Hwf Hwh Hwhere) as [r_where ->].
  assert (Efrom : ∃ r, for_extend (λ tu : table_unit,
                          match tu with
                          | SqlUnit q' => extract_roles q' schema
                          | TableUnit _ => Ok []
                          end) tus = Ok r).
  { apply for_extend_total. intros [idx|q'] Hin; [by eexists|].
    rewrite Forall_forall in Htus. apply (Htus _ Hin); [done|].
    rewrite Forall_flat_map, Forall_forall in Hfrom.
    apply (Hfrom (SqlUnit q') Hin). }
  destruct Efrom as [r_from ->].
  assert (Eops : ∃ r, for_extend (λ op : option sql,
                         match op with
                         | Some q' => extract_roles q' schema
                         | None => Ok []
                         end) [i; u; e] = Ok r).
  { apply for_extend_total. intros [q'|] Hin; [|by eexists].
    rewrite Forall_flat_map, Forall_forall in Hops.
    pose proof (Hops (Some q') Hin) as Hq'.
    apply elem_of_cons in Hin as [Heq|Hin]; [subst i; by apply Hi|].
    apply elem_of_cons in Hin as [Heq|Hin]; [subst u; by apply Hu|].
    apply elem_of_cons in Hin as [Heq|Hin]; [subst e; by apply He|].
    by apply elem_of_nil in Hin. }
  destruct Eops as [r_ops ->].
  cbn. by eexists.
Qed.

(** X5. On a schema whose owning-table indices are in range, extraction
    does not raise for a query none of whose column ids lies below
    [-len(schema.column_names)]: ids beyond the end are dropped and negative
    ids down to that bound index from the end. *)
Theorem extract_roles_does_not_raise (q : sql) (schema : TableSchema) :
  schema_wf schema →
  Forall (index_not_below schema) (sql_col_ids q) →
  ∃ refs, extract_roles q schema = Ok refs.
Proof. apply extract_roles_total. Qed.

(** The schemas of the scenarios have their table indices in range. *)
Ltac solve_schema_wf :=
  let Hin := fresh "Hin" in
  intros ? ? Hin;
  repeat (apply elem_of_cons in Hin as [Hin|Hin];
          [injection Hin as -> ->; vm_compute; reflexivity|]);
  by apply elem_of_nil in Hin.

Lemma extract_roles_does_not_raise_witness :
  ∃ refs, extract_roles (where_query (-1)) school_schema = Ok refs.
Proof.
  apply extract_roles_does_not_raise.
  - solve_schema_wf.
  - repeat constructor; vm_compute; discriminate.
Defined.

(** ** Column lookup: role_extractor.py, types.py, spider_loader.py *)

Lemma resolve_col_id_table_idx schema col_id table column :
  col_id ≠ 0 →
  _resolve_col_id schema col_id = Ok (table, column) →
  table ≠ EmptyString →
  ∃ table_idx,
    py_getitem (column_names schema) col_id = Ok (table_idx, column)
    ∧ 0 ≤ table_idx
    ∧ py_getitem (table_names schema) table_idx = Ok table.
Proof.
  intros Hnz Hres Htable. unfold _resolve_col_id in Hres.
  destruct (Z.eqb_spec col_id 0); [done|].
  destruct (col_id >=? _); [by injection Hres as <- <-|].
  apply bind_Ok_inv in Hres as ([table_idx col_name] & Hcol & Hres).
  destruct (Z.ltb_spec table_idx 0); [by injection Hres as <- <-|].
  apply bind_Ok_inv in Hres as (table' & Htab & [= <- <-]).
  by exists table_idx.
Qed.

(** X6. Where [_resolve_col_id] finds a column with a non-empty table name
    for a non-zero id, the two other lookups of the code agree with it:
    [get_column_by_id] returns the same pair and
    [TableSchema.resolve_column] returns the key [table.column] under which
    the checker looks up the policy. *)
Theorem column_lookups_agree (schema : TableSchema) (col_id : Z)
    (table column : string) (role : RoleType) (agg_id : Z) :
  col_id ≠ 0 →
  _resolve_col_id schema col_id = Ok (table, column) →
  table ≠ EmptyString →
  get_column_by_id schema col_id = Ok (table, column)
  ∧ resolve_column schema col_id
    = Ok (col_key_of (mkColumnRef table column role agg_id)).
Proof.
  intros Hnz Hres Htable.
  destruct (resolve_col_id_table_idx _ _ _ _ Hnz Hres Htable)
    as (table_idx & Hcol & Hpos & Htab).
  unfold get_column_by_id, resolve_column, col_key_of.
  destruct (Z.eqb_spec col_id 0); [done|].
  rewrite Hcol. cbn. destruct (Z.ltb_spec table_idx 0); [lia|].
  rewrite Htab. done.
Qed.

Lemma column_lookups_agree_witness :
  get_column_by_id school_schema 3 = Ok ("Student", "email")
  ∧ resolve_column school_schema 3
    = Ok (col_key_of (mkColumnRef "Student" "email" SelectExpr 0)).
Proof.
  apply column_lookups_agree.
  - discriminate.
  - vm_compute. reflexivity.
  - discriminate.
Defined.

(** X7. Only [_resolve_col_id] guards the end of the column list: for an
    id at or beyond [len(schema.column_names)] (and not 0) it answers the
    empty pair, whereas [get_column_by_id] and [TableSchema.resolve_column]
    raise [IndexError]. *)
Theorem column_lookups_beyond_end (schema : TableSchema) (col_id : Z) :
  col_id ≠ 0 →
  Z.of_nat (length (column_names schema)) ≤ col_id →
  _resolve_col_id schema col_id = Ok (EmptyString, EmptyString)
  ∧ get_column_by_id schema col_id = Raise IndexError
  ∧ resolve_column schema col_id = Raise IndexError.
Proof.
  intros Hnz Hlen.
  assert (Hraise : py_getitem (column_names schema) col_id = Raise IndexError).
  { unfold py_getitem. destruct (Z.ltb_spec col_id 0); [lia|].
    destruct (Z.ltb_spec col_id 0); [lia|].
    by destruct (Z.leb_spec (Z.of_nat (length (column_names schema))) col_id); [|lia]. }
  unfold _resolve_col_id, get_column_by_id, resolve_column.
  destruct (Z.eqb_spec col_id 0); [done|]. rewrite Hraise.
  by destruct (Z.geb_spec col_id (Z.of_nat (length (column_names schema)))); [|lia].
Qed.

Lemma column_lookups_beyond_end_witness :
  _resolve_col_id school_schema 6 = Ok (EmptyString, EmptyString)
  ∧ get_column_by_id school_schema 6 = Raise IndexError
  ∧ resolve_column school_schema 6 = Raise IndexError.
Proof.
  apply column_lookups_beyond_end.
  - discriminate.
  - vm_compute. discriminate.
Defined.

(** ** rewriter.py: the column keys *)

Lemma str_split_nonempty sep s : str_split sep s ≠ [].
Proof.
  destruct s as [|c s]; cbn [str_split]; [done|].
  destruct (bool_decide (c = sep)); [done|]. by destruct (str_split sep s).
Qed.

Lemma str_split_append sep a b :
  str_split sep (a +:+ String sep b) = str_split sep a ++ str_split sep b.
Proof.
  induction a as [|c a IH]; simpl.
  - by rewrite bool_decide_eq_true_2.
  - rewrite IH. destruct (bool_decide (c = sep)); [done|].
    pose proof (str_split_nonempty sep a). by destruct (str_split sep a).
Qed.

Lemma str_split_no_sep sep s : sep ∉ chars s → str_split sep s = [s].
Proof.
  induction s as [|c s IH]; cbn [str_split chars list_ascii_of_string]; [done|].
  intros Hnot. apply not_elem_of_cons in Hnot as [Hc Hs].
  rewrite bool_decide_eq_false_2 by done. by rewrite (IH Hs).
Qed.

Lemma last_app_nonempty {A} (l1 l2 : list A) (x d : A) :
  List.last (l1 ++ x :: l2) d = List.last (x :: l2) d.
Proof.
  induction l1 as [|y l1 IH]; [done|].
  cbn [app]. rewrite <- IH. cbn [List.last]. by destruct (l1 ++ x :: l2) eqn:E;
    [destruct l1; discriminate E|].
Qed.

Lemma split_first_key table column :
  split_first (table +:+ "." +:+ column) = split_first table.
Proof.
  unfold split_first. change ("." +:+ column) with (String "." column).
  rewrite str_split_append.
  pose proof (str_split_nonempty "." table) as Hne.
  destruct (str_split "." table) as [|part parts]; [done|]. reflexivity.
Qed.

Lemma split_last_key table column :
  split_last (table +:+ "." +:+ column) = split_last column.
Proof.
  unfold split_last. change ("." +:+ column) with (String "." column).
  rewrite str_split_append.
  pose proof (str_split_nonempty "." column) as Hne.
  destruct (str_split "." column) as [|part parts] eqn:Hsplit; [done|].
  apply last_app_nonempty.
Qed.

Lemma split_first_no_dot s : dot ∉ chars s → split_first s = s.
Proof.
  intros Hs. unfold split_first. unfold dot in Hs.
  by rewrite (str_split_no_sep _ _ Hs).
Qed.

Lemma split_last_no_dot s : dot ∉ chars s → split_last s = s.
Proof.
  intros Hs. unfold split_last. unfold dot in Hs.
  by rewrite (str_split_no_sep _ _ Hs).
Qed.

(** X8. The rewriter decodes the keys that the checker builds: from the key
    [table.column] of a reference, [split(".")[0]] gives the table name and
    [split(".")[-1]] the column name, provided that the table name, for the
    first, and the column name, for the second, contain no dot; in general
    they give the part of the table name before its first dot and the part
    of the column name after its last dot. *)
Theorem column_key_round_trip (ref : ColumnRef) :
  split_first (col_key_of ref) = split_first (ref_table ref)
  ∧ split_last (col_key_of ref) = split_last (ref_column ref)
  ∧ (dot ∉ chars (ref_table ref) → split_first (col_key_of ref) = ref_table ref)
  ∧ (dot ∉ chars (ref_column ref) → split_last (col_key_of ref) = ref_column ref).
Proof.
  unfold col_key_of.
  split; [apply split_first_key|]. split; [apply split_last_key|].
  split; intros Hdot.
  - by rewrite split_first_key, split_first_no_dot.
  - by rewrite split_last_key, split_last_no_dot.
Qed.

(** ** rewriter.py: one pass *)

(** What one violation does to the text and to the remaining list. *)
Lemma rewrite_one_violation v query schema policies query1 kept :
  match v_policy v with
  | Hidden =>
      replacement ← _find_id_column (v_column v) schema policies;
      match replacement with
      | Some new_col =>
          if str_truthy new_col then
            query' ← _replace_column query (v_column v) new_col;
            Ok (query', [])
          else Ok (query, [v])
      | None => Ok (query, [v])
      end
  | AggOnly =>
      let col_name := split_last (v_column v) in
      let new_query := _wrap_with_avg query col_name in
      if negb (String.eqb new_query query) then Ok (new_query, [])
      else Ok (query, [v])
  | _ => Ok (query, [])
  end = Ok (query1, kept) →
  kept = []
  ∨ (kept = [v] ∧ query1 = query ∧ (v_policy v = Hidden ∨ v_policy v = AggOnly)).
Proof.
  destruct (v_policy v) eqn:Hpolicy.
  - intros [= <- <-]. by left.
  - intros [= <- <-]. by left.
  - cbv zeta. destruct (negb _); intros [= <- <-]; [by left|right; auto].
  - intros ([new_col|] & _ & Hrest)%bind_Ok_inv.
    + destruct (str_truthy new_col).
      * apply bind_Ok_inv in Hrest as (query' & _ & [= <- <-]). by left.
      * injection Hrest as <- <-. right; auto.
    + injection Hrest as <- <-. right; auto.
Qed.

Lemma apply_rewrite_step_remaining violations :
  ∀ query schema policies query' remaining,
    _apply_rewrite_step query violations schema policies = Ok (query', remaining) →
    remaining `sublist_of` violations
    ∧ Forall (λ v, v_policy v = Hidden ∨ v_policy v = AggOnly) remaining
    ∧ (remaining = violations → query' = query).
Proof.
  induction violations as [|v violations IH];
    intros query schema policies query' remaining.
  - intros [= <- <-]. split; [constructor|]. split; [constructor|done].
  - cbn [_apply_rewrite_step].
    intros ([query1 kept] & Hone & Hrest)%bind_Ok_inv.
    apply bind_Ok_inv in Hrest as ([query2 remaining'] & Hstep & [= <- <-]).
    destruct (IH _ _ _ _ _ Hstep) as (Hsub & Hall & Hsame).
    apply rewrite_one_violation in Hone as [->|(-> & -> & Hpolicy)]; cbn [app].
    + split; [by apply sublist_cons|]. split; [done|].
      intros Heq. apply sublist_length in Hsub. rewrite Heq in Hsub.
      cbn in Hsub. lia.
    + split; [by apply sublist_skip|]. split; [by constructor|].
      intros [= Heq]. by apply Hsame.
Qed.

(** X9. A pass of [_apply_rewrite_step] that does not raise leaves a
    sublist of the violations it was given, in their order; what it leaves
    are violations with policy Hidden or AggOnly only (violations with
    another policy are dropped without any rewrite); and if it leaves all
    of them, it has not changed the text. *)
Theorem apply_rewrite_step_leaves_sublist (query : string)
    (violations : list Violation) (schema : TableSchema)
    (policies : gmap string PolicyType) (query' : string)
    (remaining : list Violation) :
  _apply_rewrite_step query violations schema policies = Ok (query', remaining) →
  remaining `sublist_of` violations
  ∧ Forall (λ v, v_policy v = Hidden ∨ v_policy v = AggOnly) remaining
  ∧ (remaining = violations → query' = query).
Proof. apply apply_rewrite_step_remaining. Qed.

Lemma apply_rewrite_step_leaves_sublist_witness :
  [email_selected] `sublist_of` [email_selected]
  ∧ Forall (λ v, v_policy v = Hidden ∨ v_policy v = AggOnly) [email_selected]
  ∧ ([email_selected] = [email_selected] →
     "SELECT email FROM Student" = "SELECT email FROM Student").
Proof.
  apply (apply_rewrite_step_leaves_sublist "SELECT email FROM Student"
           [email_selected] school_schema email_only_policies).
  vm_compute. reflexivity.
Defined.

(** ** rewriter.py: refusals *)

Lemma unfixable_exit violations v :
  v ∈ violations → unfixable v = true →
  rewrite_exit_of violations = ExitPredicate
  ∨ rewrite_exit_of violations = ExitBadAggregate
  ∨ rewrite_exit_of violations = ExitAggregate
  ∨ rewrite_exit_of violations = ExitJoinOnly.
Proof.
  intros Hin Hv. unfold rewrite_exit_of.
  destruct violations as [|v0 vs] eqn:Hvs; [by apply elem_of_nil in Hin|].
  rewrite <- Hvs in *. apply list_elem_of_In in Hin.
  destruct (find predicate_on_forbidden violations) eqn:H1; [auto|].
  destruct (find aggonly_bad_aggregate violations) eqn:H2; [auto|].
  destruct (find aggregate_on_forbidden violations) eqn:H3; [auto|].
  destruct (find joinonly_selected violations) eqn:H4; [auto|].
  exfalso. unfold unfixable in Hv.
  rewrite (find_none _ _ H1 v Hin), (find_none _ _ H2 v Hin),
    (find_none _ _ H3 v Hin), (find_none _ _ H4 v Hin) in Hv. done.
Qed.

(** X10. Whenever some violation of the list meets one of the four
    refusal tests of [rewrite] (predicate position on a Hidden or AggOnly
    column, AggOnly column under an aggregate other than count and avg,
    aggregate on a Hidden or JoinOnly column, JoinOnly column in the SELECT
    list), [rewrite] answers [Refused] without raising, whatever else the
    list holds. *)
Theorem rewrite_refuses_unfixable (query : string) (violations : list Violation)
    (schema : TableSchema) (policies : gmap string PolicyType) (v : Violation) :
  v ∈ violations → unfixable v = true →
  ∃ why, rewrite query violations schema policies = Ok (Refused why).
Proof.
  intros Hin Hv.
  pose proof (rewrite_by_exit query violations schema policies) as Hrw.
  by destruct (unfixable_exit _ _ Hin Hv) as [E|[E|[E|E]]]; rewrite E in Hrw.
Qed.

Lemma rewrite_refuses_unfixable_witness :
  ∃ why, rewrite "SELECT email, emp_id FROM Student"
           [email_selected; mkViolation "Employee.emp_id" SelectExpr JoinOnly 0]
           school_schema school_policies = Ok (Refused why).
Proof.
  apply (rewrite_refuses_unfixable _ _ _ _
           (mkViolation "Employee.emp_id" SelectExpr JoinOnly 0)).
  - apply list_elem_of_further, list_elem_of_here.
  - vm_compute. reflexivity.
Defined.

Lemma rewrite_passes_shape n :
  ∀ query violations schema policies r,
    rewrite_passes n query violations schema policies = Ok r →
    (∃ query', r = Success query') ∨ r = Refused "Rewrite limit exceeded".
Proof.
  induction n as [|n IH]; intros query violations schema policies r;
    cbn [rewrite_passes].
  - intros [= <-]. by right.
  - intros ([query' [|v remaining]] & _ & Hrest)%bind_Ok_inv.
    + injection Hrest as <-. left. by eexists.
    + by eapply IH.
Qed.

Lemma rewrite_shape query violations schema policies r :
  rewrite query violations schema policies = Ok r →
  (∃ query', r = Success query') ∨ (∃ why, r = Refused why).
Proof.
  intros Hr. pose proof (rewrite_by_exit query violations schema policies) as Hrw.
  assert (Hsuccess : ∀ q, Ok r = Ok (Success q) →
            (∃ query', r = Success query') ∨ (∃ why, r = Refused why))
    by (intros q [= ->]; left; by eexists).
  assert (Hrefused : (∃ why, Ok r = Ok (Refused why)) →
            (∃ query', r = Success query') ∨ (∃ why, r = Refused why))
    by (intros [why [= ->]]; right; by eexists).
  rewrite Hr in Hrw. destruct (rewrite_exit_of violations); eauto.
  symmetry in Hrw.
  apply rewrite_passes_shape in Hrw as [?| ->]; [by left|right; by eexists].
Qed.

(** X11. What [rewrite] returns is either a success that carries a query
    text and no reason, or a refusal that carries a reason and no text; and
    a success certifies that no violation of the list met a refusal test. *)
Theorem rewrite_result_shape (query : string) (violations : list Violation)
    (schema : TableSchema) (policies : gmap string PolicyType)
    (r : RewriteResult) :
  rewrite query violations schema policies = Ok r →
  ((∃ query', r = mkRewriteResult true (Some query') None)
   ∨ (∃ why, r = mkRewriteResult false None (Some why)))
  ∧ (success r = true → Forall (λ v, unfixable v = false) violations).
Proof.
  intros Hr. split; [by apply rewrite_shape in Hr|].
  intros Hsuccess. apply Forall_forall. intros v Hin.
  destruct (unfixable v) eqn:Hv; [|done].
  pose proof (rewrite_by_exit query violations schema policies) as Hrw.
  destruct (unfixable_exit _ _ Hin Hv) as [E|[E|[E|E]]]; rewrite E in Hrw;
    destruct Hrw as [why Hrw]; rewrite Hr in Hrw; injection Hrw as ->; done.
Qed.

Lemma rewrite_result_shape_witness :
  ((∃ query', Success "SELECT AVG(salary) FROM Employee"
              = mkRewriteResult true (Some query') None)
   ∨ (∃ why, Success "SELECT AVG(salary) FROM Employee"
             = mkRewriteResult false None (Some why)))
  ∧ (success (Success "SELECT AVG(salary) FROM Employee") = true →
     Forall (λ v, unfixable v = false) [salary_selected]).
Proof.
  apply (rewrite_result_shape "SELECT salary FROM Employee" [salary_selected]
           school_schema school_policies).
  vm_compute. reflexivity.
Defined.

(** ** rewriter.py: what the schema and the policy map are used for *)

Lemma apply_rewrite_step_without_hidden violations :
  ∀ query, Forall (λ v, v_policy v ≠ Hidden) violations →
    ∃ query' remaining,
      Forall (λ v, v_policy v ≠ Hidden) remaining
      ∧ ∀ schema policies,
          _apply_rewrite_step query violations schema policies
          = Ok (query', remaining).
Proof.
  induction violations as [|v violations IH]; intros query Hall.
  - exists query, []. split; [constructor|done].
  - apply Forall_cons in Hall as [Hv Hall]. cbn [_apply_rewrite_step].
    destruct (v_policy v) eqn:Hpolicy; [| | |done].
    + destruct (IH query Hall) as (query' & remaining & Hrem & Hstep).
      exists query', remaining. split; [done|]. intros schema policies.
      cbn. by rewrite Hstep.
    + destruct (IH query Hall) as (query' & remaining & Hrem & Hstep).
      exists query', remaining. split; [done|]. intros schema policies.
      cbn. by rewrite Hstep.
    + cbv zeta.
      destruct (negb (String.eqb (_wrap_with_avg query (split_last (v_column v)))
                        query)).
      * destruct (IH (_wrap_with_avg query (split_last (v_column v))) Hall)
          as (query' & remaining & Hrem & Hstep).
        exists query', remaining. split; [done|]. intros schema policies.
        cbn [mbind result_bind]. by rewrite Hstep.
      * destruct (IH query Hall) as (query' & remaining & Hrem & Hstep).
        exists query', (v :: remaining).
        split; [constructor; [by rewrite Hpolicy|done]|].
        intros schema policies. cbn [mbind result_bind]. by rewrite Hstep.
Qed.

Lemma rewrite_passes_without_hidden n :
  ∀ query violations, Forall (λ v, v_policy v ≠ Hidden) violations →
    ∃ r, ∀ schema policies,
      rewrite_passes n query violations schema policies = Ok r.
Proof.
  induction n as [|n IH]; intros query violations Hall; cbn [rewrite_passes].
  - by eexists.
  - destruct (apply_rewrite_step_without_hidden violations query Hall)
      as (query' & [|v remaining] & Hrem & Hstep).
    + exists (Success query'). intros schema policies. by rewrite Hstep.
    + destruct (IH query' (v :: remaining) Hrem) as [r Hr].
      exists r. intros schema policies. rewrite Hstep. cbn. apply Hr.
Qed.

(** X12. If no violation of the list has policy Hidden, [rewrite] never
    raises and its answer depends on neither the schema nor the policy map:
    both are read only to replace Hidden columns. *)
Theorem rewrite_without_hidden (query : string) (violations : list Violation) :
  Forall (λ v, v_policy v ≠ Hidden) violations →
  ∃ r, ∀ schema policies, rewrite query violations schema policies = Ok r.
Proof.
  intros Hall. unfold rewrite.
  destruct violations as [|v0 vs] eqn:Hvs; [by eexists|]. rewrite <- Hvs in *.
  destruct (find predicate_on_forbidden violations); [by eexists|].
  destruct (find aggonly_bad_aggregate violations); [by eexists|].
  destruct (find aggregate_on_forbidden violations); [by eexists|].
  destruct (find joinonly_selected violations); [by eexists|].
  destruct (filter (λ v, v_role v = SelectExpr) violations) as [|v1 sv] eqn:Hsv;
    [by eexists|].
  rewrite <- Hsv. apply rewrite_passes_without_hidden.
  apply Forall_forall. intros v [_ Hin]%list_elem_of_filter.
  rewrite Forall_forall in Hall. by apply Hall.
Qed.

Lemma rewrite_without_hidden_witness :
  ∃ r, ∀ schema policies,
    rewrite "SELECT salary FROM Employee" [salary_selected] schema policies = Ok r.
Proof.
  apply rewrite_without_hidden. repeat constructor. discriminate.
Defined.

(** ** rewriter.py: the replacement that is found *)

Lemma id_candidate_elem table_lower schema policies col_id table_idx col_name l c :
  id_candidate table_lower schema policies (col_id, (table_idx, col_name)) = Ok l →
  c ∈ l →
  col_id ≠ 0 ∧ 0 ≤ table_idx
  ∧ ∃ table, py_getitem (table_names schema) table_idx = Ok table
             ∧ lower table = table_lower
             ∧ is_id_column col_name = true
             ∧ policies !! (table +:+ "." +:+ col_name) = Some Public
             ∧ c = (bool_decide (col_id ∈ primary_keys schema), col_id,
                    table +:+ "." +:+ col_name).
Proof.
  unfold id_candidate.
  destruct (Z.eqb_spec col_id 0); [by intros [= <-] ?%elem_of_nil|].
  destruct (Z.ltb_spec table_idx 0); [by intros [= <-] ?%elem_of_nil|].
  intros (table & Htab & Hrest)%bind_Ok_inv.
  destruct (String.eqb_spec (lower table) table_lower) as [Hlow|];
    cbn [negb] in Hrest; [|by injection Hrest as <-; intros ?%elem_of_nil].
  destruct (is_id_column col_name) eqn:Hid; cbn [andb] in Hrest;
    [|by injection Hrest as <-; intros ?%elem_of_nil].
  destruct (decide (policies !! (table +:+ "." +:+ col_name) = Some Public))
    as [Hpol|Hpol].
  - rewrite (bool_decide_eq_true_2 _ Hpol) in Hrest. injection Hrest as <-.
    intros ->%list_elem_of_singleton. split; [done|]. split; [done|].
    by exists table.
  - rewrite (bool_decide_eq_false_2 _ Hpol) in Hrest. injection Hrest as <-.
    by intros ?%elem_of_nil.
Qed.

Lemma find_id_column_found column schema policies replacement :
  _find_id_column column schema policies = Ok (Some replacement) →
  ∃ col_id table_idx col_name table,
    (col_id, (table_idx, col_name)) ∈ enumerate (column_names schema)
    ∧ col_id ≠ 0 ∧ 0 ≤ table_idx
    ∧ py_getitem (table_names schema) table_idx = Ok table
    ∧ lower table = lower (split_first column)
    ∧ is_id_column col_name = true
    ∧ policies !! replacement = Some Public
    ∧ replacement = table +:+ "." +:+ col_name.
Proof.
  rewrite find_id_column_sorted.
  intros (candidates & Hcands & Hfirst)%bind_Ok_inv.
  destruct (sort_by_key candidates) as [|first rest] eqn:Hsorted; [done|].
  injection Hfirst as <-.
  assert (Hin : first ∈ candidates).
  { apply elem_of_sort_by_key. rewrite Hsorted. apply list_elem_of_here. }
  unfold find_id_candidates in Hcands.
  apply (for_extend_Ok_elem _ _ _ Hcands) in Hin
    as ([col_id [table_idx col_name]] & l & Hentry & Hl & Hc).
  destruct (id_candidate_elem _ _ _ _ _ _ _ _ Hl Hc)
    as (Hnz & Hpos & table & Htab & Hlow & Hid & Hpol & ->).
  exists col_id, table_idx, col_name, table. cbn [snd]. by repeat split.
Qed.

(** X13. A replacement that [_find_id_column] returns is the key
    [table.column] of a column of the schema whose table name equals, in
    lower case, the table part of the violating column and whose name
    matches an id pattern; the policy map holds Public for it. So a column
    with a Hidden, AggOnly or JoinOnly entry is never proposed, the violating
    column itself least of all. *)
Theorem find_id_column_result_is_public (column : string) (schema : TableSchema)
    (policies : gmap string PolicyType) (replacement : string) :
  _find_id_column column schema policies = Ok (Some replacement) →
  policies !! replacement = Some Public
  ∧ (∀ policy, policies !! column = Some policy → policy ≠ Public →
       replacement ≠ column)
  ∧ ∃ col_id table_idx col_name table,
      0 < col_id
      ∧ column_names schema !! Z.to_nat col_id = Some (table_idx, col_name)
      ∧ 0 ≤ table_idx
      ∧ table_names schema !! Z.to_nat table_idx = Some table
      ∧ lower table = lower (split_first column)
      ∧ is_id_column col_name = true
      ∧ replacement = table +:+ "." +:+ col_name.
Proof.
  intros Hfound.
  destruct (find_id_column_found _ _ _ _ Hfound)
    as (col_id & table_idx & col_name & table & [Hpos Hcol]%elem_of_enumerate
        & Hnz & Htpos & Htab & Hlow & Hid & Hpol & Hkey).
  split; [done|]. split.
  - intros policy Hcolumn Hnot ->. rewrite Hpol in Hcolumn. by injection Hcolumn as <-.
  - exists col_id, table_idx, col_name, table.
    repeat split; try done; [lia|].
    unfold py_getitem in Htab. destruct (Z.ltb_spec table_idx 0); [lia|].
    destruct (_ || _); [done|].
    by destruct (table_names schema !! Z.to_nat table_idx) as [t|];
      [injection Htab as ->|].
Qed.

Lemma find_id_column_result_is_public_witness :
  school_policies !! "Student.id" = Some Public
  ∧ (∀ policy, school_policies !! "Student.email" = Some policy →
       policy ≠ Public → "Student.id" ≠ "Student.email")
  ∧ ∃ col_id table_idx col_name table,
      0 < col_id
      ∧ column_names school_schema !! Z.to_nat col_id = Some (table_idx, col_name)
      ∧ 0 ≤ table_idx
      ∧ table_names school_schema !! Z.to_nat table_idx = Some table
      ∧ lower table = lower (split_first "Student.email")
      ∧ is_id_column col_name = true
      ∧ "Student.id" = table +:+ "." +:+ col_name.
Proof.
  apply (find_id_column_result_is_public "Student.email" school_schema
           school_policies "Student.id").
  vm_compute. reflexivity.
Defined.

(** ** policy_assigner.py *)

Lemma assign_policy_id_column name :
  assign_policy name = JoinOnly ↔ is_id_column name = true.
Proof.
  unfold assign_policy, is_id_column, POLICY_RULES, id_patterns, rule_matches.
  cbn [find existsb fst snd].
  repeat (match goal with
          | |- context [bool_decide (is_Some (re_search ?r ?t))] =>
              destruct (bool_decide (is_Some (re_search r t)));
              cbn [orb]; [done|]
          end).
  done.
Qed.

(** X14. The rewriter's id patterns are the JoinOnly rules of the policy
    assigner: [assign_policy] answers JoinOnly for exactly the column names
    that [_find_id_column] accepts as id-like, so a column that the
    assigner leaves Public is never id-like. *)
Theorem assign_policy_joinonly_iff_id_column (name : string) :
  (assign_policy name = JoinOnly ↔ is_id_column name = true)
  ∧ (assign_policy name = Public → is_id_column name = false).
Proof.
  split; [apply assign_policy_id_column|].
  intros Hpublic. destruct (is_id_column name) eqn:Hid; [|done].
  apply assign_policy_id_column in Hid. congruence.
Qed.

Lemma elem_of_py_range start stop i : i ∈ py_range start stop ↔ start ≤ i < stop.
Proof. unfold py_range. rewrite elem_of_seqZ. lia. Qed.

(** The loop of [assign_policies_for_db]: where the entries of the result
    come from, and which columns are sure to have one. *)
Lemma assign_policies_loop_spec schema col_ids :
  ∀ policies result_policies,
    assign_policies_loop col_ids schema policies = Ok result_policies →
    (∀ key policy, result_policies !! key = Some policy →
       policies !! key = Some policy
       ∨ ∃ col_id table_idx col_name table,
           col_id ∈ col_ids
           ∧ py_getitem (column_names schema) col_id = Ok (table_idx, col_name)
           ∧ 0 ≤ table_idx
           ∧ py_getitem (table_names schema) table_idx = Ok table
           ∧ key = table +:+ "." +:+ col_name
           ∧ policy = assign_policy col_name)
    ∧ (∀ key, is_Some (policies !! key) → is_Some (result_policies !! key))
    ∧ (∀ col_id table_idx col_name,
         col_id ∈ col_ids →
         py_getitem (column_names schema) col_id = Ok (table_idx, col_name) →
         0 ≤ table_idx →
         ∃ table, py_getitem (table_names schema) table_idx = Ok table
                  ∧ is_Some (result_policies !! (table +:+ "." +:+ col_name))).
Proof.
  induction col_ids as [|col_id col_ids IH]; intros policies result_policies.
  - intros [= <-]. split; [auto|]. split; [done|].
    intros ??? Hin. by apply elem_of_nil in Hin.
  - cbn [assign_policies_loop].
    intros ([table_idx col_name] & Hcol & Hrest)%bind_Ok_inv.
    destruct (Z.ltb_spec table_idx 0) as [Hneg|Hpos].
    + destruct (IH _ _ Hrest) as (Hfrom & Hkeep & Hhas).
      split; [|split; [done|]].
      * intros key policy Hkey. destruct (Hfrom key policy Hkey)
          as [?|(c & t & n & tab & Hin & ?)]; [by left|].
        right. exists c, t, n, tab. split; [by apply list_elem_of_further|done].
      * intros c t n Hin Hc Ht. apply elem_of_cons in Hin as [->|Hin].
        -- rewrite Hcol in Hc. injection Hc as <- <-. lia.
        -- by eapply Hhas.
    + apply bind_Ok_inv in Hrest as (table & Htab & Hrest).
      destruct (IH _ _ Hrest) as (Hfrom & Hkeep & Hhas).
      split; [|split].
      * intros key policy Hkey. destruct (Hfrom key policy Hkey)
          as [Hins|(c & t & n & tab & Hin & ?)].
        -- destruct (decide (key = table +:+ "." +:+ col_name)) as [->|Hne].
           ++ rewrite lookup_insert_eq in Hins. injection Hins as <-.
              right. exists col_id, table_idx, col_name, table.
              split; [apply list_elem_of_here|done].
           ++ rewrite lookup_insert_ne in Hins by done. by left.
        -- right. exists c, t, n, tab. split; [by apply list_elem_of_further|done].
      * intros key Hkey. apply Hkeep.
        destruct (decide (key = table +:+ "." +:+ col_name)) as [->|Hne].
        -- rewrite lookup_insert_eq. by eexists.
        -- by rewrite lookup_insert_ne.
      * intros c t n Hin Hc Ht. apply elem_of_cons in Hin as [->|Hin].
        -- rewrite Hcol in Hc. injection Hc as <- <-. exists table.
           split; [done|]. apply Hkeep. rewrite lookup_insert_eq. by eexists.
        -- by eapply Hhas.
Qed.

Lemma py_getitem_lookup {A} (l : list A) (i : Z) (a : A) :
  0 ≤ i → py_getitem l i = Ok a ↔ l !! Z.to_nat i = Some a.
Proof.
  intros Hi. unfold py_getitem. destruct (Z.ltb_spec i 0); [lia|].
  destruct (Z.ltb_spec i 0); [lia|].
  destruct (Z.leb_spec (Z.of_nat (length l)) i) as [Hge|Hlt]; cbn.
  - rewrite lookup_ge_None_2 by lia. done.
  - destruct (l !! Z.to_nat i) as [a'|]; [|done].
    split; by intros [= ->].
Qed.

Lemma assign_policies_for_db_spec schema policies :
  assign_policies_for_db schema = Ok policies →
  (∀ key policy, policies !! key = Some policy →
     ∃ col_id table_idx col_name table,
       0 < col_id
       ∧ column_names schema !! Z.to_nat col_id = Some (table_idx, col_name)
       ∧ 0 ≤ table_idx
       ∧ table_names schema !! Z.to_nat table_idx = Some table
       ∧ key = table +:+ "." +:+ col_name
       ∧ policy = assign_policy col_name)
  ∧ (∀ col_id table_idx col_name,
       0 < col_id →
       column_names schema !! Z.to_nat col_id = Some (table_idx, col_name) →
       0 ≤ table_idx →
       ∃ table, table_names schema !! Z.to_nat table_idx = Some table
                ∧ is_Some (policies !! (table +:+ "." +:+ col_name))).
Proof.
  intros Hassign. unfold assign_policies_for_db in Hassign.
  destruct (assign_policies_loop_spec _ _ _ _ Hassign) as (Hfrom & _ & Hhas).
  split.
  - intros key policy Hkey.
    destruct (Hfrom key policy Hkey) as [Hempty|(c & t & n & tab & Hin & Hc & Ht & Htab & ?)].
    { by rewrite lookup_empty in Hempty. }
    apply elem_of_py_range in Hin.
    exists c, t, n, tab. split; [lia|].
    split; [by apply py_getitem_lookup in Hc; [|lia]|].
    split; [done|]. split; [by apply py_getitem_lookup in Htab|done].
  - intros c t n Hc Hlookup Ht.
    destruct (Hhas c t n) as (table & Htab & Hsome); [| |done|].
    + apply elem_of_py_range. apply lookup_lt_Some in Hlookup. lia.
    + apply py_getitem_lookup; [lia|done].
    + exists table. split; [by apply py_getitem_lookup in Htab|done].
Qed.

(** X15. When [assign_policies_for_db] returns, every column of the schema
    with an owning table (and an id of at least 1) has an entry under its
    key [table.column], and every entry of the map is the policy that
    [assign_policy] gives to the name of a column with that key. *)
Theorem assign_policies_for_db_entries (schema : TableSchema)
    (policies : gmap string PolicyType) :
  assign_policies_for_db schema = Ok policies →
  (∀ col_id table_idx col_name,
     0 < col_id →
     column_names schema !! Z.to_nat col_id = Some (table_idx, col_name) →
     0 ≤ table_idx →
     ∃ table, table_names schema !! Z.to_nat table_idx = Some table
              ∧ is_Some (policies !! (table +:+ "." +:+ col_name)))
  ∧ (∀ key policy, policies !! key = Some policy →
       ∃ col_id table_idx col_name table,
         0 < col_id
         ∧ column_names schema !! Z.to_nat col_id = Some (table_idx, col_name)
         ∧ 0 ≤ table_idx
         ∧ table_names schema !! Z.to_nat table_idx = Some table
         ∧ key = table +:+ "." +:+ col_name
         ∧ policy = assign_policy col_name).
Proof.
  intros Hassign. destruct (assign_policies_for_db_spec _ _ Hassign). by split.
Qed.

Lemma assign_policies_loop_total schema col_ids :
  schema_wf schema →
  Forall (λ col_id, 0 ≤ col_id < Z.of_nat (length (column_names schema))) col_ids →
  ∀ policies, ∃ result_policies,
    assign_policies_loop col_ids schema policies = Ok result_policies.
Proof.
  intros Hwf. induction 1 as [|col_id col_ids Hid _ IH]; intros policies.
  - by eexists.
  - cbn [assign_policies_loop].
    destruct (py_getitem_total (column_names schema) col_id)
      as ([table_idx col_name] & -> & Hin); [lia|]. cbn.
    destruct (Z.ltb_spec table_idx 0); [apply IH|].
    destruct (py_getitem_total (table_names schema) table_idx) as (table & -> & _).
    { specialize (Hwf _ _ Hin). lia. }
    cbn. apply IH.
Qed.

(** X16. [assign_policies_for_db] raises only through a table index beyond
    [schema.table_names]: on a schema whose table indices are in range it
    returns a policy map. *)
Theorem assign_policies_for_db_total (schema : TableSchema) :
  schema_wf schema → ∃ policies, assign_policies_for_db schema = Ok policies.
Proof.
  intros Hwf. apply assign_policies_loop_total; [done|].
  apply Forall_forall. intros i Hi%elem_of_py_range. lia.
Qed.

Lemma assign_policies_for_db_total_witness :
  ∃ policies, assign_policies_for_db school_schema = Ok policies.
Proof. apply assign_policies_for_db_total. solve_schema_wf. Defined.

Lemma assign_policies_for_db_entries_witness :
  (∀ col_id table_idx col_name,
     0 < col_id →
     column_names school_schema !! Z.to_nat col_id = Some (table_idx, col_name) →
     0 ≤ table_idx →
     ∃ table, table_names school_schema !! Z.to_nat table_idx = Some table
              ∧ is_Some (school_generated_policies !! (table +:+ "." +:+ col_name)))
  ∧ (∀ key policy, school_generated_policies !! key = Some policy →
       ∃ col_id table_idx col_name table,
         0 < col_id
         ∧ column_names school_schema !! Z.to_nat col_id = Some (table_idx, col_name)
         ∧ 0 ≤ table_idx
         ∧ table_names school_schema !! Z.to_nat table_idx = Some table
         ∧ key = table +:+ "." +:+ col_name
         ∧ policy = assign_policy col_name).
Proof.
  apply assign_policies_for_db_entries. vm_compute. reflexivity.
Defined.

(** ** policy_assigner.py and rewriter.py together *)

Lemma key_injective table1 column1 table2 column2 :
  dot ∉ chars table1 → dot ∉ chars table2 →
  table1 +:+ "." +:+ column1 = table2 +:+ "." +:+ column2 →
  table1 = table2 ∧ column1 = column2.
Proof.
  revert table2. induction table1 as [|c1 table1 IH]; intros [|c2 table2] H1 H2 Heq.
  - change (String dot column1 = String dot column2) in Heq. by injection Heq as ->.
  - change (String dot column1 = String c2 (table2 +:+ "." +:+ column2)) in Heq.
    injection Heq as <- _. exfalso. apply H2. apply list_elem_of_here.
  - change (String c1 (table1 +:+ "." +:+ column1) = String dot column2) in Heq.
    injection Heq as -> _. exfalso. apply H1. apply list_elem_of_here.
  - change (String c1 (table1 +:+ "." +:+ column1)
            = String c2 (table2 +:+ "." +:+ column2)) in Heq.
    injection Heq as -> Heq.
    apply not_elem_of_cons in H1 as [_ H1]. apply not_elem_of_cons in H2 as [_ H2].
    destruct (IH table2 H1 H2 Heq) as [-> ->]. done.
Qed.

Lemma generated_policies_no_replacement schema policies column :
  table_names_dot_free schema →
  assign_policies_for_db schema = Ok policies →
  _find_id_column column schema policies = Ok None.
Proof.
  intros Hdots Hassign.
  destruct (assign_policies_for_db_spec _ _ Hassign) as (Hfrom & Hhas).
  destruct (_find_id_column column schema policies) as [[replacement|]|e] eqn:Hfind;
    [exfalso| done |exfalso].
  - destruct (find_id_column_found _ _ _ _ Hfind)
      as (col_id & table_idx & col_name & table & _ & _ & Htpos & Htab & _ & Hid
          & Hpol & ->).
    destruct (Hfrom _ _ Hpol) as (c & t & n & table' & _ & _ & Ht & Htab' & Hkey & Hpublic).
    apply py_getitem_lookup in Htab; [|done].
    unfold table_names_dot_free in Hdots. rewrite Forall_forall in Hdots.
    apply key_injective in Hkey as [_ ->].
    + symmetry in Hpublic. apply assign_policy_id_column in Hid. congruence.
    + apply Hdots. by eapply list_elem_of_lookup_2.
    + apply Hdots. by eapply list_elem_of_lookup_2.
  - rewrite find_id_column_sorted in Hfind.
    destruct (for_extend_total
                (id_candidate (lower (split_first column)) schema policies)
                (enumerate (column_names schema))) as [candidates Hcands].
    { intros [col_id [table_idx col_name]] [Hpos Hcol]%elem_of_enumerate.
      unfold id_candidate.
      destruct (Z.eqb_spec col_id 0); [by eexists|].
      destruct (Z.ltb_spec table_idx 0); [by eexists|].
      destruct (Hhas col_id table_idx col_name) as (table & Htab & _); [lia|done|done|].
      apply py_getitem_lookup in Htab; [|done]. rewrite Htab. cbn.
      destruct (negb _); [by eexists|]. destruct (_ && _); by eexists. }
    unfold find_id_candidates in Hfind. rewrite Hcands in Hfind. cbn in Hfind.
    by destruct (sort_by_key candidates).
Qed.

(** X17. With the policy map that [assign_policies_for_db] generates for a
    schema (no overrides applied) whose table names contain no dot, the
    replacement search never finds a candidate: every id-like column was
    assigned JoinOnly, so [_find_id_column] returns [None] for every
    column. *)
Theorem generated_policies_have_no_replacement (schema : TableSchema)
    (policies : gmap string PolicyType) (column : string) :
  table_names_dot_free schema →
  assign_policies_for_db schema = Ok policies →
  _find_id_column column schema policies = Ok None.
Proof. apply generated_policies_no_replacement. Qed.

Lemma generated_policies_have_no_replacement_witness :
  _find_id_column "Student.email" school_schema school_generated_policies = Ok None.
Proof.
  apply generated_policies_have_no_replacement.
  - repeat constructor; vm_compute;
      intros Hin; repeat (apply elem_of_cons in Hin as [Hin|Hin]; [discriminate Hin|]);
      by apply elem_of_nil in Hin.
  - vm_compute. reflexivity.
Defined.

Lemma apply_rewrite_step_keeps_hidden schema policies violations :
  (∀ column, _find_id_column column schema policies = Ok None) →
  ∀ query, ∃ query' remaining,
    _apply_rewrite_step query violations schema policies = Ok (query', remaining)
    ∧ ∀ v, v ∈ violations → v_policy v = Hidden → v ∈ remaining.
Proof.
  intros Hnone. induction violations as [|v violations IH]; intros query.
  - exists query, []. split; [done|]. by intros v ?%elem_of_nil.
  - cbn [_apply_rewrite_step]. destruct (v_policy v) eqn:Hpolicy.
    + cbn [mbind result_bind].
      destruct (IH query) as (query' & remaining & Hstep & Hkeep).
      exists query', remaining. rewrite Hstep. split; [done|].
      intros v' [->|Hin]%elem_of_cons Hv'; [congruence|by apply Hkeep].
    + cbn [mbind result_bind].
      destruct (IH query) as (query' & remaining & Hstep & Hkeep).
      exists query', remaining. rewrite Hstep. split; [done|].
      intros v' [->|Hin]%elem_of_cons Hv'; [congruence|by apply Hkeep].
    + cbv zeta.
      destruct (negb (String.eqb (_wrap_with_avg query (split_last (v_column v)))
                        query)); cbn [mbind result_bind].
      * destruct (IH (_wrap_with_avg query (split_last (v_column v))))
          as (query' & remaining & Hstep & Hkeep).
        exists query', remaining. rewrite Hstep. split; [done|].
        intros v' [->|Hin]%elem_of_cons Hv'; [congruence|by apply Hkeep].
      * destruct (IH query) as (query' & remaining & Hstep & Hkeep).
        exists query', (v :: remaining). rewrite Hstep. split; [done|].
        intros v' [->|Hin]%elem_of_cons Hv'; [congruence|].
        apply list_elem_of_further. by apply Hkeep.
    + rewrite Hnone. cbn [mbind result_bind].
      destruct (IH query) as (query' & remaining & Hstep & Hkeep).
      exists query', (v :: remaining). rewrite Hstep. split; [done|].
      intros v' [->|Hin]%elem_of_cons Hv'; [apply list_elem_of_here|].
      apply list_elem_of_further. by apply Hkeep.
Qed.

Lemma rewrite_passes_keeps_hidden schema policies v n :
  (∀ column, _find_id_column column schema policies = Ok None) →
  v_policy v = Hidden →
  ∀ query violations, v ∈ violations →
    rewrite_passes n query violations schema policies
    = Ok (Refused "Rewrite limit exceeded").
Proof.
  intros Hnone Hv. induction n as [|n IH]; intros query violations Hin;
    cbn [rewrite_passes]; [done|].
  destruct (apply_rewrite_step_keeps_hidden schema policies violations Hnone query)
    as (query' & remaining & -> & Hkeep).
  cbn [mbind result_bind]. specialize (Hkeep v Hin Hv).
  destruct remaining as [|v1 remaining]; [by apply elem_of_nil in Hkeep|].
  by apply IH.
Qed.

Lemma rewrite_refuses_without_replacement query violations schema policies v :
  (∀ column, _find_id_column column schema policies = Ok None) →
  v ∈ violations → v_role v = SelectExpr → v_policy v = Hidden →
  ∃ why, rewrite query violations schema policies = Ok (Refused why).
Proof.
  intros Hnone Hin Hrole Hpolicy.
  pose proof (rewrite_by_exit query violations schema policies) as Hrw.
  assert (Hsel : v ∈ filter (λ v, v_role v = SelectExpr) violations)
    by (by apply list_elem_of_filter).
  destruct (rewrite_exit_of violations) eqn:Hexit; try done.
  - apply exit_no_violations in Hexit. subst. by apply elem_of_nil in Hin.
  - exfalso. unfold rewrite_exit_of in Hexit.
    destruct violations; [done|].
    repeat (match type of Hexit with
            | context [find ?f ?l] => destruct (find f l); [done|]
            end).
    destruct (filter _ _); [by apply elem_of_nil in Hsel|done].
  - rewrite Hrw. eexists. by eapply rewrite_passes_keeps_hidden.
Qed.

(** X18. With the generated policy map of X17, a violation list that holds
    a SelectExpr violation on a Hidden column is always refused by
    [rewrite]: rule R1 cannot fire, so the violation survives both passes
    unless an earlier refusal applies. *)
Theorem generated_policies_refuse_hidden_select (query : string)
    (violations : list Violation) (schema : TableSchema)
    (policies : gmap string PolicyType) (v : Violation) :
  table_names_dot_free schema →
  assign_policies_for_db schema = Ok policies →
  v ∈ violations → v_role v = SelectExpr → v_policy v = Hidden →
  ∃ why, rewrite query violations schema policies = Ok (Refused why).
Proof.
  intros Hdots Hassign. apply rewrite_refuses_without_replacement.
  intros column. by apply generated_policies_no_replacement.
Qed.

Lemma generated_policies_refuse_hidden_select_witness :
  ∃ why, rewrite "SELECT email FROM Student" [email_selected] school_schema
           school_generated_policies = Ok (Refused why).
Proof.
  apply (generated_policies_refuse_hidden_select _ _ _ _ email_selected).
  - repeat constructor; vm_compute;
      intros Hin; repeat (apply elem_of_cons in Hin as [Hin|Hin]; [discriminate Hin|]);
      by apply elem_of_nil in Hin.
  - vm_compute. reflexivity.
  - apply list_elem_of_here.
  - reflexivity.
  - reflexivity.
Defined.

(** ** policy_assigner.py: overrides *)

Lemma apply_overrides_spec overrides db :
  ∀ policies,
    (∀ key, is_Some (apply_overrides policies overrides db !! key)
            ↔ is_Some (policies !! key))
    ∧ (∀ key,
         (∀ ov, ov ∈ overrides → ov_db_id ov = db → override_key ov ≠ key) →
         apply_overrides policies overrides db !! key = policies !! key).
Proof.
  induction overrides as [|ov overrides IH]; intros policies; [by split|].
  cbn [apply_overrides]. fold (override_key ov).
  destruct (String.eqb_spec (ov_db_id ov) db) as [Hdb|Hdb].
  - destruct (decide (is_Some (policies !! override_key ov))) as [Hin|Hin].
    + rewrite (bool_decide_eq_true_2 _ Hin).
      destruct (IH (<[override_key ov := ov_final_policy ov]> policies))
        as [Hdom Hsame].
      split.
      * intros key. rewrite Hdom.
        destruct (decide (key = override_key ov)) as [->|Hne].
        -- rewrite lookup_insert_eq. split; [done|by eexists].
        -- by rewrite lookup_insert_ne.
      * intros key Hkey. rewrite Hsame.
        -- apply lookup_insert_ne. apply Hkey; [apply list_elem_of_here|done].
        -- intros ov' Hov'. apply Hkey. by apply list_elem_of_further.
    + rewrite (bool_decide_eq_false_2 _ Hin).
      destruct (IH policies) as [Hdom Hsame]. split; [done|].
      intros key Hkey. apply Hsame. intros ov' Hov'. apply Hkey.
      by apply list_elem_of_further.
  - destruct (IH policies) as [Hdom Hsame]. split; [done|].
    intros key Hkey. apply Hsame. intros ov' Hov'. apply Hkey.
    by apply list_elem_of_further.
Qed.

(** X19. [apply_overrides] never adds or removes a key: the result has an
    entry exactly where the given map has one (an override for a column
    without entry is ignored); and a key that no override of this database
    names keeps its policy. In particular overrides of other databases
    change nothing. *)
Theorem apply_overrides_keeps_keys (policies : gmap string PolicyType)
    (overrides : list Override) (db : string) (key : string) :
  (is_Some (apply_overrides policies overrides db !! key)
   ↔ is_Some (policies !! key))
  ∧ ((∀ ov, ov ∈ overrides → ov_db_id ov = db → override_key ov ≠ key) →
     apply_overrides policies overrides db !! key = policies !! key).
Proof.
  destruct (apply_overrides_spec overrides db policies) as [Hdom Hsame].
  split; [apply Hdom|apply Hsame].
Qed.

(** ** negative_generator.py: the tables of a query *)

Lemma extract_tables_in_schema q :
  ∀ schema, ∃ tables,
    _extract_tables q schema = Ok tables
    ∧ Forall (λ table, table ∈ table_names schema) tables.
Proof.
  induction q as [sel tus fc wh i u e Htus _ _ _ _ _] using sql_ind.
  intros schema. cbn [_extract_tables sql_from_table_units].
  induction tus as [|tu tus IH]; [by exists []|].
  apply Forall_cons in Htus as [Htu Htus].
  destruct (IH Htus) as (tables & Htables & Hall).
  cbn [for_extend]. rewrite Htables.
  destruct tu as [table_idx|q'].
  - destruct ((0 <=? table_idx) && (table_idx <? Z.of_nat (length (table_names schema))))
      eqn:Hrange.
    + apply andb_true_iff in Hrange as [H0 Hlen].
      apply Z.leb_le in H0. apply Z.ltb_lt in Hlen.
      destruct (py_getitem_total (table_names schema) table_idx)
        as (table & -> & Hin); [lia|].
      exists (table :: tables). split; [done|]. by constructor.
    + by exists tables.
  - destruct (Htu schema) as (tables' & -> & Hall').
    exists (tables' ++ tables). split; [done|]. by apply Forall_app.
Qed.

(** X20. [_extract_tables] never raises: a table index outside
    [schema.table_names], negative ones included, is skipped, and every name
    it returns, from the FROM clause or from its nested subqueries, is a
    table name of the schema. *)
Theorem extract_tables_never_raises (q : sql) (schema : TableSchema) :
  ∃ tables,
    _extract_tables q schema = Ok tables
    ∧ Forall (λ table, table ∈ table_names schema) tables.
Proof. apply extract_tables_in_schema. Qed.

(** ** gold_generator.py and main.py: the gold label of an example *)

Lemma process_example_inv example schemas all_policies violations label :
  process_example example schemas all_policies = Ok (violations, label) →
  ∃ schema refs rewrite_result,
    schemas !! ex_db_id example = Some schema
    ∧ extract_roles (ex_sql example) schema = Ok refs
    ∧ check_violations refs (default ∅ (all_policies !! ex_db_id example))
      = Ok violations
    ∧ match violations with
      | [] => rewrite_result = None
      | _ => ∃ r, rewrite (ex_query example) violations schema
                    (default ∅ (all_policies !! ex_db_id example)) = Ok r
                  ∧ rewrite_result = Some r
      end
    ∧ label = generate_gold_label example violations rewrite_result.
Proof.
  unfold process_example.
  intros (schema & Hschema & Hrest)%bind_Ok_inv.
  destruct (schemas !! ex_db_id example) as [schema'|]; [|done].
  injection Hschema as ->.
  apply bind_Ok_inv in Hrest as (refs & Hrefs & Hrest).
  apply bind_Ok_inv in Hrest as (violations' & Hcheck & Hrest).
  apply bind_Ok_inv in Hrest as (rewrite_result & Hrewrite & [= -> <-]).
  exists schema, refs, rewrite_result. repeat split; try done.
  destruct violations as [|v violations]; [by injection Hrewrite as <-|].
  apply bind_Ok_inv in Hrewrite as (r & Hr & [= <-]). by exists r.
Qed.

Lemma denied_fixable v :
  denied v → unfixable v = false → rewritable v.
Proof.
  unfold denied, unfixable, rewritable, predicate_on_forbidden,
    aggonly_bad_aggregate, aggregate_on_forbidden, joinonly_selected,
    role_in, policy_in, count_or_avg.
  intros Hdenied Hfix.
  destruct (v_policy v), (v_role v); cbn in Hdenied; try done; auto.
  exfalso.
  assert (Hagg : bool_decide (v_agg_id v ∈ [3; 5]) = false).
  { apply bool_decide_eq_false. rewrite !elem_of_cons, elem_of_nil. lia. }
  rewrite Hagg in Hfix. done.
Qed.

(** X21. The gold label that the pipeline computes for an example is well
    formed and faithful: a REFUSE label carries no text and an SQL label
    carries one; a query with an unaggregated [SELECT *] is always REFUSE;
    without violations (and without [SELECT *]) the label is the original
    query; and an SQL label on a query with violations means that every
    violation was a SelectExpr violation on a Hidden or AggOnly column. *)
Theorem process_example_gold_label (example : SpiderExample)
    (schemas : gmap string TableSchema)
    (all_policies : gmap string (gmap string PolicyType))
    (violations : list Violation) (label : GoldLabel) :
  process_example example schemas all_policies = Ok (violations, label) →
  (gl_type label = REFUSE → gl_sql label = None)
  ∧ (gl_type label = SQL → ∃ text, gl_sql label = Some text)
  ∧ (has_select_star (ex_sql example) = true → gl_type label = REFUSE)
  ∧ (has_select_star (ex_sql example) = false → violations = [] →
     label = mkGoldLabel SQL (Some (ex_query example)))
  ∧ (gl_type label = SQL → Forall rewritable violations).
Proof.
  intros (schema & refs & rewrite_result & Hschema & Hrefs & Hcheck & Hrw & ->)
    %process_example_inv.
  unfold generate_gold_label.
  destruct (has_select_star (ex_sql example)); cbn; [by repeat split|].
  destruct violations as [|v violations]; cbn.
  { repeat split; try done. intros _. by eexists. }
  destruct Hrw as (r & Hr & ->).
  destruct (rewrite_shape _ _ _ _ _ Hr) as [[query' ->]|[why ->]]; cbn.
  - repeat split; try done; [intros _; by eexists|].
    intros _. apply Forall_forall. intros v' Hv'.
    apply denied_fixable.
    + pose proof (check_violations_denied _ _ _ Hcheck) as Hdenied.
      rewrite Forall_forall in Hdenied. by apply Hdenied.
    + destruct (unfixable v') eqn:Hfix; [|done]. exfalso.
      pose proof (rewrite_by_exit (ex_query example) (v :: violations) schema
                    (default ∅ (all_policies !! ex_db_id example))) as Hexit.
      destruct (unfixable_exit _ _ Hv' Hfix) as [E|[E|[E|E]]]; rewrite E in Hexit;
        destruct Hexit as [why Hexit]; rewrite Hr in Hexit; done.
  - by repeat split.
Qed.

Lemma process_example_gold_label_witness :
  (gl_type (mkGoldLabel SQL (Some "SELECT AVG(salary) FROM Employee")) = REFUSE →
   gl_sql (mkGoldLabel SQL (Some "SELECT AVG(salary) FROM Employee")) = None)
  ∧ (gl_type (mkGoldLabel SQL (Some "SELECT AVG(salary) FROM Employee")) = SQL →
     ∃ text, gl_sql (mkGoldLabel SQL (Some "SELECT AVG(salary) FROM Employee"))
             = Some text)
  ∧ (has_select_star (where_query 5) = true →
     gl_type (mkGoldLabel SQL (Some "SELECT AVG(salary) FROM Employee")) = REFUSE)
  ∧ (has_select_star (where_query 5) = false → [salary_selected] = [] →
     mkGoldLabel SQL (Some "SELECT AVG(salary) FROM Employee")
     = mkGoldLabel SQL (Some "SELECT salary FROM Employee"))
  ∧ (gl_type (mkGoldLabel SQL (Some "SELECT AVG(salary) FROM Employee")) = SQL →
     Forall rewritable [salary_selected]).
Proof.
  apply (process_example_gold_label
           (school_example "SELECT salary FROM Employee"
              (Sql (false, [(0, mkValUnit 0 (Some (mkColUnit 0 5 false)) None)])
                 [TableUnit 1] [] [] None None None))
           school_schemas (<["school" := school_policies]> ∅)).
  vm_compute. reflexivity.
Defined.

(** X22. For a database without an entry in [all_policies] the pipeline
    uses the empty policy map: whenever extraction does not raise, the
    example has no violations, [rewrite] is not called, and the gold label
    is the original query, or REFUSE if the query has an unaggregated
    [SELECT *]. *)
Theorem process_example_without_policies (example : SpiderExample)
    (schemas : gmap string TableSchema)
    (all_policies : gmap string (gmap string PolicyType))
    (schema : TableSchema) (refs : list ColumnRef) :
  schemas !! ex_db_id example = Some schema →
  all_policies !! ex_db_id example = None →
  extract_roles (ex_sql example) schema = Ok refs →
  process_example example schemas all_policies
  = Ok ([], if has_select_star (ex_sql example)
            then mkGoldLabel REFUSE None
            else mkGoldLabel SQL (Some (ex_query example))).
Proof.
  intros Hschema Hpolicies Hrefs. unfold process_example.
  rewrite Hschema, Hpolicies. cbn [mbind result_bind default].
  rewrite Hrefs. cbn [mbind result_bind].
  assert (Hnone : check_violations refs ∅ = Ok []).
  { destruct (check_violations_total refs ∅) as [[|v violations] Hcheck]; [done|].
    destruct (check_violations_entry _ _ _ v Hcheck) as (Hentry & _);
      [apply list_elem_of_here|].
    by rewrite lookup_empty in Hentry. }
  rewrite Hnone. cbn [mbind result_bind]. unfold generate_gold_label.
  by destruct (has_select_star (ex_sql example)).
Qed.

Lemma process_example_without_policies_witness :
  process_example (school_example "SELECT name FROM Student WHERE salary = 1"
                     (where_query 5)) school_schemas ∅
  = Ok ([], if has_select_star (where_query 5)
            then mkGoldLabel REFUSE None
            else mkGoldLabel SQL (Some "SELECT name FROM Student WHERE salary = 1")).
Proof.
  apply (process_example_without_policies
           (school_example "SELECT name FROM Student WHERE salary = 1" (where_query 5))
           school_schemas ∅ school_schema
           [mkColumnRef "Student" "name" SelectExpr 0;
            mkColumnRef "Employee" "salary" WherePred 0]).
  - vm_compute. reflexivity.
  - apply lookup_empty.
  - vm_compute. reflexivity.
Defined.

(** ** rewriter.py: the replacement search as a whole *)

(** X23. On a schema whose table indices are in range and whose table and
    column names are ASCII, the column names not ending with a newline, and
    for an ASCII key of the violating column, [_find_id_column] does not
    raise; it returns [None] exactly when no column of the violating
    column's table (names compared in lower case) has an id-like name and
    the policy entry Public; otherwise it returns the key of such a column,
    a primary key if one of them is, and the one with the least column id
    among those of its kind. *)
Theorem replacement_search_selection (column : string) (schema : TableSchema)
    (policies : gmap string PolicyType) :
  schema_wf schema → names_one_line schema →
  schema_ascii schema → isascii column = true →
  match _find_id_column column schema policies with
  | Ok None => ∀ i full_name, ¬ is_candidate column schema policies i full_name
  | Ok (Some replacement) =>
      ∃ i, is_candidate column schema policies i replacement
           ∧ ∀ j full_name, is_candidate column schema policies j full_name →
               (j ∈ primary_keys schema → i ∈ primary_keys schema)
               ∧ ((j ∈ primary_keys schema ↔ i ∈ primary_keys schema) → i ≤ j)
  | Raise _ => False
  end.
Proof. apply find_id_column_selects. Qed.

Ltac solve_names_one_line :=
  let Hin := fresh "Hin" in
  intros ? ? Hin;
  repeat (apply elem_of_cons in Hin as [Hin|Hin];
          [injection Hin as -> ->; vm_compute; discriminate|]);
  by apply elem_of_nil in Hin.

Ltac solve_schema_ascii :=
  let Hin := fresh "Hin" in
  split;
  [ intros ? Hin;
    repeat (apply elem_of_cons in Hin as [->|Hin]; [vm_compute; reflexivity|]);
    by apply elem_of_nil in Hin
  | intros ? ? Hin;
    repeat (apply elem_of_cons in Hin as [Hin|Hin];
            [injection Hin as -> ->; vm_compute; reflexivity|]);
    by apply elem_of_nil in Hin ].

Lemma replacement_search_selection_witness :
  match _find_id_column "Enrollment.email" enrollment_schema enrollment_policies with
  | Ok None =>
      ∀ i full_name,
        ¬ is_candidate "Enrollment.email" enrollment_schema enrollment_policies
            i full_name
  | Ok (Some replacement) =>
      ∃ i, is_candidate "Enrollment.email" enrollment_schema enrollment_policies
             i replacement
           ∧ ∀ j full_name,
               is_candidate "Enrollment.email" enrollment_schema
                 enrollment_policies j full_name →
               (j ∈ primary_keys enrollment_schema →
                i ∈ primary_keys enrollment_schema)
               ∧ ((j ∈ primary_keys enrollment_schema
                   ↔ i ∈ primary_keys enrollment_schema) → i ≤ j)
  | Raise _ => False
  end.
Proof.
  apply replacement_search_selection.
  - solve_schema_wf.
  - solve_names_one_line.
  - solve_schema_ascii.
  - vm_compute. reflexivity.
Defined.

(** X24. On an ASCII column name that does not end with a newline, the five
    id patterns of the rewriter ([^id$], [_id$], [^id_], [_code$],
    [^stuid$], all with [re.I]) accept exactly the names that, in lower
    case, are [id] or [stuid], end with [_id] or [_code], or start with
    [id_]. *)
Theorem id_patterns_meaning (name : string) :
  isascii name = true → one_line name →
  is_id_column name = true ↔ id_like name.
Proof. apply is_id_column_id_like. Qed.

Lemma id_patterns_meaning_witness :
  is_id_column "Course_Code" = true ↔ id_like "Course_Code".
Proof.
  apply id_patterns_meaning.
  - vm_compute. reflexivity.
  - vm_compute. discriminate.
Defined.
